(** * jschema.dev: the schema-relationship graph engine

    A shallow embedding of [src/utils/schemaRelationships.ts] and of the
    layout orchestration of [src/utils/graphUtils.ts], with the properties
    of reference extraction, path resolution, graph construction and the
    layout fallback.

    Conventions of the embedding.
    - A JavaScript string is a [string]; every string operation the code
      uses ([split], [join], [startsWith], [endsWith], [includes],
      [lastIndexOf], [substring], the two regular expressions) only looks
      for ASCII characters, so it is written character by character.
    - A schema document is a [json] value as [JSON.parse] returns it. An
      object is the list of its own entries in the order [Object.entries]
      enumerates them; [undefined] is the [None] of a property lookup.
    - A number is kept as its canonical rendering (what [String(n)]
      returns): the code looks at numbers through truthiness and string
      interpolation only.
    - An exception is the [Throw] of the [completion] type.
    - [createSchemaGraph] is given twice: on values, each loop passing on
      the state of the containers it fills, and on a heap of objects
      ([Stateful.createSchemaGraph]), where its arguments and the
      containers it creates are locations; the first is what a call of
      the second computes from the contents of its arguments. *)

From Stdlib Require Import String Ascii List Bool Arith ZArith QArith Lia.
From Stdlib Require Import DecimalString DecimalNat.
Import ListNotations.
Close Scope Q_scope.
Open Scope string_scope.
Open Scope list_scope.

(** ** JavaScript strings *)

Module JsString.

Fixpoint startsWith (s p : string) : bool :=
  match p with
  | EmptyString => true
  | String b p' =>
      match s with
      | EmptyString => false
      | String a s' => Ascii.eqb a b && startsWith s' p'
      end
  end.

(** [s.endsWith(suf)]: some suffix of [s] is [suf]. *)
Fixpoint endsWith (s suf : string) : bool :=
  (s =? suf) ||
  match s with
  | EmptyString => false
  | String _ s' => endsWith s' suf
  end.

(** [s.includes(c)] for a one-character needle. *)
Fixpoint includes (s : string) (c : ascii) : bool :=
  match s with
  | EmptyString => false
  | String a s' => Ascii.eqb a c || includes s' c
  end.

Fixpoint lastIndexOf_from (s : string) (c : ascii) (i acc : Z) : Z :=
  match s with
  | EmptyString => acc
  | String a s' =>
      lastIndexOf_from s' c (i + 1) (if Ascii.eqb a c then i else acc)
  end.

(** [s.lastIndexOf(c)], [-1] when [c] does not occur. *)
Definition lastIndexOf (s : string) (c : ascii) : Z :=
  lastIndexOf_from s c 0 (-1).

Definition clamp (len i : Z) : Z := Z.max 0 (Z.min i len).

(** [s.substring(a, b)]: both indices are clamped to [0, length] and
    swapped when out of order. *)
Definition substring (s : string) (a b : Z) : string :=
  let len := Z.of_nat (String.length s) in
  let a' := clamp len a in
  let b' := clamp len b in
  let lo := Z.min a' b' in
  let hi := Z.max a' b' in
  String.substring (Z.to_nat lo) (Z.to_nat (hi - lo)) s.

(** [s.split(sep)] for a one-character separator. *)
Fixpoint split (s : string) (sep : ascii) : list string :=
  match s with
  | EmptyString => [EmptyString]
  | String a s' =>
      if Ascii.eqb a sep then EmptyString :: split s' sep
      else match split s' sep with
           | [] => [String a EmptyString]
           | seg :: segs => String a seg :: segs
           end
  end.

(** [parts.join(sep)]. *)
Definition join (parts : list string) (sep : string) : string :=
  String.concat sep parts.

(** A string is truthy when it is not empty. *)
Definition nonEmpty (s : string) : bool :=
  match s with EmptyString => false | _ => true end.

(** The longest prefix without ['#']. *)
Fixpoint untilHash (s : string) : string :=
  match s with
  | EmptyString => EmptyString
  | String a s' =>
      if Ascii.eqb a "#" then EmptyString else String a (untilHash s')
  end.

(** [s.match(/^([^#]+)/)]: the first capture group, [None] when the
    match fails ([s] is empty or starts with ['#']). *)
Definition matchBeforeHash (s : string) : option string :=
  match untilHash s with
  | EmptyString => None
  | m => Some m
  end.

(** [s.replace(/\.schema\.json$/, '')]. *)
Fixpoint stripSchemaJson (s : string) : string :=
  if s =? ".schema.json" then EmptyString
  else match s with
       | EmptyString => EmptyString
       | String a s' => String a (stripSchemaJson s')
       end.

(** The decimal rendering of an array index. *)
Definition ofIndex (i : nat) : string :=
  NilEmpty.string_of_uint (Nat.to_uint i).

End JsString.

(** ** JSON values *)

#[local] Unset Elimination Schemes.

Inductive json : Type :=
| JNull
| JBool (b : bool)
| JNum (rendering : string)
| JStr (s : string)
| JArr (elements : list json)
| JObj (entries : list (string * json)).

#[local] Set Elimination Schemes.

(** ** Induction on JSON values *)

Section JsonInduction.

Variable P : json -> Prop.
Hypothesis Hnull : P JNull.
Hypothesis Hbool : forall b, P (JBool b).
Hypothesis Hnum : forall r, P (JNum r).
Hypothesis Hstr : forall s, P (JStr s).
Hypothesis Harr : forall l, Forall P l -> P (JArr l).
Hypothesis Hobj : forall l, Forall (fun e => P (snd e)) l -> P (JObj l).

Fixpoint json_ind (v : json) : P v :=
  match v with
  | JNull => Hnull
  | JBool b => Hbool b
  | JNum r => Hnum r
  | JStr s => Hstr s
  | JArr l =>
      Harr l
        ((fix all (l : list json) : Forall P l :=
            match l with
            | [] => Forall_nil P
            | e :: l' => Forall_cons e (json_ind e) (all l')
            end) l)
  | JObj l =>
      Hobj l
        ((fix all (l : list (string * json))
            : Forall (fun e => P (snd e)) l :=
            match l with
            | [] => Forall_nil _
            | e :: l' => Forall_cons e (json_ind (snd e)) (all l')
            end) l)
  end.

End JsonInduction.

Module Json.

(** ToBoolean. *)
Definition truthy (v : json) : bool :=
  match v with
  | JNull => false
  | JBool b => b
  | JNum r => negb (r =? "0")
  | JStr s => JsString.nonEmpty s
  | JArr _ | JObj _ => true
  end.

(** [typeof v === 'object' && v !== null]: arrays are objects. *)
Definition isObject (v : json) : bool :=
  match v with
  | JArr _ | JObj _ => true
  | _ => false
  end.

Fixpoint assoc (k : string) (l : list (string * json)) : option json :=
  match l with
  | [] => None
  | (k', v) :: l' => if k' =? k then Some v else assoc k l'
  end.

(** [v.k] for a property name [k] that neither [Array.prototype],
    [String.prototype], [Number.prototype], [Boolean.prototype] nor
    [Object.prototype] defines and that is not an index ([$ref], [type],
    [items], [title], [$id], [properties]); [v] is not [null]. *)
Definition getProp (v : json) (k : string) : option json :=
  match v with
  | JObj l => assoc k l
  | _ => None
  end.

Fixpoint indexed (i : nat) (l : list json) : list (string * json) :=
  match l with
  | [] => []
  | v :: l' => (JsString.ofIndex i, v) :: indexed (S i) l'
  end.

Fixpoint chars (i : nat) (s : string) : list (string * json) :=
  match s with
  | EmptyString => []
  | String a s' =>
      (JsString.ofIndex i, JStr (String a EmptyString)) :: chars (S i) s'
  end.

(** [Object.entries(v)]. *)
Definition ownEntries (v : json) : list (string * json) :=
  match v with
  | JObj l => l
  | JArr l => indexed 0 l
  | JStr s => chars 0 s
  | _ => []
  end.

End Json.

(** ** Relationships *)

Inductive Cardinality : Type := OneToOne | OneToMany | Multiple.

Record SchemaRelationship : Type := mkRel {
  from : string;
  to : string;
  refPath : string;
  type : Cardinality;
  propertyName : option string
}.

(** ** [resolveRelativePath] *)

Definition resolveStep (resultParts : list string) (part : string)
  : list string :=
  if part =? ".." then removelast resultParts
  else if negb (part =? ".") then resultParts ++ [part]
  else resultParts.

Definition dirOf (p : string) : string :=
  JsString.substring p 0 (JsString.lastIndexOf p "/").

Definition resolveRelativePath (basePath relativePath : string) : string :=
  let baseDir := dirOf basePath in
  let baseParts := filter JsString.nonEmpty (JsString.split baseDir "/") in
  let relParts := filter JsString.nonEmpty (JsString.split relativePath "/") in
  let resultParts := fold_left resolveStep relParts baseParts in
  JsString.join resultParts "/".

(** ** [extractSchemaReferences] *)

(** The target a cross-file reference [refPath] (the part of [$ref] before
    any ['#']) names, seen from the document [schemaName]. *)
Definition resolveTarget (schemaName refPath : string) : string :=
  if JsString.startsWith refPath "../" || JsString.startsWith refPath "./"
  then resolveRelativePath schemaName refPath
  else if negb (JsString.includes refPath "/") then
    let baseDir := dirOf schemaName in
    if JsString.nonEmpty baseDir then (baseDir ++ "/" ++ refPath)%string
    else refPath
  else refPath.

(** What the [$ref] of the node [obj] itself pushes onto [refs]. *)
Definition collectRef (schemaName : string) (obj : json)
  (propertyName : string) (parentIsArray : bool) : list SchemaRelationship :=
  match Json.getProp obj "$ref" with
  | Some (JStr ref) =>
      if JsString.nonEmpty ref then
        match JsString.matchBeforeHash ref with
        | Some m =>
            if JsString.endsWith m ".json" then
              [ {| from := schemaName;
                   to := resolveTarget schemaName m;
                   refPath := ref;
                   type := if parentIsArray then OneToMany else OneToOne;
                   propertyName := Some propertyName |} ]
            else []
        | None => []
        end
      else []
  | _ => []
  end.

(** [obj.type === 'array']. *)
Definition isArrayTyped (obj : json) : bool :=
  match Json.getProp obj "type" with
  | Some (JStr t) => t =? "array"
  | _ => false
  end.

(** [traverse]: the relationships pushed while visiting [obj], in the order
    of the pushes. *)
Fixpoint traverse (schemaName : string) (obj : json)
  (path propertyName : string) (parentIsArray : bool) {struct obj}
  : list SchemaRelationship :=
  match obj with
  | JObj l =>
      collectRef schemaName obj propertyName parentIsArray
      ++ (if isArrayTyped obj then
            (fix items (l : list (string * json)) : list SchemaRelationship :=
               match l with
               | [] => []
               | (k, v) :: l' =>
                   if k =? "items" then
                     if Json.truthy v
                     then traverse schemaName v path propertyName true
                     else []
                   else items l'
               end) l
          else [])
      ++ (fix each (l : list (string * json)) : list SchemaRelationship :=
            match l with
            | [] => []
            | (key, value) :: l' =>
                (if Json.isObject value && negb (key =? "items")
                 then traverse schemaName value path key false
                 else [])
                ++ each l'
            end) l
  | JArr l =>
      (fix each (i : nat) (l : list json) : list SchemaRelationship :=
         match l with
         | [] => []
         | value :: l' =>
             (if Json.isObject value
              then traverse schemaName value path (JsString.ofIndex i) false
              else [])
             ++ each (S i) l'
         end) 0%nat l
  | _ => []
  end.

Definition extractSchemaReferences (schema : json) (schemaName : string)
  : list SchemaRelationship :=
  traverse schemaName schema EmptyString EmptyString false.

(** ** Exceptions *)

Inductive JsError : Type :=
| TypeError
| Error (message : string).

(** How a call completes: it returns a value or throws. *)
Inductive completion (A : Type) : Type :=
| Returns (a : A)
| Throws (e : JsError).

Arguments Returns {A} a.
Arguments Throws {A} e.

Definition bind {A B : Type} (c : completion A) (k : A -> completion B)
  : completion B :=
  match c with
  | Returns a => k a
  | Throws e => Throws e
  end.

Notation "x <- c ;; k" := (bind c (fun x => k))
  (at level 61, c at next level, right associativity).

(** A [forEach] whose callback may throw: the first exception ends it. *)
Fixpoint forEachM {A S : Type} (f : S -> A -> completion S) (l : list A)
  (s : S) : completion S :=
  match l with
  | [] => Returns s
  | a :: l' => s' <- f s a ;; forEachM f l' s'
  end.

(** ** Numbers *)

(** The numbers of node positions and edge widths: [NaN], a finite value
    or one of the two infinities. *)
Inductive number : Type :=
| NaN
| Num (q : Q)
| Infinity (negative : bool).

(** ** Sets and maps in insertion order *)

Module JsSet.

Definition t := list string.

Definition has (s : t) (k : string) : bool := existsb (String.eqb k) s.

Definition add (s : t) (k : string) : t := if has s k then s else s ++ [k].

End JsSet.

Module JsMap.

Section Ops.
Context {V : Type}.

Definition t := list (string * V).

Fixpoint get (m : t) (k : string) : option V :=
  match m with
  | [] => None
  | (k', v) :: m' => if k' =? k then Some v else get m' k
  end.

Definition has (m : t) (k : string) : bool :=
  match get m k with Some _ => true | None => false end.

(** [m.set(k, v)]: a new key goes last, an old one keeps its place. *)
Fixpoint set (m : t) (k : string) (v : V) : t :=
  match m with
  | [] => [(k, v)]
  | (k', v') :: m' =>
      if k' =? k then (k', v) :: m' else (k', v') :: set m' k v
  end.
End Ops.

Arguments t : clear implicits.

End JsMap.

(** ** Nodes and edges *)

Module Node.

Record Data : Type := mkData {
  label : json;
  schemaName : string;
  isRoot : bool;
  isExpanded : bool;
  properties : list string;
  schemaData : json;
  entityType : string
}.

Record Position : Type := mkPosition { x : number; y : number }.

Record t : Type := mk {
  id : string;
  type : string;
  data : Data;
  position : Position
}.

End Node.

Module Edge.

Record Style : Type := mkStyle { stroke : string; strokeWidth : number }.

Record Data : Type := mkData {
  type : Cardinality;
  propertyNames : list string;
  count : nat
}.

Record t : Type := mk {
  id : string;
  source : string;
  target : string;
  animated : bool;
  style : Style;
  data : Data
}.

End Edge.

(** ** [extractEntityType] *)

Definition extractEntityType (schemaPath : string) : string :=
  let withoutExtension := JsString.stripSchemaJson schemaPath in
  let pathParts := JsString.split withoutExtension "/" in
  match pathParts with
  | p0 :: p1 :: _ =>
      if (p0 =? "v1") && JsString.nonEmpty p1 then p1
      else
        let filename := last pathParts EmptyString in
        if JsString.nonEmpty filename then filename else "unknown"
  | _ =>
      let filename := last pathParts EmptyString in
      if JsString.nonEmpty filename then filename else "unknown"
  end.

(** ** String interpolation *)

(** ToString of a JSON value inside a template literal. An array is its
    elements joined by commas ([null] elements render empty); an object is
    ["[object Object]"], unless it has an own [toString] entry, which is
    never callable: then the conversion throws. *)
Fixpoint toString (v : json) : completion string :=
  match v with
  | JNull => Returns "null"
  | JBool true => Returns "true"
  | JBool false => Returns "false"
  | JNum r => Returns r
  | JStr s => Returns s
  | JArr l =>
      parts <-
        (fix each (l : list json) : completion (list string) :=
           match l with
           | [] => Returns []
           | e :: l' =>
               s <- match e with JNull => Returns EmptyString | _ => toString e end ;;
               rest <- each l' ;;
               Returns (s :: rest)
           end) l ;;
      Returns (JsString.join parts ",")
  | JObj l =>
      match Json.assoc "toString" l with
      | Some _ => Throws TypeError
      | None => Returns "[object Object]"
      end
  end.

(** [v.k] where [v] may be [null], on which property access throws. *)
Definition getPropM (v : json) (k : string) : completion (option json) :=
  match v with
  | JNull => Throws TypeError
  | _ => Returns (Json.getProp v k)
  end.

(** [a || b]. *)
Definition orElse (a : option json) (b : json) : json :=
  match a with
  | Some v => if Json.truthy v then v else b
  | None => b
  end.

(** ** [createSchemaGraph] *)

(** The callback of [Object.keys(schema.properties).forEach]. *)
Definition pushProperty (properties : list string) (entry : string * json)
  : completion (list string) :=
  let (key, prop) := entry in
  propType <- getPropM prop "type" ;;
  ty <- toString (orElse propType (JStr "any")) ;;
  Returns (properties ++ [(key ++ ": " ++ ty)%string]).

(** The callback of [schemas.forEach]: one node per document. *)
Definition pushNode (relationships : list SchemaRelationship)
  (expandedNodes : JsSet.t) (st : list Node.t * JsSet.t)
  (entry : string * json) : completion (list Node.t * JsSet.t) :=
  let (nodes, nodeIds) := st in
  let (name, schema) := entry in
  titleProp <- getPropM schema "title" ;;
  idProp <- getPropM schema "$id" ;;
  let title := orElse titleProp (orElse idProp (JStr name)) in
  let isRoot := negb (existsb (fun r => to r =? name) relationships) in
  let isExpanded := JsSet.has expandedNodes name in
  let entityType := extractEntityType name in
  propsProp <- getPropM schema "properties" ;;
  properties <-
    match propsProp with
    | Some props =>
        if Json.truthy props
        then forEachM pushProperty (Json.ownEntries props) []
        else Returns []
    | None => Returns []
    end ;;
  Returns
    (nodes ++
       [ {| Node.id := name;
            Node.type := "schemaNode";
            Node.data :=
              {| Node.label := title;
                 Node.schemaName := name;
                 Node.isRoot := isRoot;
                 Node.isExpanded := isExpanded;
                 Node.properties := properties;
                 Node.schemaData := schema;
                 Node.entityType := entityType |};
            Node.position := {| Node.x := Num 0; Node.y := Num 0 |} |} ],
     JsSet.add nodeIds name).

(** The key of a relationship in [relationshipGroups]. *)
Definition groupKey (rel : SchemaRelationship) : string :=
  (from rel ++ "-" ++ to rel)%string.

(** The callback of [relationships.forEach]. *)
Definition pushGroup (relationshipGroups : JsMap.t (list SchemaRelationship))
  (rel : SchemaRelationship) : JsMap.t (list SchemaRelationship) :=
  let key := groupKey rel in
  let groups :=
    if negb (JsMap.has relationshipGroups key)
    then JsMap.set relationshipGroups key []
    else relationshipGroups in
  match JsMap.get groups key with
  | Some rels => JsMap.set groups key (rels ++ [rel])
  | None => groups
  end.

(** [nodeIds.has(p) ? p : Array.from(nodeIds).find(id => id.endsWith(p)) || p] *)
Definition resolveNode (nodeIds : JsSet.t) (p : string) : string :=
  if JsSet.has nodeIds p then p
  else match find (fun id => JsString.endsWith id p) nodeIds with
       | Some id => if JsString.nonEmpty id then id else p
       | None => p
       end.

Definition edgeId (fromNode toNode : string) : string :=
  (fromNode ++ "-" ++ toNode)%string.

(** The edge of a group whose first relationship is [rel]. *)
Definition groupEdge (fromNode toNode : string) (rel : SchemaRelationship)
  (rels : list SchemaRelationship) : Edge.t :=
  let '(edgeColor, edgeWidth, edgeType) :=
    if (1 <? length rels)%nat then ("#12a525ff", Num (5 # 2), Multiple)
    else match type rel with
         | OneToMany => ("#ff9800", Num 2, OneToMany)
         | _ => ("#61dafb", Num 1, OneToOne)
         end in
  {| Edge.id := edgeId fromNode toNode;
     Edge.source := fromNode;
     Edge.target := toNode;
     Edge.animated := true;
     Edge.style := {| Edge.stroke := edgeColor; Edge.strokeWidth := edgeWidth |};
     Edge.data :=
       {| Edge.type := edgeType;
          Edge.propertyNames :=
            flat_map (fun r => match propertyName r with
                               | Some n => if JsString.nonEmpty n then [n] else []
                               | None => []
                               end) rels;
          Edge.count := length rels |} |}.

(** The mutable locals of the edge loop. *)
Record EdgeState : Type := mkEdgeState {
  edges : list Edge.t;
  edgeIds : JsSet.t;
  matchedCount : nat;
  unmatchedCount : nat
}.

(** The callback of [relationshipGroups.forEach]; a group is never empty
    (see [groups_not_empty]). *)
Definition pushEdge (nodeIds : JsSet.t) (st : EdgeState)
  (group : string * list SchemaRelationship) : EdgeState :=
  match snd group with
  | [] => st
  | rel :: _ =>
      let rels := snd group in
      let fromNode := resolveNode nodeIds (from rel) in
      let toNode := resolveNode nodeIds (to rel) in
      if JsSet.has nodeIds fromNode && JsSet.has nodeIds toNode then
        let edgeId := edgeId fromNode toNode in
        if negb (JsSet.has (edgeIds st) edgeId) then
          {| edges := edges st ++ [groupEdge fromNode toNode rel rels];
             edgeIds := JsSet.add (edgeIds st) edgeId;
             matchedCount := S (matchedCount st);
             unmatchedCount := unmatchedCount st |}
        else st
      else
        {| edges := edges st;
           edgeIds := edgeIds st;
           matchedCount := matchedCount st;
           unmatchedCount := S (unmatchedCount st) |}
  end.

Definition groupRelationships (relationships : list SchemaRelationship)
  : JsMap.t (list SchemaRelationship) :=
  fold_left pushGroup relationships [].

Definition buildEdges (nodeIds : JsSet.t)
  (relationships : list SchemaRelationship) : EdgeState :=
  fold_left (pushEdge nodeIds) (groupRelationships relationships)
    {| edges := []; edgeIds := []; matchedCount := 0; unmatchedCount := 0 |}.

(** [schemas] is the [Map] of the documents, as its entries in insertion
    order; [expandedNodes] is a [Set]. *)
Definition createSchemaGraph (schemas : JsMap.t json)
  (relationships : list SchemaRelationship) (expandedNodes : JsSet.t)
  : completion (list Node.t * list Edge.t) :=
  st <- forEachM (pushNode relationships expandedNodes) schemas ([], []) ;;
  let (nodes, nodeIds) := st in
  Returns (nodes, edges (buildEdges nodeIds relationships)).

(** ** The containers of [createSchemaGraph], as objects *)

(** The arrays, maps and sets a call of [createSchemaGraph] is given and
    the ones it creates are objects: a call can change the ones it is
    given, and could keep the ones it makes. They live in a heap, and the
    function is written a second time, statement by statement, over it. *)
Module Heap.

Inductive Obj : Type :=
| Documents (m : JsMap.t json)
| Relationships (l : list SchemaRelationship)
| Names (s : JsSet.t)
| Nodes (l : list Node.t)
| Edges (l : list Edge.t)
| Groups (m : JsMap.t (list SchemaRelationship))
| Count (n : nat).

(** A location is the rank of the object in the order of creation. *)
Definition loc : Type := nat.

Definition t : Type := list Obj.

Definition read (l : loc) (h : t) : option Obj := nth_error h l.

Fixpoint write (l : loc) (o : Obj) (h : t) : t :=
  match h, l with
  | [], _ => []
  | _ :: h', O => o :: h'
  | x :: h', S l' => x :: write l' o h'
  end.

End Heap.

(** A computation on the heap that returns or throws. *)
Definition M (A : Type) : Type := Heap.t -> completion A * Heap.t.

Definition ret {A : Type} (a : A) : M A := fun h => (Returns a, h).

Definition bindH {A B : Type} (m : M A) (k : A -> M B) : M B :=
  fun h =>
    match m h with
    | (Returns a, h') => k a h'
    | (Throws e, h') => (Throws e, h')
    end.

Notation "x <~ c ;; k" := (bindH c (fun x => k))
  (at level 61, c at next level, right associativity).

Notation "c ;;; k" := (bindH c (fun _ => k))
  (at level 61, right associativity).

(** A step that does not touch the heap. *)
Definition lift {A : Type} (c : completion A) : M A := fun h => (c, h).

(** [new Map()], [new Set()], [[]], [let n = 0]. *)
Definition new (o : Heap.Obj) : M Heap.loc :=
  fun h => (Returns (length h), h ++ [o]).

Definition store (l : Heap.loc) (o : Heap.Obj) : M unit :=
  fun h => (Returns tt, Heap.write l o h).

(** The object at a location, used as a [Map] of documents, an array of
    relationships, and so on; a method of another kind of object is
    [undefined], and calling it throws. *)
Definition documentsAt (l : Heap.loc) : M (JsMap.t json) :=
  fun h =>
    match Heap.read l h with
    | Some (Heap.Documents m) => (Returns m, h)
    | _ => (Throws TypeError, h)
    end.

Definition relationshipsAt (l : Heap.loc) : M (list SchemaRelationship) :=
  fun h =>
    match Heap.read l h with
    | Some (Heap.Relationships rels) => (Returns rels, h)
    | _ => (Throws TypeError, h)
    end.

Definition namesAt (l : Heap.loc) : M JsSet.t :=
  fun h =>
    match Heap.read l h with
    | Some (Heap.Names s) => (Returns s, h)
    | _ => (Throws TypeError, h)
    end.

Definition nodesAt (l : Heap.loc) : M (list Node.t) :=
  fun h =>
    match Heap.read l h with
    | Some (Heap.Nodes ns) => (Returns ns, h)
    | _ => (Throws TypeError, h)
    end.

Definition edgesAt (l : Heap.loc) : M (list Edge.t) :=
  fun h =>
    match Heap.read l h with
    | Some (Heap.Edges es) => (Returns es, h)
    | _ => (Throws TypeError, h)
    end.

Definition groupsAt (l : Heap.loc) : M (JsMap.t (list SchemaRelationship)) :=
  fun h =>
    match Heap.read l h with
    | Some (Heap.Groups gs) => (Returns gs, h)
    | _ => (Throws TypeError, h)
    end.

Definition countAt (l : Heap.loc) : M nat :=
  fun h =>
    match Heap.read l h with
    | Some (Heap.Count n) => (Returns n, h)
    | _ => (Throws TypeError, h)
    end.

(** [l.add(name)], [l.push(x)], [l++]. *)
Definition addName (l : Heap.loc) (name : string) : M unit :=
  s <~ namesAt l ;; store l (Heap.Names (JsSet.add s name)).

Definition pushNodeAt (l : Heap.loc) (n : Node.t) : M unit :=
  ns <~ nodesAt l ;; store l (Heap.Nodes (ns ++ [n])).

Definition pushEdgeAt (l : Heap.loc) (e : Edge.t) : M unit :=
  es <~ edgesAt l ;; store l (Heap.Edges (es ++ [e])).

Definition increment (l : Heap.loc) : M unit :=
  n <~ countAt l ;; store l (Heap.Count (S n)).

(** A [forEach] over the elements the collection has when the loop
    starts; no callback below adds to the collection it runs over. *)
Fixpoint forEachH {A : Type} (f : A -> M unit) (l : list A) : M unit :=
  match l with
  | [] => ret tt
  | a :: l' => f a ;;; forEachH f l'
  end.

(** The completion of a loop, without its value. *)
Definition void {A : Type} (c : completion A) : completion unit :=
  match c with
  | Returns _ => Returns tt
  | Throws e => Throws e
  end.

Module Stateful.

(** The callback of [schemas.forEach]. *)
Definition nodeCallback (relationships expandedNodes nodes nodeIds : Heap.loc)
  (entry : string * json) : M unit :=
  let (name, schema) := entry in
  titleProp <~ lift (getPropM schema "title") ;;
  idProp <~ lift (getPropM schema "$id") ;;
  let title := orElse titleProp (orElse idProp (JStr name)) in
  rels <~ relationshipsAt relationships ;;
  let isRoot := negb (existsb (fun r => to r =? name) rels) in
  expanded <~ namesAt expandedNodes ;;
  let isExpanded := JsSet.has expanded name in
  let entityType := extractEntityType name in
  propsProp <~ lift (getPropM schema "properties") ;;
  properties <~
    lift match propsProp with
         | Some props =>
             if Json.truthy props
             then forEachM pushProperty (Json.ownEntries props) []
             else Returns []
         | None => Returns []
         end ;;
  pushNodeAt nodes
    {| Node.id := name;
       Node.type := "schemaNode";
       Node.data :=
         {| Node.label := title;
            Node.schemaName := name;
            Node.isRoot := isRoot;
            Node.isExpanded := isExpanded;
            Node.properties := properties;
            Node.schemaData := schema;
            Node.entityType := entityType |};
       Node.position := {| Node.x := Num 0; Node.y := Num 0 |} |} ;;;
  addName nodeIds name.

(** The callback of [relationships.forEach]. *)
Definition groupCallback (relationshipGroups : Heap.loc)
  (rel : SchemaRelationship) : M unit :=
  let key := groupKey rel in
  groups <~ groupsAt relationshipGroups ;;
  (if negb (JsMap.has groups key)
   then store relationshipGroups (Heap.Groups (JsMap.set groups key []))
   else ret tt) ;;;
  groups <~ groupsAt relationshipGroups ;;
  match JsMap.get groups key with
  | Some rels =>
      store relationshipGroups (Heap.Groups (JsMap.set groups key (rels ++ [rel])))
  | None => lift (Throws TypeError)
  end.

(** The callback of [relationshipGroups.forEach]. *)
Definition edgeCallback
  (nodeIds edges edgeIds matchedCount unmatchedCount : Heap.loc)
  (group : string * list SchemaRelationship) : M unit :=
  let rels := snd group in
  match rels with
  | [] => lift (Throws TypeError)
  | rel :: _ =>
      ids <~ namesAt nodeIds ;;
      let fromNode := resolveNode ids (from rel) in
      let toNode := resolveNode ids (to rel) in
      if JsSet.has ids fromNode && JsSet.has ids toNode then
        let edgeId := edgeId fromNode toNode in
        seen <~ namesAt edgeIds ;;
        if negb (JsSet.has seen edgeId) then
          pushEdgeAt edges (groupEdge fromNode toNode rel rels) ;;;
          addName edgeIds edgeId ;;;
          increment matchedCount
        else ret tt
      else increment unmatchedCount
  end.

(** [createSchemaGraph] over the heap: its three arguments are locations,
    and so are the [nodes] and [edges] of the object it returns. *)
Definition createSchemaGraph (schemas relationships expandedNodes : Heap.loc)
  : M (Heap.loc * Heap.loc) :=
  nodes <~ new (Heap.Nodes []) ;;
  edges <~ new (Heap.Edges []) ;;
  nodeIds <~ new (Heap.Names []) ;;
  documents <~ documentsAt schemas ;;
  forEachH (nodeCallback relationships expandedNodes nodes nodeIds)
    documents ;;;
  edgeIds <~ new (Heap.Names []) ;;
  matchedCount <~ new (Heap.Count 0) ;;
  unmatchedCount <~ new (Heap.Count 0) ;;
  relationshipGroups <~ new (Heap.Groups []) ;;
  rels <~ relationshipsAt relationships ;;
  forEachH (groupCallback relationshipGroups) rels ;;;
  groups <~ groupsAt relationshipGroups ;;
  forEachH (edgeCallback nodeIds edges edgeIds matchedCount unmatchedCount)
    groups ;;;
  ret (nodes, edges).

End Stateful.

(** The arrays a returned object holds, as they are in a heap. *)
Definition graphAt (h : Heap.t) (g : Heap.loc * Heap.loc)
  : option (list Node.t * list Edge.t) :=
  match Heap.read (fst g) h, Heap.read (snd g) h with
  | Some (Heap.Nodes nodes), Some (Heap.Edges es) => Some (nodes, es)
  | _, _ => None
  end.

(** ** [layoutGraph] *)

Module Elk.

Record Child : Type := mkChild {
  id : string;
  width : number;
  height : number
}.

Record EdgeRef : Type := mkEdgeRef {
  edgeId : string;
  sources : list string;
  targets : list string
}.

Record Graph : Type := mkGraph {
  graphId : string;
  layoutOptions : list (string * string);
  children : list Child;
  edges : list EdgeRef
}.

(** A node of the result: [x] and [y] are optional. *)
Record Placed : Type := mkPlaced {
  placedId : string;
  x : option number;
  y : option number
}.

(** The result of a layout: [children] is optional. *)
Record Layout : Type := mkLayout {
  placed : option (list Placed)
}.

End Elk.

Module JsNumber.

Definition ofNat (n : nat) : number := Num (inject_Z (Z.of_nat n)).

Definition negativeQ (q : Q) : bool := negb (Qle_bool 0 q).

(** An infinity times zero is [NaN]. *)
Definition mul (a b : number) : number :=
  match a, b with
  | Num p, Num q => Num (p * q)
  | Infinity s, Infinity s' => Infinity (xorb s s')
  | Infinity s, Num q | Num q, Infinity s =>
      if Qeq_bool q 0 then NaN else Infinity (xorb s (negativeQ q))
  | _, _ => NaN
  end.

(** The sum of the two infinities is [NaN]. *)
Definition add (a b : number) : number :=
  match a, b with
  | Num p, Num q => Num (p + q)
  | Infinity s, Infinity s' => if Bool.eqb s s' then Infinity s else NaN
  | Infinity s, Num _ | Num _, Infinity s => Infinity s
  | _, _ => NaN
  end.

(** [Math.min] and [Math.max]: [NaN] when an argument is. *)
Definition min (a b : number) : number :=
  match a, b with
  | NaN, _ | _, NaN => NaN
  | Num p, Num q => if Qle_bool p q then Num p else Num q
  | Infinity true, _ | _, Infinity true => Infinity true
  | Infinity false, n | n, Infinity false => n
  end.

Definition max (a b : number) : number :=
  match a, b with
  | NaN, _ | _, NaN => NaN
  | Num p, Num q => if Qle_bool p q then Num q else Num p
  | Infinity false, _ | _, Infinity false => Infinity false
  | Infinity true, n | n, Infinity true => n
  end.

(** [n || 0] for a possibly undefined number: [0] and [NaN] are falsy, an
    infinity is not. *)
Definition orZero (n : option number) : number :=
  match n with
  | Some (Num q) => if Qeq_bool q 0 then Num 0 else Num q
  | Some (Infinity s) => Infinity s
  | _ => Num 0
  end.

End JsNumber.

Section Layout.

(** ToNumber on a JSON value: it may throw on an object. The layout code
    applies it to the own [length] entry of a label that is an object. *)
Variable toNumber : json -> completion number.

(** The awaited [elkInstance.layout(elkGraph)]: the promise resolves with a
    layout or rejects with an error. *)
Variable elkLayout : Elk.Graph -> completion Elk.Layout.

(** [label.length] of [node.data.label || '']. *)
Definition labelLength (label : json) : completion number :=
  if Json.truthy label then
    match label with
    | JStr s => Returns (JsNumber.ofNat (String.length s))
    | JArr l => Returns (JsNumber.ofNat (List.length l))
    | JObj l =>
        match Json.assoc "length" l with
        | Some v => toNumber v
        | None => Returns NaN
        end
    | _ => Returns NaN
    end
  else Returns (JsNumber.ofNat 0).

Definition elkChild (node : Node.t) : completion Elk.Child :=
  let baseHeight := JsNumber.ofNat 80 in
  let minWidth := JsNumber.ofNat 200 in
  len <- labelLength (Node.label (Node.data node)) ;;
  let labelWidth :=
    JsNumber.add (JsNumber.mul len (JsNumber.ofNat 8)) (JsNumber.ofNat 60) in
  let calculatedWidth :=
    JsNumber.max minWidth (JsNumber.min labelWidth (JsNumber.ofNat 500)) in
  Returns {| Elk.id := Node.id node;
             Elk.width := calculatedWidth;
             Elk.height := baseHeight |}.

Definition elkGraph (nodes : list Node.t) (edges : list Edge.t)
  : completion Elk.Graph :=
  children <-
    forEachM (fun acc node => c <- elkChild node ;; Returns (acc ++ [c]))
      nodes [] ;;
  Returns
    {| Elk.graphId := "root";
       Elk.layoutOptions :=
         [ ("elk.algorithm", "layered");
           ("elk.direction", "DOWN");
           ("elk.spacing.nodeNode", "80");
           ("elk.layered.spacing.nodeNodeBetweenLayers", "150");
           ("elk.layered.nodePlacement.strategy", "NETWORK_SIMPLEX");
           ("elk.layered.crossingMinimization.semiInteractive", "true");
           ("elk.layered.considerModelOrder.strategy", "NODES_AND_EDGES");
           ("elk.spacing.componentComponent", "100") ];
       Elk.children := children;
       Elk.edges :=
         map (fun edge => {| Elk.edgeId := Edge.id edge;
                             Elk.sources := [Edge.source edge];
                             Elk.targets := [Edge.target edge] |}) edges |}.

(** The node with the position the layout gives it. *)
Definition place (layout : Elk.Layout) (node : Node.t) : Node.t :=
  let layoutNode :=
    match Elk.placed layout with
    | Some ns => find (fun n => Elk.placedId n =? Node.id node) ns
    | None => None
    end in
  {| Node.id := Node.id node;
     Node.type := Node.type node;
     Node.data := Node.data node;
     Node.position :=
       {| Node.x := JsNumber.orZero
                      (match layoutNode with Some n => Elk.x n | None => None end);
          Node.y := JsNumber.orZero
                      (match layoutNode with Some n => Elk.y n | None => None end)
       |} |}.

(** What a call of [layoutGraph] leaves behind: the errors written to the
    console and how the returned promise settles. *)
Record LayoutOutcome : Type := mkOutcome {
  console : list JsError;
  settled : completion (list Node.t * list Edge.t)
}.

Definition layoutGraph (nodes : list Node.t) (edges : list Edge.t)
  : LayoutOutcome :=
  match elkGraph nodes edges with
  | Throws e => {| console := []; settled := Throws e |}
  | Returns graph =>
      match elkLayout graph with
      | Returns layout =>
          {| console := [];
             settled := Returns (map (place layout) nodes, edges) |}
      | Throws error =>
          {| console := [error]; settled := Returns (nodes, edges) |}
      end
  end.

End Layout.

(** * Notions of the statements *)

Import JsString Json.

(** The [obj.type === 'array' && obj.items] branch of [traverse]. *)
Definition traverseItems (schemaName : string) (obj : json)
  (path propertyName : string) : list SchemaRelationship :=
  match getProp obj "items" with
  | Some it =>
      if truthy it then traverse schemaName it path propertyName true else []
  | None => []
  end.

(** The callback of [Object.entries(obj).forEach]. *)
Definition traverseEntry (schemaName path : string) (e : string * json)
  : list SchemaRelationship :=
  if isObject (snd e) && negb (fst e =? "items")
  then traverse schemaName (snd e) path (fst e) false
  else [].

(** The nodes [traverse] is called on, with the property name and the
    array flag of the call, starting from the document [root]. *)
Inductive Visits (root : json) : json -> string -> bool -> Prop :=
| visits_root :
    isObject root = true -> Visits root root EmptyString false
| visits_items node pn pia it :
    Visits root node pn pia ->
    isArrayTyped node = true ->
    getProp node "items" = Some it ->
    isObject it = true ->
    Visits root it pn true
| visits_entry node pn pia key value :
    Visits root node pn pia ->
    In (key, value) (ownEntries node) ->
    isObject value = true ->
    key <> "items" ->
    Visits root value key false.

(** A position inside a document: the path from the root to a node. *)
Inductive Position : Type :=
| Here
| InObject (before : list (string * json)) (key : string) (inner : Position)
    (after : list (string * json))
| InArray (before : list json) (inner : Position) (after : list json).

(** The document that has [node] at the position. *)
Fixpoint plug (c : Position) (node : json) : json :=
  match c with
  | Here => node
  | InObject before key inner after =>
      JObj (before ++ (key, plug inner node) :: after)
  | InArray before inner after =>
      JArr (before ++ plug inner node :: after)
  end.

(** Two values a parent cannot tell apart by [typeof], truthiness or
    string comparison. *)
Definition alike (a b : option json) : Prop :=
  a = b \/
  exists va vb, a = Some va /\ b = Some vb /\
                isObject va = true /\ isObject vb = true.

(** The edge a group asks for: the one of its first relationship, when
    both ends resolve to nodes. *)
Definition candidate (nodeIds : JsSet.t)
  (group : string * list SchemaRelationship) : option Edge.t :=
  match snd group with
  | [] => None
  | rel :: _ =>
      let fromNode := resolveNode nodeIds (from rel) in
      let toNode := resolveNode nodeIds (to rel) in
      if JsSet.has nodeIds fromNode && JsSet.has nodeIds toNode
      then Some (groupEdge fromNode toNode rel (snd group))
      else None
  end.

(** The identifiers recorded are those of the edges pushed, without
    repetition. *)
Definition consistent (st : EdgeState) : Prop :=
  edgeIds st = map Edge.id (edges st) /\ NoDup (edgeIds st).

(** The identifiers of the nodes of a document collection. *)
Definition nodeIdsOf (schemas : JsMap.t json) : JsSet.t :=
  fold_left JsSet.add (map fst schemas) [].

(** The relationship aggregator: the extractions of all documents, in the
    order of the collection. *)
Definition extractAll (schemas : JsMap.t json) : list SchemaRelationship :=
  flat_map (fun entry => extractSchemaReferences (snd entry) (fst entry))
    schemas.

(** An object in the sense of JSON: a collection of members, which an
    array is not. *)
Definition isJsonObject (v : json) : bool :=
  match v with
  | JObj _ => true
  | _ => false
  end.

Definition rootFlags (nodes : list Node.t) : list (string * bool) :=
  map (fun n => (Node.id n, Node.isRoot (Node.data n))) nodes.

Definition edgeClasses (es : list Edge.t)
  : list (string * string * Cardinality) :=
  map (fun e => (Edge.source e, Edge.target e, Edge.type (Edge.data e))) es.

(** [rel] goes from [f] to [t]. *)
Definition samePair (f t : string) (rel : SchemaRelationship) : bool :=
  (from rel =? f) && (to rel =? t).

Definition joins (f t : string) (e : Edge.t) : bool :=
  (Edge.source e =? f) && (Edge.target e =? t).

(** * Example documents *)

Definition scenario_a : json := JObj [].

Definition scenario_b : json :=
  JObj [("type", JStr "object");
        ("properties",
         JObj [("parent", JObj [("$ref", JStr "a.json")])])].

Definition scenario_c : json :=
  JObj [("type", JStr "object");
        ("properties",
         JObj [("children",
                JObj [("type", JStr "array");
                      ("items", JObj [("$ref", JStr "a.json")])])])].

Definition scenario : JsMap.t json :=
  [("a.json", scenario_a); ("b.json", scenario_b); ("c.json", scenario_c)].

Definition lone_schemas : JsMap.t json := [("a.json", JObj [])].

Definition lone_node : Node.t :=
  {| Node.id := "a.json";
     Node.type := "schemaNode";
     Node.data :=
       {| Node.label := JStr "a.json";
          Node.schemaName := "a.json";
          Node.isRoot := true;
          Node.isExpanded := false;
          Node.properties := [];
          Node.schemaData := JObj [];
          Node.entityType := "a.json" |};
     Node.position := {| Node.x := Num 0; Node.y := Num 0 |} |}.

Definition user_path : string := "v1/user/user.schema.json".

Definition bare_ref_document : json :=
  JObj [("$ref", JStr "role.schema.json")].

Definition line_items : json :=
  JObj [("type", JStr "array");
        ("items", JObj [("$ref", JStr "item.schema.json")])].

Definition order_position : Position :=
  InObject [("type", JStr "object")] "properties"
    (InObject [] "items" Here []) [].

(** An order with a property named [items], an array of references. *)
Definition order_document : json := plug order_position line_items.

Definition tagged_list : json :=
  JObj [("type", JStr "array");
        ("items", JObj [("$ref", JStr "a.json")]);
        ("owner", JObj [("$ref", JStr "a.json")])].

Definition failing_layout (g : Elk.Graph) : completion Elk.Layout :=
  Throws (Error "layout failed").

Definition lone_graph : Elk.Graph :=
  Eval vm_compute in
    match elkGraph (fun _ => Returns NaN) [lone_node] [] with
    | Returns g => g
    | Throws _ => Elk.mkGraph EmptyString [] [] []
    end.

Definition order_schema : json :=
  JObj [("properties",
         JObj [("first", JObj [("$ref", JStr "line-item.json")]);
               ("second", JObj [("$ref", JStr "line-item.json")])])].

(** Two documents; [order] references [line-item.json] twice. *)
Definition order_schemas : JsMap.t json :=
  [("order", order_schema); ("line-item.json", JObj [])].

(** The same with a third document, [order-line], whose one reference
    [item.json] has the key ["order-line-item.json"] as well. *)
Definition colliding_schemas : JsMap.t json :=
  [("order", order_schema);
   ("order-line",
    JObj [("properties", JObj [("item", JObj [("$ref", JStr "item.json")])])]);
   ("line-item.json", JObj [])].

(** The scenario's documents, their relationships and an expanded set, as
    three objects. *)
Definition scenario_heap : Heap.t :=
  [Heap.Documents scenario;
   Heap.Relationships (extractAll scenario);
   Heap.Names ["b.json"]].

(** A document in a directory and one beside the directory that names it
    by its file name alone. *)
Definition suffix_schemas : JsMap.t json :=
  [("v1/a.json", JObj []);
   ("b.json",
    JObj [("properties", JObj [("a", JObj [("$ref", JStr "a.json")])])])].

(** A document that is an array. *)
Definition array_document : json := JArr [JObj [("$ref", JStr "a.json")]].

(** ** [schemaToGraph] *)

Module TreeNode.

Record Style : Type := mkStyle {
  border : string;
  padding : string;
  borderRadius : string;
  background : string;
  color : string;
  width : number
}.

(** [label] is [data.label]. *)
Record t : Type := mk {
  id : string;
  label : string;
  position : Node.Position;
  style : Style
}.

End TreeNode.

Module TreeEdge.

Record t : Type := mk {
  id : string;
  source : string;
  target : string;
  animated : bool
}.

End TreeEdge.

(** The mutable locals of [schemaToGraph]. *)
Record TreeState : Type := mkTreeState {
  idCounter : nat;
  treeNodes : list TreeNode.t;
  treeEdges : list TreeEdge.t
}.

(** [`node-${i}`]. *)
Definition nodeName (i : nat) : string := ("node-" ++ JsString.ofIndex i)%string.

Definition treeStyle : TreeNode.Style :=
  {| TreeNode.border := "1px solid #777";
     TreeNode.padding := "10px";
     TreeNode.borderRadius := "5px";
     TreeNode.background := "#333";
     TreeNode.color := "#fff";
     TreeNode.width := Num 150 |}.

(** The head of [traverse]: a fresh identifier, the node of [obj], and the
    edge from its parent when there is one. *)
Definition visit (obj : json) (parentId : option string) (label : string)
  (st : TreeState) : completion (string * TreeState) :=
  let id := nodeName (idCounter st) in
  typeProp <- getPropM obj "type" ;;
  type <- toString (orElse typeProp (JStr "object")) ;;
  let node :=
    {| TreeNode.id := id;
       TreeNode.label := (label ++ " (" ++ type ++ ")")%string;
       TreeNode.position := {| Node.x := Num 0; Node.y := Num 0 |};
       TreeNode.style := treeStyle |} in
  let edges :=
    match parentId with
    | Some parent =>
        if JsString.nonEmpty parent then
          treeEdges st ++
            [ {| TreeEdge.id := ("edge-" ++ parent ++ "-" ++ id)%string;
                 TreeEdge.source := parent;
                 TreeEdge.target := id;
                 TreeEdge.animated := true |} ]
        else treeEdges st
    | None => treeEdges st
    end in
  Returns (id, {| idCounter := S (idCounter st);
                  treeNodes := treeNodes st ++ [node];
                  treeEdges := edges |}).

(** [traverse] on a value that is not an object: the node and nothing
    below. *)
Definition visitLeaf (label : string) (obj : json) (parentId : option string)
  (st : TreeState) : completion TreeState :=
  r <- visit obj parentId label st ;; Returns (snd r).

(** The first entry with the key, handed to [k]. *)
Definition withEntry {R : Type} (key : string) (k : json -> R) (d : R)
  : list (string * json) -> R :=
  fix go (l : list (string * json)) : R :=
    match l with
    | [] => d
    | (key', v) :: l' => if key' =? key then k v else go l'
    end.

Definition forEntries {St : Type} (f : string -> json -> St -> completion St)
  : list (string * json) -> St -> completion St :=
  fix go (l : list (string * json)) (s : St) : completion St :=
    match l with
    | [] => Returns s
    | (key, v) :: l' => s' <- f key v s ;; go l' s'
    end.

Definition forElements {St : Type} (f : string -> json -> St -> completion St)
  : nat -> list json -> St -> completion St :=
  fix go (i : nat) (l : list json) (s : St) : completion St :=
    match l with
    | [] => Returns s
    | v :: l' => s' <- f (JsString.ofIndex i) v s ;; go (S i) l' s'
    end.

(** [Object.keys(v).forEach(key => f(key, v[key]))]; the entries of a
    string are characters, on which [leaf] stands for [f]. *)
Definition forChildren {St : Type}
  (f leaf : string -> json -> St -> completion St) (v : json) (s : St)
  : completion St :=
  match v with
  | JObj l => forEntries f l s
  | JArr l => forElements f 0 l s
  | JStr str => forEntries leaf (Json.chars 0 str) s
  | _ => Returns s
  end.

Definition truthyOpt (v : option json) : bool :=
  match v with
  | Some v => truthy v
  | None => false
  end.

(** [traverse] of [schemaToGraph]. *)
Fixpoint traverseTree (obj : json) (parentId : option string) (label : string)
  (st : TreeState) {struct obj} : completion TreeState :=
  r <- visit obj parentId label st ;;
  let (id, st1) := r in
  match obj with
  | JObj l =>
      if truthyOpt (assoc "properties" l) then
        withEntry "properties"
          (fun props =>
             forChildren
               (fun key child s => traverseTree child (Some id) key s)
               (fun key child s => visitLeaf key child (Some id) s)
               props st1)
          (Returns st1) l
      else if truthyOpt (assoc "items" l) then
        withEntry "items"
          (fun items => traverseTree items (Some id) "items" st1)
          (Returns st1) l
      else if truthyOpt (assoc "definitions" l) then
        withEntry "definitions"
          (fun defs =>
             forChildren
               (fun key child s =>
                  traverseTree child (Some id) ("def: " ++ key)%string s)
               (fun key child s =>
                  visitLeaf ("def: " ++ key)%string child (Some id) s)
               defs st1)
          (Returns st1) l
      else if truthyOpt (assoc "$defs" l) then
        withEntry "$defs"
          (fun defs =>
             forChildren
               (fun key child s =>
                  traverseTree child (Some id) ("def: " ++ key)%string s)
               (fun key child s =>
                  visitLeaf ("def: " ++ key)%string child (Some id) s)
               defs st1)
          (Returns st1) l
      else Returns st1
  | _ => Returns st1
  end.

Definition schemaToGraph (schema : json)
  : completion (list TreeNode.t * list TreeEdge.t) :=
  st <- traverseTree schema None "Root"
          {| idCounter := 0; treeNodes := []; treeEdges := [] |} ;;
  Returns (treeNodes st, treeEdges st).

(** * Notions of the further statements *)

(** A segment a resolved path is made of. *)
Definition segment (seg : string) : Prop :=
  nonEmpty seg = true /\ includes seg "/" = false.

(** [n] arrays around [inner]: an array of arrays of ... of [inner]. *)
Fixpoint nestedArray (n : nat) (inner : json) : json :=
  match n with
  | O => inner
  | S n' => JObj [("type", JStr "array"); ("items", nestedArray n' inner)]
  end.

(** An object whose entries, under the given keys, are all [value]. *)
Definition allEntries (keys : list string) (value : json) : json :=
  JObj (map (fun key => (key, value)) keys).

(** The [properties] array of the node of a document. *)
Definition listProperties (schema : json) : completion (list string) :=
  match getProp schema "properties" with
  | Some props =>
      if truthy props
      then forEachM pushProperty (ownEntries props) []
      else Returns []
  | None => Returns []
  end.

(** The node [createSchemaGraph] pushes for the document [schema] at the
    path [name], given its [properties] array. *)
Definition schemaNode (relationships : list SchemaRelationship)
  (expandedNodes : JsSet.t) (name : string) (schema : json)
  (properties : list string) : Node.t :=
  {| Node.id := name;
     Node.type := "schemaNode";
     Node.data :=
       {| Node.label :=
            orElse (getProp schema "title")
              (orElse (getProp schema "$id") (JStr name));
          Node.schemaName := name;
          Node.isRoot := negb (existsb (fun r => to r =? name) relationships);
          Node.isExpanded := JsSet.has expandedNodes name;
          Node.properties := properties;
          Node.schemaData := schema;
          Node.entityType := extractEntityType name |};
     Node.position := {| Node.x := Num 0; Node.y := Num 0 |} |}.

(** A property schema whose [type] is absent or a string. *)
Definition simpleProperty (prop : json) : Prop :=
  prop <> JNull /\
  (getProp prop "type" = None \/ exists t, getProp prop "type" = Some (JStr t)).

(** The line of the [properties] array for a simple property. *)
Definition renderProperty (entry : string * json) : string :=
  (fst entry ++ ": " ++
   match getProp (snd entry) "type" with
   | Some (JStr t) => if nonEmpty t then t else "any"
   | _ => "any"
   end)%string.

(** A document [createSchemaGraph] can make a node of. *)
Definition plainDocument (schema : json) : Prop :=
  schema <> JNull /\
  forall props,
    getProp schema "properties" = Some props ->
    truthy props = true ->
    Forall simpleProperty (map snd (ownEntries props)).

(** A document that is [null], or one of whose properties is. *)
Definition poisonedDocument (schema : json) : Prop :=
  schema = JNull \/
  exists props key,
    getProp schema "properties" = Some props /\
    truthy props = true /\
    In (key, JNull) (ownEntries props).

(** The number of relationships the groups hold. *)
Definition groupedCount (groups : JsMap.t (list SchemaRelationship)) : nat :=
  list_sum (map (fun g => length (snd g)) groups).

Definition totalCount (es : list Edge.t) : nat :=
  list_sum (map (fun e => Edge.count (Edge.data e)) es).


(** The node a layout has for an identifier, if any. *)
Definition layoutNode (layout : Elk.Layout) (id : string)
  : option Elk.Placed :=
  match Elk.placed layout with
  | Some ns => find (fun n => Elk.placedId n =? id) ns
  | None => None
  end.


(** There is a parent to draw an edge from. *)
Definition parentGiven (p : option string) : bool :=
  match p with
  | Some parent => nonEmpty parent
  | None => false
  end.

(** An edge pushed while the counter was at [c] or beyond, below the
    parent [p]: it leads to a node made then, from [p] or from a node made
    then and before its target. *)
Definition edgeWithin (p : option string) (c : nat) (e : TreeEdge.t) : Prop :=
  TreeEdge.id e
  = ("edge-" ++ TreeEdge.source e ++ "-" ++ TreeEdge.target e)%string /\
  exists b,
    (c <= b)%nat /\
    TreeEdge.target e = nodeName b /\
    (p = Some (TreeEdge.source e) \/
     exists a, (c <= a)%nat /\ (a < b)%nat /\ TreeEdge.source e = nodeName a).

(** What calls of [traverse] below the parent [p] add to the state: [k]
    nodes, at least [least], with the next identifiers, and one edge to
    each of them (to each but the first when there is no parent). *)
Definition grows (least : nat) (p : option string) (st st' : TreeState)
  : Prop :=
  exists k newE,
    (least <= k)%nat /\
    idCounter st' = (idCounter st + k)%nat /\
    map TreeNode.id (treeNodes st')
    = map TreeNode.id (treeNodes st) ++ map nodeName (seq (idCounter st) k) /\
    treeEdges st' = treeEdges st ++ newE /\
    map TreeEdge.target newE
    = map nodeName
        (seq (idCounter st + (if parentGiven p then 0 else 1))
           (k - (if parentGiven p then 0 else 1))) /\
    Forall (edgeWithin p (idCounter st)) newE.

(** The children [traverse] goes into, with the labels it gives them. *)
Definition treeChildren (obj : json) : list (string * json) :=
  if truthyOpt (getProp obj "properties") then
    match getProp obj "properties" with
    | Some props => ownEntries props
    | None => []
    end
  else if truthyOpt (getProp obj "items") then
    match getProp obj "items" with
    | Some items => [("items", items)]
    | None => []
    end
  else
    match (if truthyOpt (getProp obj "definitions")
           then getProp obj "definitions" else getProp obj "$defs") with
    | Some defs =>
        if truthy defs
        then map (fun e => (("def: " ++ fst e)%string, snd e)) (ownEntries defs)
        else []
    | None => []
    end.

(** The entries of a node [traverse] never looks at, because a kind of
    children that comes first is present. *)
Definition overruled (l : list (string * json)) : list string :=
  if truthyOpt (assoc "properties" l) then ["items"; "definitions"; "$defs"]
  else if truthyOpt (assoc "items" l) then ["definitions"; "$defs"]
  else if truthyOpt (assoc "definitions" l) then ["$defs"]
  else [].

(** The node without them. *)
Definition withoutOverruled (l : list (string * json))
  : list (string * json) :=
  filter (fun e => negb (existsb (String.eqb (fst e)) (overruled l))) l.

(** A document without [null] and without an own [toString] entry,
    however deep. *)
Fixpoint clean (v : json) : bool :=
  match v with
  | JNull => false
  | JObj l =>
      match assoc "toString" l with Some _ => false | None => true end
      && forallb (fun e => clean (snd e)) l
  | JArr l => forallb clean l
  | _ => true
  end.

(** * More example documents *)

Definition person_schema : json :=
  JObj [("title", JStr "Person");
        ("properties",
         JObj [("name", JObj [("type", JStr "string")]);
               ("friend", JObj [("$ref", JStr "person.json")])])].

Definition centered_layout (g : Elk.Graph) : completion Elk.Layout :=
  Returns {| Elk.placed :=
               Some [ {| Elk.placedId := "a.json";
                         Elk.x := Some (Num 12); Elk.y := None |} ] |}.

Definition empty_layout (g : Elk.Graph) : completion Elk.Layout :=
  Returns {| Elk.placed := None |}.



(** * Properties *)

(** ** Strings *)

Module JsStringFacts.
Import JsString.

Lemma endsWith_refl s : endsWith s s = true.
Proof. destruct s; cbn [endsWith]; rewrite String.eqb_refl; reflexivity. Qed.

Lemma endsWith_cons a s suf :
  endsWith s suf = true -> endsWith (String a s) suf = true.
Proof. intros H. cbn [endsWith]. rewrite H. apply orb_true_r. Qed.

Lemma endsWith_app s1 s2 suf :
  endsWith s2 suf = true -> endsWith (s1 ++ s2) suf = true.
Proof.
  intros H. induction s1 as [|a s1 IH]; [exact H|].
  cbn [String.append]. now apply endsWith_cons.
Qed.

(** [endsWith] is the existence of a decomposition. *)
Lemma endsWith_split s suf :
  endsWith s suf = true <-> exists p, s = (p ++ suf)%string.
Proof.
  split.
  - induction s as [|a s IH]; cbn [endsWith]; intros H.
    + apply orb_true_iff in H as [H|H]; [|discriminate].
      apply String.eqb_eq in H. exists EmptyString. exact H.
    + apply orb_true_iff in H as [H|H].
      * apply String.eqb_eq in H. exists EmptyString. exact H.
      * destruct (IH H) as [p Hp]. exists (String a p).
        cbn [String.append]. now rewrite Hp.
  - intros [p ->]. apply endsWith_app, endsWith_refl.
Qed.

Lemma endsWith_nonEmpty s suf :
  endsWith s suf = true -> nonEmpty suf = true -> nonEmpty s = true.
Proof.
  intros H Hs. destruct s; [|reflexivity].
  cbn [endsWith] in H. rewrite orb_false_r in H. apply String.eqb_eq in H.
  subst suf. discriminate.
Qed.

(** The last segment of a split carries every separator-free suffix. *)
Lemma split_last s sep suf :
  endsWith s suf = true -> includes suf sep = false ->
  exists segs seg,
    split s sep = segs ++ [seg] /\ endsWith seg suf = true.
Proof.
  induction s as [|a s IH]; intros H Hsuf.
  - exists [], EmptyString. split; [reflexivity|exact H].
  - cbn [endsWith] in H. apply orb_true_iff in H as [H|H].
    + apply String.eqb_eq in H. subst suf.
      (* the whole string has no separator: one segment *)
      assert (Hone : forall t, includes t sep = false -> split t sep = [t]).
      { clear. induction t as [|b t IHt]; simpl; intros Ht; [reflexivity|].
        apply orb_false_iff in Ht as [Hb Ht]. rewrite Hb, (IHt Ht).
        reflexivity. }
      exists [], (String a s). split; [apply (Hone _ Hsuf)|].
      apply endsWith_refl.
    + destruct (IH H Hsuf) as (segs & seg & Hs & He).
      simpl. destruct (Ascii.eqb a sep).
      * exists (EmptyString :: segs), seg. rewrite Hs. split; [reflexivity|exact He].
      * rewrite Hs. destruct segs as [|s0 segs]; simpl.
        -- exists [], (String a seg). split; [reflexivity|].
           now apply endsWith_cons.
        -- exists (String a s0 :: segs), seg. split; [reflexivity|exact He].
Qed.

Lemma join_last parts seg sep suf :
  endsWith seg suf = true -> endsWith (join (parts ++ [seg]) sep) suf = true.
Proof.
  intros H. unfold join. induction parts as [|p parts IH]; simpl; [exact H|].
  destruct (parts ++ [seg]) eqn:E.
  - destruct parts; discriminate.
  - rewrite <- E in *. apply endsWith_app, endsWith_app, IH.
Qed.

Lemma matchBeforeHash_hash s :
  startsWith s "#" = true -> matchBeforeHash s = None.
Proof.
  unfold matchBeforeHash. destruct s as [|a s]; [reflexivity|].
  cbn [startsWith untilHash]. intros H.
  apply andb_true_iff in H as [-> _]. reflexivity.
Qed.

Lemma matchBeforeHash_some s m :
  matchBeforeHash s = Some m -> startsWith s "#" = false.
Proof.
  intros H. destruct (startsWith s "#") eqn:E; [|reflexivity].
  rewrite (matchBeforeHash_hash _ E) in H. discriminate.
Qed.

Lemma ofIndex_not_items i : (ofIndex i =? "items") = false.
Proof.
  unfold ofIndex. apply String.eqb_neq.
  destruct (Nat.to_uint i); simpl; discriminate.
Qed.

End JsStringFacts.

(** ** Reference extraction *)

Module ExtractFacts.
Import JsString JsStringFacts Json.

(** [traverse], one call unfolded. *)
Lemma traverse_eq schemaName obj path propertyName parentIsArray :
  traverse schemaName obj path propertyName parentIsArray =
  if isObject obj then
    collectRef schemaName obj propertyName parentIsArray
    ++ (if isArrayTyped obj
        then traverseItems schemaName obj path propertyName else [])
    ++ flat_map (traverseEntry schemaName path) (ownEntries obj)
  else [].
Proof.
  destruct obj as [| | | |l|l]; try reflexivity.
  - (* an array: no [$ref], no [type], index keys *)
    cbn [traverse isObject ownEntries]. unfold collectRef, isArrayTyped.
    cbn [getProp app].
    generalize 0%nat. induction l as [|v l IH]; intros i; [reflexivity|].
    cbn [indexed flat_map]. rewrite <- IH.
    unfold traverseEntry. cbn [fst snd].
    rewrite ofIndex_not_items, andb_true_r. reflexivity.
  - cbn [traverse isObject ownEntries]. f_equal. f_equal.
    + destruct (isArrayTyped (JObj l)); [|reflexivity].
      unfold traverseItems. cbn [getProp].
      induction l as [|[k v] l IH]; [reflexivity|].
      cbn [assoc]. destruct (k =? "items"); [reflexivity|exact IH].
    + induction l as [|[k v] l IH]; [reflexivity|].
      cbn [flat_map]. rewrite <- IH. reflexivity.
Qed.

(** What [collectRef] pushes, when it pushes. *)
Lemma collectRef_inv schemaName obj propertyName parentIsArray r :
  In r (collectRef schemaName obj propertyName parentIsArray) ->
  exists ref m,
    getProp obj "$ref" = Some (JStr ref) /\
    matchBeforeHash ref = Some m /\
    endsWith m ".json" = true /\
    r = {| from := schemaName;
           to := resolveTarget schemaName m;
           refPath := ref;
           type := if parentIsArray then OneToMany else OneToOne;
           propertyName := Some propertyName |}.
Proof.
  unfold collectRef.
  destruct (getProp obj "$ref") as [[| | |ref| |]|]; try contradiction.
  destruct (nonEmpty ref); [|contradiction].
  destruct (matchBeforeHash ref) as [m|] eqn:Hm; [|contradiction].
  destruct (endsWith m ".json") eqn:He; [|contradiction].
  intros [<-|[]]. exists ref, m. repeat split; assumption.
Qed.

Lemma collectRef_intro schemaName obj propertyName parentIsArray ref m :
  getProp obj "$ref" = Some (JStr ref) ->
  matchBeforeHash ref = Some m ->
  endsWith m ".json" = true ->
  collectRef schemaName obj propertyName parentIsArray =
  [ {| from := schemaName;
       to := resolveTarget schemaName m;
       refPath := ref;
       type := if parentIsArray then OneToMany else OneToOne;
       propertyName := Some propertyName |} ].
Proof.
  intros Hr Hm He. unfold collectRef. rewrite Hr.
  assert (Hne : nonEmpty ref = true).
  { destruct ref; [discriminate Hm|reflexivity]. }
  rewrite Hne, Hm, He. reflexivity.
Qed.

Lemma visits_isObject root node pn pia :
  Visits root node pn pia -> isObject node = true.
Proof. destruct 1; assumption. Qed.

Lemma isObject_truthy v : isObject v = true -> truthy v = true.
Proof. destruct v; try discriminate; reflexivity. Qed.

Lemma traverse_non_object schemaName v path pn pia :
  isObject v = false -> traverse schemaName v path pn pia = [].
Proof. intros H. now rewrite traverse_eq, H. Qed.

Lemma In_indexed k v l i : In (k, v) (indexed i l) -> In v l.
Proof.
  revert i. induction l as [|w l IH]; intros i H; cbn [indexed] in H;
    [contradiction|].
  destruct H as [H|H]; [injection H as _ ->; now left|right; eauto].
Qed.

Lemma assoc_In k v l : assoc k l = Some v -> In (k, v) l.
Proof.
  induction l as [|[k0 v0] l IH]; cbn [assoc]; [discriminate|].
  destruct (k0 =? k) eqn:E.
  - apply String.eqb_eq in E. intros [= ->]. subst. now left.
  - intros H. right. exact (IH H).
Qed.

(** Every relationship [traverse] returns from a visited node was pushed by
    [collectRef] at a visited node. *)
Lemma traverse_sound schemaName root obj :
  forall path pn pia r,
    Visits root obj pn pia ->
    In r (traverse schemaName obj path pn pia) ->
    exists node pn' pia',
      Visits root node pn' pia' /\
      In r (collectRef schemaName node pn' pia').
Proof.
  induction obj as [|b0|n0|s0|l IH|l IH] using json_ind;
    intros path pn pia r Hv Hin; rewrite traverse_eq in Hin;
    cbn [isObject] in Hin; try contradiction;
    rewrite Forall_forall in IH;
    (apply in_app_or in Hin as [Hin|Hin]; [eauto|]);
    apply in_app_or in Hin as [Hin|Hin].
  - (* an array has no [items] branch *)
    contradiction.
  - apply in_flat_map in Hin as ([k v] & He & Hin).
    unfold traverseEntry in Hin. cbn [fst snd] in Hin.
    destruct (isObject v) eqn:Ev; [|contradiction].
    destruct (String.eqb_spec k "items") as [|Hk]; [contradiction|].
    apply (IH v (In_indexed _ _ _ _ He) path k false r); [|exact Hin].
    eapply visits_entry; eauto.
  - destruct (isArrayTyped (JObj l)) eqn:Harr; [|contradiction].
    unfold traverseItems in Hin.
    destruct (getProp (JObj l) "items") as [it|] eqn:Hit; [|contradiction].
    destruct (truthy it); [|contradiction].
    destruct (isObject it) eqn:Eit;
      [|now rewrite traverse_non_object in Hin].
    apply (IH ("items", it) (assoc_In _ _ _ Hit) path pn true r); [|exact Hin].
    eapply visits_items; eauto.
  - apply in_flat_map in Hin as ([k v] & He & Hin).
    unfold traverseEntry in Hin. cbn [fst snd] in Hin.
    destruct (isObject v) eqn:Ev; [|contradiction].
    destruct (String.eqb_spec k "items") as [|Hk]; [contradiction|].
    apply (IH (k, v) He path k false r); [|exact Hin].
    eapply visits_entry; eauto.
Qed.

(** The shape of every extracted relationship. *)
Lemma extract_sound schema schemaName r :
  In r (extractSchemaReferences schema schemaName) ->
  exists m,
    from r = schemaName /\
    matchBeforeHash (refPath r) = Some m /\
    endsWith m ".json" = true /\
    to r = resolveTarget schemaName m.
Proof.
  intros Hin. unfold extractSchemaReferences in Hin.
  destruct (isObject schema) eqn:E;
    [|now rewrite traverse_non_object in Hin].
  apply (traverse_sound _ schema) in Hin as (node & pn & pia & _ & Hin);
    [|now apply visits_root].
  apply collectRef_inv in Hin as (ref & m & _ & Hm & He & ->).
  exists m. repeat split; assumption.
Qed.

(** What a visited node pushes reaches the result. *)
Lemma visits_incl schemaName root node pn pia :
  Visits root node pn pia ->
  forall path,
    incl (traverse schemaName node path pn pia)
         (traverse schemaName root path EmptyString false).
Proof.
  induction 1 as [Hroot|node pn pia it Hv IH Harr Hit Hobj
                 |node pn pia key value Hv IH Hin Hobj Hkey];
    intros path.
  - apply incl_refl.
  - eapply incl_tran; [|apply IH].
    rewrite (traverse_eq _ node), (visits_isObject _ _ _ _ Hv), Harr.
    apply incl_appr, incl_appl. unfold traverseItems.
    rewrite Hit, (isObject_truthy _ Hobj). apply incl_refl.
  - eapply incl_tran; [|apply IH].
    rewrite (traverse_eq _ node), (visits_isObject _ _ _ _ Hv).
    apply incl_appr, incl_appr. intros r Hr.
    apply in_flat_map. exists (key, value). split; [exact Hin|].
    unfold traverseEntry. cbn [fst snd]. rewrite Hobj.
    apply String.eqb_neq in Hkey. rewrite Hkey. exact Hr.
Qed.

Lemma visits_collect schemaName root node pn pia :
  Visits root node pn pia ->
  incl (collectRef schemaName node pn pia)
       (extractSchemaReferences root schemaName).
Proof.
  intros Hv. unfold extractSchemaReferences.
  eapply incl_tran; [|apply (visits_incl _ _ _ _ _ Hv)].
  rewrite traverse_eq, (visits_isObject _ _ _ _ Hv). apply incl_appl, incl_refl.
Qed.

(** The relationships of a document are those its visited nodes push. *)
Lemma extract_iff_visits root schemaName r :
  In r (extractSchemaReferences root schemaName) <->
  exists node pn pia,
    Visits root node pn pia /\ In r (collectRef schemaName node pn pia).
Proof.
  split.
  - intros Hin. unfold extractSchemaReferences in Hin.
    destruct (isObject root) eqn:E;
      [|now rewrite traverse_non_object in Hin].
    eapply traverse_sound; [|exact Hin]. now apply visits_root.
  - intros (node & pn & pia & Hv & Hin).
    exact (visits_collect _ _ _ _ _ Hv r Hin).
Qed.

End ExtractFacts.

(** ** Path resolution *)

Module ResolveFacts.
Import JsString JsStringFacts.

Lemma resolveRelativePath_suffix basePath relativePath suf :
  endsWith relativePath suf = true ->
  includes suf "/" = false ->
  nonEmpty suf = true ->
  endsWith ".." suf = false ->
  endsWith "." suf = false ->
  endsWith (resolveRelativePath basePath relativePath) suf = true.
Proof.
  intros He Hsep Hne Hdd Hd. unfold resolveRelativePath.
  destruct (split_last _ "/" _ He Hsep) as (segs & seg & -> & Hseg).
  rewrite filter_app. cbn [filter].
  rewrite (endsWith_nonEmpty _ _ Hseg Hne), fold_left_app.
  cbn [fold_left]. unfold resolveStep at 1.
  destruct (seg =? "..") eqn:E1.
  { apply String.eqb_eq in E1. subst seg. congruence. }
  destruct (seg =? ".") eqn:E2.
  { apply String.eqb_eq in E2. subst seg. congruence. }
  cbn [negb]. now apply join_last.
Qed.

(** A reference that names a [.json] file resolves to a [.json] path. *)
Lemma resolveTarget_json schemaName m :
  endsWith m ".json" = true ->
  endsWith (resolveTarget schemaName m) ".json" = true.
Proof.
  intros He. unfold resolveTarget.
  destruct (startsWith m "../" || startsWith m "./").
  - now apply resolveRelativePath_suffix.
  - destruct (negb (includes m "/")); [|exact He].
    destruct (nonEmpty (dirOf schemaName)); [|exact He].
    now apply endsWith_app, endsWith_app.
Qed.

End ResolveFacts.

Module PositionFacts.
Import JsString JsStringFacts Json ExtractFacts.

Lemma plug_isObject c node :
  isObject node = true -> isObject (plug c node) = true.
Proof. destruct c; intros H; [exact H|reflexivity|reflexivity]. Qed.

Lemma assoc_middle q l1 k v l2 :
  assoc q (l1 ++ (k, v) :: l2) =
  match assoc q l1 with
  | Some w => Some w
  | None => if k =? q then Some v else assoc q l2
  end.
Proof.
  induction l1 as [|[k1 v1] l1 IH]; [reflexivity|].
  cbn [app assoc]. destruct (k1 =? q); [reflexivity|exact IH].
Qed.

Lemma assoc_remove q l1 k v l2 :
  (k =? q) = false -> assoc q (l1 ++ (k, v) :: l2) = assoc q (l1 ++ l2).
Proof.
  intros Hk. induction l1 as [|[k1 v1] l1 IH]; cbn [app assoc].
  - rewrite Hk. reflexivity.
  - destruct (k1 =? q); [reflexivity|exact IH].
Qed.

Lemma indexed_app i l1 l2 :
  indexed i (l1 ++ l2) = indexed i l1 ++ indexed (i + length l1) l2.
Proof.
  revert i. induction l1 as [|v l1 IH]; intros i; cbn [app indexed length].
  - now rewrite Nat.add_0_r.
  - rewrite IH. now rewrite Nat.add_succ_r.
Qed.

Lemma collectRef_alike schemaName obj obj' pn pia :
  alike (getProp obj "$ref") (getProp obj' "$ref") ->
  collectRef schemaName obj pn pia = collectRef schemaName obj' pn pia.
Proof.
  unfold collectRef. intros [->|(va & vb & -> & -> & Ha & Hb)]; [reflexivity|].
  destruct va; try discriminate; destruct vb; try discriminate; reflexivity.
Qed.

Lemma isArrayTyped_alike obj obj' :
  alike (getProp obj "type") (getProp obj' "type") ->
  isArrayTyped obj = isArrayTyped obj'.
Proof.
  unfold isArrayTyped. intros [->|(va & vb & -> & -> & Ha & Hb)]; [reflexivity|].
  destruct va; try discriminate; destruct vb; try discriminate; reflexivity.
Qed.

Lemma alike_middle q l1 k v v' l2 :
  isObject v = true -> isObject v' = true ->
  alike (assoc q (l1 ++ (k, v) :: l2)) (assoc q (l1 ++ (k, v') :: l2)).
Proof.
  intros Hv Hv'. rewrite !assoc_middle.
  destruct (assoc q l1); [now left|].
  destruct (k =? q); [|now left].
  right. exists v, v'. auto.
Qed.

Section Replace.
Variable schemaName : string.
Variables v v' : json.
Hypothesis Hv : isObject v = true.
Hypothesis Hv' : isObject v' = true.
Hypothesis Hsame :
  forall path pn pia,
    traverse schemaName v path pn pia = traverse schemaName v' path pn pia.

Lemma traverseEntry_replace path k :
  traverseEntry schemaName path (k, v) = traverseEntry schemaName path (k, v').
Proof.
  unfold traverseEntry. cbn [fst snd]. rewrite Hv, Hv', Hsame. reflexivity.
Qed.

(** Replacing an entry of an object by one [traverse] treats alike. *)
Lemma traverse_replace_entry l1 k l2 path pn pia :
  traverse schemaName (JObj (l1 ++ (k, v) :: l2)) path pn pia =
  traverse schemaName (JObj (l1 ++ (k, v') :: l2)) path pn pia.
Proof.
  rewrite !traverse_eq. cbn [isObject ownEntries].
  rewrite (collectRef_alike _ _ (JObj (l1 ++ (k, v') :: l2)))
    by (cbn [getProp]; now apply alike_middle).
  rewrite (isArrayTyped_alike _ (JObj (l1 ++ (k, v') :: l2)))
    by (cbn [getProp]; now apply alike_middle).
  f_equal. f_equal.
  - destruct (isArrayTyped _); [|reflexivity].
    unfold traverseItems. cbn [getProp]. rewrite !assoc_middle.
    destruct (assoc "items" l1); [reflexivity|].
    destruct (k =? "items"); [|reflexivity].
    rewrite !isObject_truthy by assumption. apply Hsame.
  - rewrite !flat_map_app. cbn [flat_map].
    now rewrite traverseEntry_replace.
Qed.

(** The same for an element of an array. *)
Lemma traverse_replace_element l1 l2 path pn pia :
  traverse schemaName (JArr (l1 ++ v :: l2)) path pn pia =
  traverse schemaName (JArr (l1 ++ v' :: l2)) path pn pia.
Proof.
  rewrite !traverse_eq. cbn [isObject ownEntries].
  f_equal. f_equal.
  rewrite !indexed_app. cbn [indexed]. rewrite !flat_map_app.
  cbn [flat_map]. now rewrite traverseEntry_replace.
Qed.
End Replace.

(** [traverse] is a congruence for replacing a node anywhere in a
    document. *)
Lemma traverse_plug schemaName c node node' :
  isObject node = true -> isObject node' = true ->
  (forall path pn pia,
      traverse schemaName node path pn pia =
      traverse schemaName node' path pn pia) ->
  forall path pn pia,
    traverse schemaName (plug c node) path pn pia =
    traverse schemaName (plug c node') path pn pia.
Proof.
  intros Hn Hn' Hsame.
  induction c as [|l1 k c IH l2|l1 c IH l2]; intros path pn pia;
    cbn [plug].
  - apply Hsame.
  - apply traverse_replace_entry; auto using plug_isObject.
  - apply traverse_replace_element; auto using plug_isObject.
Qed.

(** At a node whose [type] is not ['array'], the [items] entry is never
    looked into. *)
Lemma traverse_skip_items schemaName l1 v l2 path pn pia :
  isArrayTyped (JObj (l1 ++ ("items", v) :: l2)) = false ->
  traverse schemaName (JObj (l1 ++ ("items", v) :: l2)) path pn pia =
  traverse schemaName (JObj (l1 ++ l2)) path pn pia.
Proof.
  intros Harr. rewrite !traverse_eq. cbn [isObject ownEntries].
  assert (Harr' : isArrayTyped (JObj (l1 ++ l2)) = false).
  { rewrite <- Harr. unfold isArrayTyped. cbn [getProp].
    now rewrite assoc_remove. }
  rewrite Harr, Harr'. f_equal.
  - unfold collectRef. cbn [getProp]. now rewrite assoc_remove.
  - rewrite !flat_map_app. cbn [flat_map].
    unfold traverseEntry at 2. cbn [fst snd].
    rewrite String.eqb_refl, andb_false_r. reflexivity.
Qed.

End PositionFacts.

(** ** Sets and maps *)

Module JsSetFacts.
Import JsSet.

Lemma has_In s k : has s k = true <-> In k s.
Proof.
  unfold has. rewrite existsb_exists. split.
  - intros (x & Hx & He). apply String.eqb_eq in He. now subst.
  - intros H. exists k. split; [exact H|apply String.eqb_refl].
Qed.

Lemma has_app s1 s2 k : has (s1 ++ s2) k = has s1 k || has s2 k.
Proof. apply existsb_app. Qed.

Lemma has_add s k k' : has (add s k) k' = has s k' || (k' =? k).
Proof.
  unfold add. destruct (has s k) eqn:E.
  - destruct (k' =? k) eqn:E'; [|now rewrite orb_false_r].
    apply String.eqb_eq in E'. subst. now rewrite E.
  - rewrite has_app. unfold has at 2. cbn [existsb]. now rewrite orb_false_r.
Qed.

Lemma has_fold_add l s k :
  has (fold_left add l s) k = has s k || existsb (String.eqb k) l.
Proof.
  revert s. induction l as [|a l IH]; intros s; cbn [fold_left existsb].
  - now rewrite orb_false_r.
  - rewrite IH, has_add, orb_assoc. reflexivity.
Qed.

End JsSetFacts.

Module JsMapFacts.
Import JsMap.

Section Facts.
Context {V : Type}.
Implicit Types (m : JsMap.t V) (k : string) (v : V).

Lemma get_set m k v k' :
  get (set m k v) k' = if k =? k' then Some v else get m k'.
Proof.
  induction m as [|[k0 v0] m IH]; cbn [set get].
  - reflexivity.
  - destruct (k0 =? k) eqn:E; cbn [get].
    + apply String.eqb_eq in E. subst k0.
      destruct (k =? k'); reflexivity.
    + destruct (k0 =? k') eqn:E'; [|exact IH].
      apply String.eqb_eq in E'. subst k0.
      rewrite String.eqb_sym in E. now rewrite E.
Qed.

Lemma keys_set m k v :
  map fst (set m k v) = if has m k then map fst m else map fst m ++ [k].
Proof.
  unfold has. induction m as [|[k0 v0] m IH]; cbn [set get map fst app].
  - reflexivity.
  - destruct (k0 =? k) eqn:E; cbn [map fst]; [reflexivity|].
    rewrite IH. destruct (get m k); reflexivity.
Qed.

Lemma get_In m k v : get m k = Some v -> In (k, v) m.
Proof.
  induction m as [|[k0 v0] m IH]; cbn [get]; [discriminate|].
  destruct (k0 =? k) eqn:E.
  - apply String.eqb_eq in E. intros [= ->]. subst. now left.
  - intros H. right. exact (IH H).
Qed.

Lemma get_None m k : get m k = None -> ~ In k (map fst m).
Proof.
  induction m as [|[k0 v0] m IH]; cbn [get map fst]; [intros _ []|].
  destruct (k0 =? k) eqn:E; [discriminate|].
  intros H [Hk|Hk]; [|exact (IH H Hk)].
  subst. now rewrite String.eqb_refl in E.
Qed.

Lemma In_get m k v : NoDup (map fst m) -> In (k, v) m -> get m k = Some v.
Proof.
  induction m as [|[k0 v0] m IH]; cbn [map fst get]; [intros _ []|].
  intros Hnd [He|Hin]; inversion Hnd as [|? ? Hk Hnd']; subst.
  - injection He as -> ->. now rewrite String.eqb_refl.
  - destruct (k0 =? k) eqn:E; [|exact (IH Hnd' Hin)].
    apply String.eqb_eq in E. subst k0. exfalso. apply Hk.
    apply (in_map fst) in Hin. exact Hin.
Qed.

End Facts.
End JsMapFacts.

(** ** Grouping *)

Module GroupFacts.
Import JsMap JsMapFacts.

Lemma pushGroup_get groups rel k :
  get (pushGroup groups rel) k =
  if groupKey rel =? k
  then Some (match get groups k with Some rels => rels | None => [] end
             ++ [rel])
  else get groups k.
Proof.
  unfold pushGroup, has.
  destruct (get groups (groupKey rel)) as [rels|] eqn:E; cbn [negb].
  - rewrite E, get_set. destruct (groupKey rel =? k) eqn:Ek; [|reflexivity].
    apply String.eqb_eq in Ek. subst k. now rewrite E.
  - rewrite get_set, String.eqb_refl, !get_set.
    destruct (groupKey rel =? k) eqn:Ek; [|reflexivity].
    apply String.eqb_eq in Ek. subst k. now rewrite E.
Qed.

Lemma pushGroup_keys groups rel :
  map fst (pushGroup groups rel) =
  if has groups (groupKey rel) then map fst groups
  else map fst groups ++ [groupKey rel].
Proof.
  unfold pushGroup, has.
  destruct (get groups (groupKey rel)) as [rels|] eqn:E; cbn [negb].
  - rewrite E, keys_set. unfold has. now rewrite E.
  - rewrite get_set, String.eqb_refl, !keys_set. unfold has.
    now rewrite get_set, String.eqb_refl, E.
Qed.

Lemma groupRelationships_snoc rels rel :
  groupRelationships (rels ++ [rel]) = pushGroup (groupRelationships rels) rel.
Proof. unfold groupRelationships. now rewrite fold_left_app. Qed.

(** The group of a key is the sublist of the relationships with that key,
    in their order. *)
Lemma groups_get rels k :
  get (groupRelationships rels) k =
  match filter (fun r => groupKey r =? k) rels with
  | [] => None
  | g => Some g
  end.
Proof.
  induction rels as [|rel rels IH] using rev_ind; [reflexivity|].
  rewrite groupRelationships_snoc, pushGroup_get, filter_app, IH.
  cbn [filter]. destruct (groupKey rel =? k).
  - destruct (filter _ rels); reflexivity.
  - now rewrite app_nil_r.
Qed.

Lemma groups_NoDup rels : NoDup (map fst (groupRelationships rels)).
Proof.
  induction rels as [|rel rels IH] using rev_ind; [constructor|].
  rewrite groupRelationships_snoc, pushGroup_keys. unfold has.
  destruct (get _ (groupKey rel)) eqn:E; [exact IH|].
  apply NoDup_app; [exact IH|repeat constructor; intros []|].
  intros x Hx [<-|[]]. exact (get_None _ _ E Hx).
Qed.

Lemma groups_In rels k g :
  In (k, g) (groupRelationships rels) ->
  g = filter (fun r => groupKey r =? k) rels /\ g <> [].
Proof.
  intros Hin. apply (In_get _ _ _ (groups_NoDup rels)) in Hin.
  rewrite groups_get in Hin.
  destruct (filter _ rels) eqn:E; [discriminate|].
  injection Hin as <-. split; [reflexivity|discriminate].
Qed.

(** A group is never empty. *)
Lemma groups_not_empty rels k g :
  In (k, g) (groupRelationships rels) -> g <> [].
Proof. intros H. now apply groups_In in H. Qed.

End GroupFacts.

(** ** The edge loop *)

Module EdgeFacts.
Import JsSet JsSetFacts.

Lemma groupEdge_fields fromNode toNode rel rels :
  let e := groupEdge fromNode toNode rel rels in
  Edge.id e = edgeId fromNode toNode /\
  Edge.source e = fromNode /\
  Edge.target e = toNode /\
  Edge.count (Edge.data e) = length rels.
Proof.
  unfold groupEdge. destruct (1 <? length rels)%nat; [|destruct (type rel)];
    repeat split.
Qed.

Lemma groupEdge_multiple fromNode toNode rel rels :
  (2 <= length rels)%nat ->
  Edge.type (Edge.data (groupEdge fromNode toNode rel rels)) = Multiple.
Proof.
  intros H. unfold groupEdge.
  destruct (Nat.ltb_spec 1 (length rels)); [reflexivity|lia].
Qed.

Lemma candidate_id nodeIds group e :
  candidate nodeIds group = Some e ->
  Edge.id e = edgeId (Edge.source e) (Edge.target e).
Proof.
  unfold candidate. destruct (snd group) as [|rel rels]; [discriminate|].
  cbv zeta. destruct (_ && _); [|discriminate]. intros [= <-].
  pose proof (groupEdge_fields (resolveNode nodeIds (from rel))
                (resolveNode nodeIds (to rel)) rel (rel :: rels)) as H.
  cbv zeta in H. destruct H as (-> & -> & -> & _). reflexivity.
Qed.

(** One step of the loop, in terms of the candidate edge. *)
Lemma pushEdge_spec nodeIds st group :
  let st' := pushEdge nodeIds st group in
  match candidate nodeIds group with
  | Some e =>
      if has (edgeIds st) (Edge.id e)
      then edges st' = edges st /\ edgeIds st' = edgeIds st
      else edges st' = edges st ++ [e] /\
           edgeIds st' = edgeIds st ++ [Edge.id e]
  | None => edges st' = edges st /\ edgeIds st' = edgeIds st
  end.
Proof.
  unfold pushEdge, candidate.
  destruct (snd group) as [|rel rels] eqn:Eg; cbv zeta; [now split|].
  destruct (has nodeIds _ && has nodeIds _); [|now split].
  destruct (groupEdge_fields (resolveNode nodeIds (from rel))
              (resolveNode nodeIds (to rel)) rel (rel :: rels))
    as (Hid & _).
  rewrite Hid.
  destruct (has (edgeIds st) _) eqn:Eh; cbn [negb edges edgeIds];
    [now split|].
  split; [reflexivity|]. unfold add. now rewrite Eh.
Qed.

Lemma pushEdge_consistent nodeIds st group :
  consistent st -> consistent (pushEdge nodeIds st group).
Proof.
  intros [Hids Hnd]. pose proof (pushEdge_spec nodeIds st group) as H.
  cbv zeta in H. unfold consistent.
  destruct (candidate nodeIds group) as [e|];
    [destruct (has (edgeIds st) (Edge.id e)) eqn:Eh|];
    destruct H as [-> ->]; try (split; assumption).
  split.
  - rewrite map_app, Hids. reflexivity.
  - apply NoDup_app; [exact Hnd|repeat constructor; intros []|].
    intros x Hx [<-|[]]. apply has_In in Hx. congruence.
Qed.

Lemma loop_consistent nodeIds groups st :
  consistent st -> consistent (fold_left (pushEdge nodeIds) groups st).
Proof.
  revert st. induction groups as [|g groups IH]; intros st H; [exact H|].
  cbn [fold_left]. apply IH. now apply pushEdge_consistent.
Qed.

Lemma pushEdge_keeps nodeIds st group e :
  In e (edges st) -> In e (edges (pushEdge nodeIds st group)).
Proof.
  intros Hin. pose proof (pushEdge_spec nodeIds st group) as H.
  cbv zeta in H.
  destruct (candidate nodeIds group) as [e'|];
    [destruct (has (edgeIds st) (Edge.id e'))|];
    destruct H as [-> _]; auto using in_or_app.
Qed.

Lemma loop_keeps nodeIds groups st e :
  In e (edges st) -> In e (edges (fold_left (pushEdge nodeIds) groups st)).
Proof.
  revert st. induction groups as [|g groups IH]; intros st H; [exact H|].
  cbn [fold_left]. apply IH. now apply pushEdge_keeps.
Qed.

(** Every edge pushed is the candidate of some group. *)
Lemma loop_sound nodeIds groups st e :
  In e (edges (fold_left (pushEdge nodeIds) groups st)) ->
  In e (edges st) \/ exists g, In g groups /\ candidate nodeIds g = Some e.
Proof.
  revert st. induction groups as [|g groups IH]; intros st Hin; [now left|].
  cbn [fold_left] in Hin. apply IH in Hin as [Hin|(g' & Hg' & Hc)].
  - pose proof (pushEdge_spec nodeIds st g) as H. cbv zeta in H.
    destruct (candidate nodeIds g) as [e'|] eqn:Ec;
      [destruct (has (edgeIds st) (Edge.id e'))|];
      destruct H as [He _]; rewrite He in Hin; auto.
    apply in_app_or in Hin as [Hin|[<-|[]]]; [now left|].
    right. exists g. split; [now left|exact Ec].
  - right. exists g'. split; [now right|exact Hc].
Qed.

(** The candidate of a group is pushed when no other group asks for an
    edge with the same identifier. *)
Lemma loop_complete nodeIds groups st g e :
  In g groups ->
  candidate nodeIds g = Some e ->
  has (edgeIds st) (Edge.id e) = false ->
  (forall g' e', In g' groups -> candidate nodeIds g' = Some e' ->
                 Edge.id e' = Edge.id e -> g' = g) ->
  In e (edges (fold_left (pushEdge nodeIds) groups st)).
Proof.
  revert st. induction groups as [|g1 groups IH]; intros st Hin Hc Hfresh Huniq;
    [contradiction|].
  cbn [fold_left]. pose proof (pushEdge_spec nodeIds st g1) as H.
  cbv zeta in H.
  destruct (candidate nodeIds g1) as [e1|] eqn:Ec1.
  - destruct (String.eqb_spec (Edge.id e1) (Edge.id e)) as [Heq|Hne].
    + (* the group itself *)
      assert (g1 = g) by (eapply Huniq; eauto; now left). subst g1.
      rewrite Hc in Ec1. injection Ec1 as <-.
      rewrite Hfresh in H. destruct H as [He _].
      apply loop_keeps. rewrite He. apply in_or_app. right. now left.
    + destruct Hin as [->|Hin]; [congruence|].
      apply IH; auto.
      * destruct (has (edgeIds st) (Edge.id e1)); destruct H as [_ ->];
          [exact Hfresh|].
        rewrite has_app, Hfresh. unfold has. cbn [existsb orb].
        rewrite orb_false_r. apply String.eqb_neq. congruence.
      * intros g' e' Hg'. apply Huniq. now right.
  - destruct H as [_ Hids].
    destruct Hin as [->|Hin]; [congruence|].
    apply IH; auto.
    + now rewrite Hids.
    + intros g' e' Hg'. apply Huniq. now right.
Qed.

Lemma filter_unique {A} (p : A -> bool) (key : A -> string) (l : list A) a :
  NoDup (map key l) -> In a l -> p a = true ->
  (forall b, In b l -> p b = true -> b = a) ->
  filter p l = [a].
Proof.
  induction l as [|b l IH]; intros Hnd Hin Hp Hall; [contradiction|].
  cbn [map] in Hnd. inversion Hnd as [|? ? Hnot Hnd']; subst.
  cbn [filter]. destruct (p b) eqn:Epb.
  - assert (b = a) by (apply Hall; [now left|exact Epb]). subst b.
    f_equal. destruct (filter p l) as [|c l'] eqn:Ef; [reflexivity|].
    exfalso. apply Hnot.
    assert (Hc : In c (filter p l)) by (rewrite Ef; now left).
    apply filter_In in Hc as [Hc Hpc].
    assert (c = a) by (apply Hall; [now right|exact Hpc]). subst c.
    now apply in_map.
  - destruct Hin as [->|Hin]; [congruence|].
    apply IH; auto. intros c Hc. apply Hall. now right.
Qed.

End EdgeFacts.

(** ** The node loop *)

Module NodeFacts.
Import JsSet JsSetFacts.

Lemma nodeIdsOf_has schemas k :
  has (nodeIdsOf schemas) k = true <-> In k (map fst schemas).
Proof.
  unfold nodeIdsOf. rewrite has_fold_add. cbn [has existsb orb].
  rewrite existsb_exists. split.
  - intros (x & Hx & He). apply String.eqb_eq in He. now subst.
  - intros H. exists k. split; [exact H|apply String.eqb_refl].
Qed.

(** The node [pushNode] makes for the document [name]. *)
Lemma pushNode_inv relationships expandedNodes nodes nodeIds name schema st :
  pushNode relationships expandedNodes (nodes, nodeIds) (name, schema)
  = Returns st ->
  exists node,
    st = (nodes ++ [node], add nodeIds name) /\
    Node.id node = name /\
    Node.schemaName (Node.data node) = name /\
    Node.isRoot (Node.data node) =
      negb (existsb (fun r => to r =? name) relationships) /\
    Node.isExpanded (Node.data node) = has expandedNodes name.
Proof.
  unfold pushNode.
  destruct (getPropM schema "title") as [titleProp|]; [|discriminate].
  destruct (getPropM schema "$id") as [idProp|]; [|discriminate].
  destruct (getPropM schema "properties") as [propsProp|]; [|discriminate].
  cbn [bind].
  match goal with |- bind ?c _ = _ -> _ => destruct c as [props|] end;
    [|discriminate].
  cbn [bind]. intros [= <-]. eexists. repeat split.
Qed.

Lemma nodes_loop relationships expandedNodes schemas :
  forall nodes nodeIds nodes' nodeIds',
    forEachM (pushNode relationships expandedNodes) schemas (nodes, nodeIds)
    = Returns (nodes', nodeIds') ->
    nodeIds' = fold_left add (map fst schemas) nodeIds /\
    map Node.id nodes' = map Node.id nodes ++ map fst schemas /\
    forall node, In node nodes' ->
      In node nodes \/
      (In (Node.id node) (map fst schemas) /\
       Node.schemaName (Node.data node) = Node.id node /\
       Node.isRoot (Node.data node) =
         negb (existsb (fun r => to r =? Node.id node) relationships) /\
       Node.isExpanded (Node.data node) = has expandedNodes (Node.id node)).
Proof.
  induction schemas as [|[name schema] schemas IH];
    intros nodes nodeIds nodes' nodeIds' H.
  - injection H as <- <-. rewrite app_nil_r. auto.
  - cbn [forEachM] in H.
    destruct (pushNode _ _ _ _) as [st|] eqn:E; [|discriminate].
    cbn [bind] in H.
    apply pushNode_inv in E as (n & -> & Hid & Hname & Hroot & Hexp).
    apply IH in H as (Hids & Hmap & Hall).
    cbn [map fst fold_left]. split; [exact Hids|]. split.
    + rewrite Hmap, map_app, <- app_assoc. cbn [map app]. now rewrite Hid.
    + intros node Hin. apply Hall in Hin as [Hin|(Hk & Hrest)].
      * apply in_app_or in Hin as [Hin|[<-|[]]]; [now left|].
        right. rewrite Hid. repeat split; auto. now left.
      * right. split; [now right|exact Hrest].
Qed.

(** What [createSchemaGraph] returns, when it returns. *)
Lemma createSchemaGraph_inv schemas relationships expandedNodes nodes es :
  createSchemaGraph schemas relationships expandedNodes
  = Returns (nodes, es) ->
  map Node.id nodes = map fst schemas /\
  es = edges (buildEdges (nodeIdsOf schemas) relationships) /\
  forall node, In node nodes ->
    In (Node.id node) (map fst schemas) /\
    Node.schemaName (Node.data node) = Node.id node /\
    Node.isRoot (Node.data node) =
      negb (existsb (fun r => to r =? Node.id node) relationships) /\
    Node.isExpanded (Node.data node) = has expandedNodes (Node.id node).
Proof.
  unfold createSchemaGraph.
  destruct (forEachM (pushNode relationships expandedNodes) schemas ([], []))
    as [[ns ids]|] eqn:E; [|discriminate].
  cbn [bind]. intros [= <- <-].
  apply nodes_loop in E as (-> & Hmap & Hall).
  split; [exact Hmap|]. split; [reflexivity|].
  intros node Hin. destruct (Hall node Hin) as [[]|H]. exact H.
Qed.

Lemma forEachM_ext {A S} (f g : S -> A -> completion S) l s :
  (forall s a, f s a = g s a) -> forEachM f l s = forEachM g l s.
Proof.
  intros H. revert s. induction l as [|a l IH]; intros s; [reflexivity|].
  cbn [forEachM]. rewrite H. destruct (g s a); cbn [bind]; auto.
Qed.

End NodeFacts.

(** ** The heap *)

Module HeapFacts.
Import Heap.

Lemma read_old (h ls : Heap.t) l o :
  read l h = Some o -> read l (h ++ ls) = Some o.
Proof.
  unfold read. intros H. rewrite nth_error_app1; [exact H|].
  apply nth_error_Some. congruence.
Qed.

Lemma read_new (h ls : Heap.t) i :
  read (length h + i) (h ++ ls) = nth_error ls i.
Proof.
  unfold read. rewrite nth_error_app2 by lia.
  f_equal. lia.
Qed.

Lemma write_new (h ls : Heap.t) i o :
  write (length h + i) o (h ++ ls) = h ++ write i o ls.
Proof.
  induction h as [|x h IH]; [reflexivity|].
  cbn [length Nat.add app write]. now rewrite IH.
Qed.

Lemma new_app (h ls : Heap.t) o :
  new o (h ++ ls) = (Returns (length h + length ls), h ++ (ls ++ [o])).
Proof. unfold new. now rewrite length_app, app_assoc. Qed.

Ltac heap_step :=
  repeat first
    [ rewrite read_new
    | rewrite write_new
    | progress cbn [nth_error write bindH lift ret store fst snd] ].

Lemma nodeCallback_spec (h : Heap.t) relationships expandedNodes rels expanded
  nodes es nodeIds entry :
  read relationships h = Some (Relationships rels) ->
  read expandedNodes h = Some (Names expanded) ->
  Stateful.nodeCallback relationships expandedNodes
    (length h + 0) (length h + 2) entry
    (h ++ [Nodes nodes; Edges es; Names nodeIds])
  = match pushNode rels expanded (nodes, nodeIds) entry with
    | Returns (nodes', nodeIds') =>
        (Returns tt, h ++ [Nodes nodes'; Edges es; Names nodeIds'])
    | Throws e => (Throws e, h ++ [Nodes nodes; Edges es; Names nodeIds])
    end.
Proof.
  intros Hr He. destruct entry as [name schema].
  unfold Stateful.nodeCallback, pushNode.
  unfold bindH at 1. cbn [lift].
  destruct (getPropM schema "title") as [titleProp|e]; [|reflexivity].
  cbn [bind]. unfold bindH at 1. cbn [lift].
  destruct (getPropM schema "$id") as [idProp|e]; [|reflexivity].
  cbn [bind]. unfold bindH at 1, relationshipsAt.
  rewrite (read_old _ _ _ _ Hr).
  unfold bindH at 1, namesAt. rewrite (read_old _ _ _ _ He).
  unfold bindH at 1. cbn [lift].
  destruct (getPropM schema "properties") as [propsProp|e]; [|reflexivity].
  cbn [bind]. unfold bindH at 1. cbn [lift].
  match goal with
  | |- context [bind ?c _] => destruct c as [properties|e]; [|reflexivity]
  end.
  cbn [bind]. unfold pushNodeAt, addName, nodesAt, namesAt, bindH, store.
  heap_step. reflexivity.
Qed.

Lemma nodeLoop_spec (h : Heap.t) relationships expandedNodes rels expanded es
  documents :
  read relationships h = Some (Relationships rels) ->
  read expandedNodes h = Some (Names expanded) ->
  forall nodes nodeIds,
  exists locals,
    forEachH (Stateful.nodeCallback relationships expandedNodes
                (length h + 0) (length h + 2)) documents
      (h ++ [Nodes nodes; Edges es; Names nodeIds])
    = (void (forEachM (pushNode rels expanded) documents (nodes, nodeIds)),
       h ++ locals) /\
    forall nodes' nodeIds',
      forEachM (pushNode rels expanded) documents (nodes, nodeIds)
      = Returns (nodes', nodeIds') ->
      locals = [Nodes nodes'; Edges es; Names nodeIds'].
Proof.
  intros Hr He. induction documents as [|entry documents IH];
    intros nodes nodeIds.
  - eexists. split; [reflexivity|]. now intros nodes' nodeIds' [= <- <-].
  - cbn [forEachH forEachM]. unfold bindH at 1.
    rewrite (nodeCallback_spec _ _ _ _ _ _ _ _ _ Hr He).
    destruct (pushNode rels expanded (nodes, nodeIds) entry)
      as [[nodes1 nodeIds1]|e]; cbn [bind].
    + exact (IH nodes1 nodeIds1).
    + eexists. split; [reflexivity|]. discriminate.
Qed.

Lemma groupCallback_spec (h pre : Heap.t) groups rel :
  Stateful.groupCallback (length h + length pre) rel (h ++ pre ++ [Groups groups])
  = (Returns tt, h ++ pre ++ [Groups (pushGroup groups rel)]).
Proof.
  assert (Hread : forall gs,
             read (length h + length pre) (h ++ pre ++ [Groups gs])
             = Some (Groups gs)).
  { intros gs. rewrite read_new, nth_error_app2 by lia.
    now rewrite Nat.sub_diag. }
  assert (Hwrite : forall gs gs',
             write (length h + length pre) (Groups gs')
               (h ++ pre ++ [Groups gs])
             = h ++ pre ++ [Groups gs']).
  { intros gs gs'. rewrite write_new. f_equal.
    clear Hread. induction pre as [|x pre IH]; [reflexivity|].
    cbn [length app write]. now rewrite IH. }
  unfold Stateful.groupCallback, pushGroup.
  unfold bindH at 1, groupsAt at 1. rewrite Hread.
  destruct (JsMap.has groups (groupKey rel)) eqn:Ehas; cbn [negb].
  - unfold bindH, ret, groupsAt. rewrite Hread.
    unfold JsMap.has in Ehas.
    destruct (JsMap.get groups (groupKey rel)) as [rs|]; [|discriminate].
    unfold store. now rewrite Hwrite.
  - unfold bindH, store, groupsAt. rewrite Hwrite, Hread.
    rewrite JsMapFacts.get_set, String.eqb_refl. now rewrite Hwrite.
Qed.

Lemma groupLoop_spec (h pre : Heap.t) rels :
  forall groups,
    forEachH (Stateful.groupCallback (length h + length pre)) rels
      (h ++ pre ++ [Groups groups])
    = (Returns tt, h ++ pre ++ [Groups (fold_left pushGroup rels groups)]).
Proof.
  induction rels as [|rel rels IH]; intros groups; [reflexivity|].
  cbn [forEachH fold_left]. unfold bindH at 1.
  rewrite groupCallback_spec. apply IH.
Qed.

Lemma edgeCallback_spec (h : Heap.t) nodes nodeIds tail st group :
  snd group <> [] ->
  Stateful.edgeCallback (length h + 2) (length h + 1) (length h + 3)
    (length h + 4) (length h + 5) group
    (h ++ Nodes nodes :: Edges (edges st) :: Names nodeIds
       :: Names (edgeIds st) :: Count (matchedCount st)
       :: Count (unmatchedCount st) :: tail)
  = (Returns tt,
     let st' := pushEdge nodeIds st group in
     h ++ Nodes nodes :: Edges (edges st') :: Names nodeIds
       :: Names (edgeIds st') :: Count (matchedCount st')
       :: Count (unmatchedCount st') :: tail).
Proof.
  intros Hne. unfold Stateful.edgeCallback, pushEdge.
  destruct (snd group) as [|rel rels'] eqn:Eg; [contradiction|].
  unfold bindH at 1, namesAt at 1. heap_step.
  destruct (JsSet.has nodeIds (resolveNode nodeIds (from rel))
            && JsSet.has nodeIds (resolveNode nodeIds (to rel))).
  - unfold bindH at 1, namesAt at 1. heap_step.
    destruct (JsSet.has (edgeIds st) _); cbn [negb].
    + destruct st; reflexivity.
    + unfold pushEdgeAt, addName, increment, edgesAt, namesAt, countAt,
        bindH, store.
      heap_step. reflexivity.
  - unfold increment, countAt, bindH, store. heap_step. reflexivity.
Qed.

Lemma edgeLoop_spec (h : Heap.t) nodes nodeIds tail groups :
  Forall (fun group => snd group <> []) groups ->
  forall st,
    forEachH (Stateful.edgeCallback (length h + 2) (length h + 1)
                (length h + 3) (length h + 4) (length h + 5)) groups
      (h ++ Nodes nodes :: Edges (edges st) :: Names nodeIds
         :: Names (edgeIds st) :: Count (matchedCount st)
         :: Count (unmatchedCount st) :: tail)
    = (Returns tt,
       let st' := fold_left (pushEdge nodeIds) groups st in
       h ++ Nodes nodes :: Edges (edges st') :: Names nodeIds
         :: Names (edgeIds st') :: Count (matchedCount st')
         :: Count (unmatchedCount st') :: tail).
Proof.
  induction 1 as [|group groups Hne _ IH]; intros st; [reflexivity|].
  cbn [forEachH fold_left]. unfold bindH at 1.
  rewrite (edgeCallback_spec _ _ _ _ _ _ Hne). cbv zeta. apply IH.
Qed.

(** One call: the heap it leaves is the heap it found followed by the
    objects it made, and what it returns is what [createSchemaGraph]
    computes from the contents of its three arguments. *)
Lemma call_spec (h : Heap.t) schemas relationships expandedNodes
  documents rels expanded :
  read schemas h = Some (Documents documents) ->
  read relationships h = Some (Relationships rels) ->
  read expandedNodes h = Some (Names expanded) ->
  exists locals,
    snd (Stateful.createSchemaGraph schemas relationships expandedNodes h)
    = h ++ locals /\
    match createSchemaGraph documents rels expanded with
    | Returns (nodes, es) =>
        fst (Stateful.createSchemaGraph schemas relationships expandedNodes h)
        = Returns (length h + 0, length h + 1) /\
        nth_error locals 0 = Some (Nodes nodes) /\
        nth_error locals 1 = Some (Edges es)
    | Throws e =>
        fst (Stateful.createSchemaGraph schemas relationships expandedNodes h)
        = Throws e
    end.
Proof.
  intros Hs Hr He.
  assert (Hrun : exists locals,
             Stateful.createSchemaGraph schemas relationships expandedNodes
               (h ++ [])
             = (match createSchemaGraph documents rels expanded with
                | Returns _ => Returns (length h + 0, length h + 1)
                | Throws e => Throws e
                end, h ++ locals) /\
             forall nodes es,
               createSchemaGraph documents rels expanded = Returns (nodes, es) ->
               nth_error locals 0 = Some (Nodes nodes) /\
               nth_error locals 1 = Some (Edges es)).
  { unfold Stateful.createSchemaGraph, createSchemaGraph.
    unfold bindH at 1. rewrite new_app. cbn [length app].
    unfold bindH at 1. rewrite new_app. cbn [length app].
    unfold bindH at 1. rewrite new_app. cbn [length app].
    unfold bindH at 1, documentsAt. rewrite (read_old _ _ _ _ Hs).
    unfold bindH at 1.
    destruct (nodeLoop_spec h relationships expandedNodes rels expanded []
                documents Hr He [] []) as (locals & Hloop & Hlocals).
    rewrite Hloop. clear Hloop.
    destruct (forEachM (pushNode rels expanded) documents ([], []))
      as [[nodes nodeIds]|e] eqn:Eloop.
    all: match goal with
         | |- context [void ?c] =>
             let v := eval cbn [void] in (void c) in idtac
         end.
    all: pose proof (f_equal void Eloop) as Hvoid; cbn [void] in Hvoid.
    all: match goal with
         | |- context [void ?c] =>
             match type of Hvoid with
             | _ = ?r => replace (void c) with r by (symmetry; exact Hvoid)
             end
         end.
    all: cbn [bind].
    - rewrite (Hlocals nodes nodeIds Eloop).
      unfold bindH at 1. rewrite new_app. cbn [length app].
      unfold bindH at 1. rewrite new_app. cbn [length app].
      unfold bindH at 1. rewrite new_app. cbn [length app].
      unfold bindH at 1. rewrite new_app. cbn [length app].
      unfold bindH at 1, relationshipsAt. rewrite (read_old _ _ _ _ Hr).
      unfold bindH at 1.
      pose proof (groupLoop_spec h [Nodes nodes; Edges []; Names nodeIds;
                                    Names []; Count 0; Count 0] rels [])
        as Hgroups.
      cbn [length app] in Hgroups. rewrite Hgroups. clear Hgroups.
      unfold bindH at 1, groupsAt. heap_step.
      fold (groupRelationships rels).
      unfold bindH at 1.
      assert (Hne : Forall (fun group : string * list SchemaRelationship =>
                              snd group <> []) (groupRelationships rels)).
      { apply Forall_forall. intros [k g] Hin.
        exact (GroupFacts.groups_not_empty _ _ _ Hin). }
      pose proof (edgeLoop_spec h nodes nodeIds
                    [Groups (groupRelationships rels)]
                    (groupRelationships rels) Hne
                    {| edges := []; edgeIds := []; matchedCount := 0;
                       unmatchedCount := 0 |}) as Hedges.
      cbn [edges edgeIds matchedCount unmatchedCount] in Hedges.
      rewrite Hedges. clear Hedges.
      cbv zeta. cbn [ret]. fold (buildEdges nodeIds rels).
      eexists. split; [reflexivity|].
      intros nodes' es' [= <- <-]. split; reflexivity.
    - eexists. split; [reflexivity|]. discriminate. }
  rewrite app_nil_r in Hrun. destruct Hrun as (locals & -> & Hlocals).
  exists locals. cbn [fst snd]. split; [reflexivity|].
  destruct (createSchemaGraph documents rels expanded) as [[nodes es]|e];
    [|reflexivity].
  split; [reflexivity|]. exact (Hlocals nodes es eq_refl).
Qed.

End HeapFacts.

(** * The specification, claim by claim *)

Import JsString JsStringFacts Json ExtractFacts ResolveFacts PositionFacts.
Import JsSet JsSetFacts JsMapFacts GroupFacts EdgeFacts NodeFacts.

(** ** The end-to-end scenario *)

(** C1, as stated, fails: in the scenario the graph does not make [a.json]
    the root and [b.json], [c.json] the non-roots. *)
Lemma scenario_roots_not_as_claimed :
  ~ exists nodes es,
      createSchemaGraph scenario (extractAll scenario) [] = Returns (nodes, es)
      /\ rootFlags nodes =
         [("a.json", true); ("b.json", false); ("c.json", false)].
Proof.
  intros (nodes & es & H & Hflags).
  vm_compute in H. injection H as <- <-. vm_compute in Hflags. discriminate.
Qed.

(** C1, amended: in the scenario the graph has the three nodes [a.json],
    [b.json], [c.json]; [a.json], the target of both references, has
    [isRoot = false] and [b.json], [c.json], which nothing references, have
    [isRoot = true]; there are two edges, [b -> a] classified one-to-one and
    [c -> a] classified one-to-many. *)
Theorem scenario_graph (expandedNodes : JsSet.t) :
  exists nodes es,
    createSchemaGraph scenario (extractAll scenario) expandedNodes
    = Returns (nodes, es) /\
    rootFlags nodes = [("a.json", false); ("b.json", true); ("c.json", true)] /\
    edgeClasses es =
      [("b.json", "a.json", OneToOne); ("c.json", "a.json", OneToMany)].
Proof.
  eexists. eexists. split; [vm_compute; reflexivity|]. split; reflexivity.
Qed.

(** ** Root detection *)

(** C2: every node of the graph has [isRoot = true] exactly when no
    relationship of the whole list has the node's path as its [to], whatever
    the expanded set and whatever edges were matched. *)
Theorem isRoot_iff_not_targeted
  (schemas : JsMap.t json) (relationships : list SchemaRelationship)
  (expandedNodes : JsSet.t) (nodes : list Node.t) (es : list Edge.t)
  (node : Node.t) :
  createSchemaGraph schemas relationships expandedNodes = Returns (nodes, es) ->
  In node nodes ->
  (Node.isRoot (Node.data node) = true <->
   forall r, In r relationships -> to r <> Node.id node).
Proof.
  intros H Hin. apply createSchemaGraph_inv in H as (_ & _ & Hall).
  destruct (Hall node Hin) as (_ & _ & -> & _).
  rewrite negb_true_iff. split.
  - intros Hno r Hr Heq.
    assert (Hex : existsb (fun r => to r =? Node.id node) relationships = true).
    { apply existsb_exists. exists r. split; [exact Hr|].
      now apply String.eqb_eq. }
    congruence.
  - intros Hno. destruct (existsb _ relationships) eqn:E; [|reflexivity].
    apply existsb_exists in E as (r & Hr & He).
    apply String.eqb_eq in He. exfalso. exact (Hno r Hr He).
Qed.

Lemma isRoot_iff_not_targeted_witness :
  (exists nodes es node,
     createSchemaGraph scenario (extractAll scenario) ["b.json"]
     = Returns (nodes, es) /\
     In node nodes /\ Node.id node = "a.json" /\
     map Edge.target es = ["a.json"; "a.json"] /\
     Node.isRoot (Node.data node) = false /\
     (Node.isRoot (Node.data node) = true <->
      forall r, In r (extractAll scenario) -> to r <> Node.id node)) /\
  (exists nodes es node,
     createSchemaGraph suffix_schemas (extractAll suffix_schemas) ["b.json"]
     = Returns (nodes, es) /\
     In node nodes /\ Node.id node = "v1/a.json" /\
     map to (extractAll suffix_schemas) = ["a.json"] /\
     map Edge.target es = ["v1/a.json"] /\
     Node.isRoot (Node.data node) = true /\
     (Node.isRoot (Node.data node) = true <->
      forall r, In r (extractAll suffix_schemas) -> to r <> Node.id node)).
Proof.
  split.
  - assert (Hg : exists nodes es node,
               createSchemaGraph scenario (extractAll scenario) ["b.json"]
               = Returns (nodes, es) /\
               In node nodes /\ Node.id node = "a.json" /\
               map Edge.target es = ["a.json"; "a.json"] /\
               Node.isRoot (Node.data node) = false).
    { eexists. eexists. eexists. split; [vm_compute; reflexivity|].
      split; [left; reflexivity|]. repeat split. }
    destruct Hg as (nodes & es & node & Hg & Hin & Hid & Hes & Hroot).
    exists nodes, es, node. repeat (split; [assumption|]).
    exact (isRoot_iff_not_targeted _ _ _ _ _ _ Hg Hin).
  - assert (Hg : exists nodes es node,
               createSchemaGraph suffix_schemas (extractAll suffix_schemas)
                 ["b.json"]
               = Returns (nodes, es) /\
               In node nodes /\ Node.id node = "v1/a.json" /\
               map to (extractAll suffix_schemas) = ["a.json"] /\
               map Edge.target es = ["v1/a.json"] /\
               Node.isRoot (Node.data node) = true).
    { eexists. eexists. eexists. split; [vm_compute; reflexivity|].
      split; [left; reflexivity|]. repeat split. }
    destruct Hg as (nodes & es & node & Hg & Hin & Hid & Hto & Hes & Hroot).
    exists nodes, es, node. repeat (split; [assumption|]).
    exact (isRoot_iff_not_targeted _ _ _ _ _ _ Hg Hin).
Defined.

(** ** Bare-name resolution *)

(** C3, as stated, fails: the bare name [role.schema.json] referenced from
    [v1/user/user.schema.json] does not resolve to [v1/role.schema.json]. *)
Lemma bare_name_not_parent_directory :
  ~ exists r,
      In r (extractSchemaReferences bare_ref_document user_path) /\
      to r = "v1/role.schema.json".
Proof.
  intros (r & Hin & Hto). vm_compute in Hin.
  destruct Hin as [<-|[]]. discriminate Hto.
Qed.

(** C3, amended: in any document at the path [v1/user/user.schema.json],
    a relationship collected from the [$ref] ["role.schema.json"] has [to]
    equal to ["v1/user/role.schema.json"], the directory of the referencing
    document followed by the bare name. *)
Theorem bare_name_resolution (schema : json) (r : SchemaRelationship) :
  In r (extractSchemaReferences schema user_path) ->
  refPath r = "role.schema.json" ->
  to r = "v1/user/role.schema.json".
Proof.
  intros Hin Href.
  apply extract_sound in Hin as (m & _ & Hm & _ & ->).
  rewrite Href in Hm. vm_compute in Hm. injection Hm as <-. reflexivity.
Qed.

Lemma bare_name_resolution_witness :
  let r := {| from := user_path;
              to := "v1/user/role.schema.json";
              refPath := "role.schema.json";
              type := OneToOne;
              propertyName := Some EmptyString |} in
  In r (extractSchemaReferences bare_ref_document user_path) /\
  refPath r = "role.schema.json" /\
  to r = "v1/user/role.schema.json".
Proof.
  cbv zeta.
  assert (Hin : In {| from := user_path;
                      to := "v1/user/role.schema.json";
                      refPath := "role.schema.json";
                      type := OneToOne;
                      propertyName := Some EmptyString |}
                   (extractSchemaReferences bare_ref_document user_path))
    by (left; reflexivity).
  split; [exact Hin|]. split; [reflexivity|].
  exact (bare_name_resolution bare_ref_document _ Hin eq_refl).
Defined.

(** ** Only cross-file references are collected *)

(** C5: no relationship [extractSchemaReferences] returns has a [to] without
    the [.json] suffix, and none comes from a [$ref] that starts with ['#']
    ([refPath] is the [$ref] string the relationship was collected from). *)
Theorem extracted_are_json_files
  (schema : json) (schemaName : string) (r : SchemaRelationship) :
  In r (extractSchemaReferences schema schemaName) ->
  endsWith (to r) ".json" = true /\ startsWith (refPath r) "#" = false.
Proof.
  intros Hin. apply extract_sound in Hin as (m & _ & Hm & He & ->).
  split.
  - now apply resolveTarget_json.
  - exact (matchBeforeHash_some _ _ Hm).
Qed.

Lemma extracted_are_json_files_witness :
  let r := {| from := user_path;
              to := "v1/address/address.schema.json";
              refPath := "../address/address.schema.json#/definitions/X";
              type := OneToOne;
              propertyName := Some "address" |} in
  let schema :=
    JObj [("properties",
           JObj [("address",
                  JObj [("$ref",
                         JStr "../address/address.schema.json#/definitions/X")]);
                 ("local", JObj [("$ref", JStr "#/definitions/X")])])] in
  In r (extractSchemaReferences schema user_path) /\
  endsWith (to r) ".json" = true /\ startsWith (refPath r) "#" = false.
Proof.
  cbv zeta.
  match goal with |- ?A /\ _ => assert (Hin : A) by (left; reflexivity) end.
  split; [exact Hin|].
  exact (extracted_are_json_files _ _ _ Hin).
Defined.

(** A fragment-only [$ref] pushes nothing, wherever it stands. *)
Lemma fragment_only_ref_ignored schemaName node propertyName parentIsArray ref :
  getProp node "$ref" = Some (JStr ref) ->
  startsWith ref "#" = true ->
  collectRef schemaName node propertyName parentIsArray = [].
Proof.
  intros Hr Hh. unfold collectRef.
  rewrite Hr, (matchBeforeHash_hash _ Hh). now destruct (nonEmpty ref).
Qed.

(** ** Malformed documents *)

(** C8, as stated, fails: a document that is an array is not an object,
    and it is traversed element by element, an array being an object for
    [typeof]: its relationships are returned. *)
Lemma array_document_is_traversed :
  isJsonObject array_document = false /\
  extractSchemaReferences array_document "b.json"
  = [ {| from := "b.json"; to := "a.json"; refPath := "a.json";
         type := OneToOne; propertyName := Some "0" |} ].
Proof. split; reflexivity. Qed.

(** C8, amended: a document that is not an object for [typeof] ([null], a
    boolean, a number or a string; an array is one) yields the empty
    sequence. [traverse] has no operation that throws: it returns a list
    on every input. *)
Theorem non_object_document_yields_nothing (schema : json) (schemaName : string) :
  isObject schema = false ->
  extractSchemaReferences schema schemaName = [].
Proof.
  intros H. unfold extractSchemaReferences. now rewrite traverse_eq, H.
Qed.

Lemma non_object_document_yields_nothing_witness :
  isObject (JStr "not a schema") = false /\
  extractSchemaReferences (JStr "not a schema") "broken.json" = [].
Proof.
  split; [reflexivity|].
  apply non_object_document_yields_nothing. reflexivity.
Defined.

(** ** Array cardinality *)

(** C6, as stated, fails: the [$ref] below stands directly on the [items]
    object of a node whose [type] is ["array"], and it is not collected: the
    array is the value of a property that is itself named [items]. *)
Lemma array_items_under_items_key_not_collected :
  isArrayTyped line_items = true /\
  getProp line_items "items" = Some (JObj [("$ref", JStr "item.schema.json")]) /\
  order_document =
    JObj [("type", JStr "object");
          ("properties", JObj [("items", line_items)])] /\
  extractSchemaReferences order_document "order.schema.json" = [].
Proof. repeat split. Qed.

(** C6, amended: at a node the traversal reaches, a cross-file [$ref]
    directly on the [items] object of the node, when the node's [type] is
    ["array"], is collected as one-to-many, and the same [$ref] directly on
    the value of any other entry is collected as one-to-one. *)
Theorem array_items_cardinality
  (schemaName : string) (root node : json) (pn : string) (pia : bool)
  (ref m : string) :
  Visits root node pn pia ->
  matchBeforeHash ref = Some m ->
  endsWith m ".json" = true ->
  (forall it,
      isArrayTyped node = true ->
      getProp node "items" = Some it ->
      getProp it "$ref" = Some (JStr ref) ->
      In {| from := schemaName; to := resolveTarget schemaName m;
            refPath := ref; type := OneToMany; propertyName := Some pn |}
         (extractSchemaReferences root schemaName))
  /\
  (forall key value,
      In (key, value) (ownEntries node) ->
      key <> "items" ->
      getProp value "$ref" = Some (JStr ref) ->
      In {| from := schemaName; to := resolveTarget schemaName m;
            refPath := ref; type := OneToOne; propertyName := Some key |}
         (extractSchemaReferences root schemaName)).
Proof.
  intros Hv Hm He.
  assert (Hobj : forall w, getProp w "$ref" = Some (JStr ref) ->
                           isObject w = true).
  { intros w Hw. destruct w; try discriminate Hw; reflexivity. }
  split.
  - intros it Harr Hit Href.
    apply (visits_collect schemaName root it pn true).
    + eapply visits_items; eauto.
    + rewrite (collectRef_intro _ _ _ _ _ _ Href Hm He). now left.
  - intros key value Hin Hkey Href.
    apply (visits_collect schemaName root value key false).
    + eapply visits_entry; eauto.
    + rewrite (collectRef_intro _ _ _ _ _ _ Href Hm He). now left.
Qed.

Lemma array_items_cardinality_witness :
  Visits tagged_list tagged_list EmptyString false /\
  matchBeforeHash "a.json" = Some "a.json" /\
  endsWith "a.json" ".json" = true /\
  In {| from := "c.json"; to := "a.json"; refPath := "a.json";
        type := OneToMany; propertyName := Some EmptyString |}
     (extractSchemaReferences tagged_list "c.json") /\
  In {| from := "c.json"; to := "a.json"; refPath := "a.json";
        type := OneToOne; propertyName := Some "owner" |}
     (extractSchemaReferences tagged_list "c.json").
Proof.
  assert (Hv : Visits tagged_list tagged_list EmptyString false)
    by (apply visits_root; reflexivity).
  assert (Hm : matchBeforeHash "a.json" = Some "a.json") by reflexivity.
  assert (He : endsWith "a.json" ".json" = true) by reflexivity.
  destruct (array_items_cardinality "c.json" _ _ _ _ _ _ Hv Hm He)
    as [Hmany Hone].
  split; [exact Hv|]. split; [exact Hm|]. split; [exact He|]. split.
  - apply (Hmany (JObj [("$ref", JStr "a.json")])); reflexivity.
  - apply (Hone "owner" (JObj [("$ref", JStr "a.json")])).
    + right. right. left. reflexivity.
    + discriminate.
    + reflexivity.
Defined.

(** ** [items] outside arrays *)

(** C10: whatever stands inside the [items] value of a node whose [type]
    is absent or not ["array"], wherever the node stands in the document,
    contributes no relationship: the extraction is the one of the document
    without that entry, and it is the same for any other [items] value. *)
Theorem items_of_non_array_never_collected
  (schemaName : string) (c : Position) (l1 l2 : list (string * json))
  (v : json) :
  isArrayTyped (JObj (l1 ++ ("items", v) :: l2)) = false ->
  extractSchemaReferences (plug c (JObj (l1 ++ ("items", v) :: l2))) schemaName
  = extractSchemaReferences (plug c (JObj (l1 ++ l2))) schemaName
  /\
  forall v',
    extractSchemaReferences (plug c (JObj (l1 ++ ("items", v) :: l2))) schemaName
    = extractSchemaReferences (plug c (JObj (l1 ++ ("items", v') :: l2)))
        schemaName.
Proof.
  intros Harr.
  assert (Hdrop : forall w,
    isArrayTyped (JObj (l1 ++ ("items", w) :: l2)) = false ->
    extractSchemaReferences (plug c (JObj (l1 ++ ("items", w) :: l2))) schemaName
    = extractSchemaReferences (plug c (JObj (l1 ++ l2))) schemaName).
  { intros w Hw. unfold extractSchemaReferences.
    apply traverse_plug; try reflexivity.
    intros path pn pia. now apply traverse_skip_items. }
  split; [now apply Hdrop|].
  intros v'. rewrite (Hdrop v Harr). symmetry. apply Hdrop.
  rewrite <- Harr. unfold isArrayTyped. cbn [getProp].
  rewrite !assoc_middle. destruct (assoc "type" l1); reflexivity.
Qed.

Lemma items_of_non_array_never_collected_witness :
  isArrayTyped (JObj ([] ++ ("items", line_items) :: [])) = false /\
  extractSchemaReferences
    (plug (InObject [("type", JStr "object")] "properties" Here [])
       (JObj ([] ++ ("items", line_items) :: []))) "order.schema.json"
  = extractSchemaReferences
      (plug (InObject [("type", JStr "object")] "properties" Here [])
         (JObj ([] ++ []))) "order.schema.json".
Proof.
  split; [reflexivity|].
  apply (items_of_non_array_never_collected "order.schema.json"
           (InObject [("type", JStr "object")] "properties" Here [])
           [] [] line_items).
  reflexivity.
Defined.

(** ** Layout failure *)

(** C7: when the layout computation [layoutGraph] awaits fails, the call
    settles normally with the nodes and the edges it was given, unchanged,
    after writing the error to the console. *)
Theorem layout_failure_fallback
  (toNumber : json -> completion number)
  (elkLayout : Elk.Graph -> completion Elk.Layout)
  (nodes : list Node.t) (es : list Edge.t)
  (graph : Elk.Graph) (error : JsError) :
  elkGraph toNumber nodes es = Returns graph ->
  elkLayout graph = Throws error ->
  layoutGraph toNumber elkLayout nodes es
  = {| console := [error]; settled := Returns (nodes, es) |}.
Proof.
  intros Hg Hl. unfold layoutGraph. now rewrite Hg, Hl.
Qed.

Lemma layout_failure_fallback_witness :
  elkGraph (fun _ => Returns NaN) [lone_node] [] = Returns lone_graph /\
  failing_layout lone_graph = Throws (Error "layout failed") /\
  layoutGraph (fun _ => Returns NaN) failing_layout [lone_node] []
  = {| console := [Error "layout failed"];
       settled := Returns ([lone_node], []) |}.
Proof.
  assert (Hg : elkGraph (fun _ => Returns NaN) [lone_node] []
               = Returns lone_graph) by (vm_compute; reflexivity).
  split; [exact Hg|]. split; [reflexivity|].
  exact (layout_failure_fallback _ failing_layout _ _ _ _ Hg eq_refl).
Defined.

(** ** Idempotence *)

(** C9: two calls of [createSchemaGraph], one after the other, on the
    same three objects complete alike. The first call leaves its three
    arguments as it found them, so the second has identical inputs, and
    both throw the same exception or both return: then the two results
    are different objects that hold the same nodes in the same order,
    with the same data, and the same edges; they are the nodes and edges
    that [createSchemaGraph] computes from the contents of the arguments,
    and the second call leaves the result of the first as it was. *)
Theorem createSchemaGraph_twice
  (h : Heap.t) (schemas relationships expandedNodes : Heap.loc)
  (documents : JsMap.t json) (rels : list SchemaRelationship)
  (expanded : JsSet.t)
  (r1 r2 : completion (Heap.loc * Heap.loc)) (h1 h2 : Heap.t) :
  Heap.read schemas h = Some (Heap.Documents documents) ->
  Heap.read relationships h = Some (Heap.Relationships rels) ->
  Heap.read expandedNodes h = Some (Heap.Names expanded) ->
  Stateful.createSchemaGraph schemas relationships expandedNodes h = (r1, h1) ->
  Stateful.createSchemaGraph schemas relationships expandedNodes h1 = (r2, h2) ->
  (Heap.read schemas h1 = Some (Heap.Documents documents) /\
   Heap.read relationships h1 = Some (Heap.Relationships rels) /\
   Heap.read expandedNodes h1 = Some (Heap.Names expanded)) /\
  match r1, r2 with
  | Returns g1, Returns g2 =>
      fst g1 <> fst g2 /\ snd g1 <> snd g2 /\
      exists nodes es,
        graphAt h1 g1 = Some (nodes, es) /\
        graphAt h2 g1 = Some (nodes, es) /\
        graphAt h2 g2 = Some (nodes, es) /\
        createSchemaGraph documents rels expanded = Returns (nodes, es)
  | Throws e1, Throws e2 =>
      e1 = e2 /\ createSchemaGraph documents rels expanded = Throws e1
  | _, _ => False
  end.
Proof.
  intros Hs Hr He H1 H2.
  destruct (HeapFacts.call_spec h schemas relationships expandedNodes
              _ _ _ Hs Hr He) as (locals1 & Hh1 & Hc1).
  rewrite H1 in Hh1, Hc1. cbn [fst snd] in Hh1, Hc1. subst h1.
  pose proof (HeapFacts.read_old h locals1 _ _ Hs) as Hs1.
  pose proof (HeapFacts.read_old h locals1 _ _ Hr) as Hr1.
  pose proof (HeapFacts.read_old h locals1 _ _ He) as He1.
  split; [auto|].
  destruct (HeapFacts.call_spec (h ++ locals1) schemas relationships
              expandedNodes _ _ _ Hs1 Hr1 He1) as (locals2 & Hh2 & Hc2).
  rewrite H2 in Hh2, Hc2. cbn [fst snd] in Hh2, Hc2. subst h2.
  destruct (createSchemaGraph documents rels expanded) as [[nodes es]|e].
  - destruct Hc1 as (-> & Hn1 & He1'). destruct Hc2 as (-> & Hn2 & He2').
    cbn [fst snd].
    assert (Hlen : (2 <= length locals1)%nat).
    { apply nth_error_Some. congruence. }
    rewrite length_app.
    split; [lia|]. split; [lia|].
    exists nodes, es. unfold graphAt. cbn [fst snd].
    split; [now rewrite !HeapFacts.read_new, Hn1, He1'|].
    split.
    + rewrite <- !app_assoc, !HeapFacts.read_new.
      rewrite !(nth_error_app1 locals1 locals2) by lia.
      now rewrite Hn1, He1'.
    + rewrite <- length_app, !HeapFacts.read_new. now rewrite Hn2, He2'.
  - rewrite Hc1, Hc2. auto.
Qed.

Lemma createSchemaGraph_twice_witness :
  exists g1 h1 g2 h2 nodes es,
    Stateful.createSchemaGraph 0 1 2 scenario_heap = (Returns g1, h1) /\
    Stateful.createSchemaGraph 0 1 2 h1 = (Returns g2, h2) /\
    fst g1 <> fst g2 /\
    graphAt h2 g1 = Some (nodes, es) /\
    graphAt h2 g2 = Some (nodes, es) /\
    map Node.id nodes = ["a.json"; "b.json"; "c.json"] /\
    length es = 2%nat.
Proof.
  destruct (Stateful.createSchemaGraph 0 1 2 scenario_heap) as [r1 h1] eqn:H1.
  destruct (Stateful.createSchemaGraph 0 1 2 h1) as [r2 h2] eqn:H2.
  pose proof (createSchemaGraph_twice scenario_heap 0 1 2 _ _ _ r1 r2 h1 h2
                eq_refl eq_refl eq_refl H1 H2) as [_ Hboth].
  vm_compute in H1. injection H1 as <- <-.
  vm_compute in H2. injection H2 as <- <-.
  destruct Hboth as (Hfresh & _ & nodes & es & _ & Hg1 & Hg2 & Hpure).
  vm_compute in Hpure. injection Hpure as <- <-.
  exists (3, 4)%nat. eexists. exists (10, 11)%nat. eexists. eexists. eexists.
  split; [reflexivity|]. split; [vm_compute; reflexivity|].
  split; [exact Hfresh|]. split; [exact Hg1|]. split; [exact Hg2|].
  split; reflexivity.
Defined.

(** ** Deduplication *)

(** C4: the code fails the claim. Of the relationships extracted from
    [colliding_schemas] two go from [order] to [line-item.json], both
    documents of the collection, the third resolves to another pair of
    nodes, and the one edge from [order] to [line-item.json] has count 3:
    the third relationship has the same key ["order-line-item.json"] and
    lands in the same group, which the loop over the groups takes for the
    relationships of its first member's pair. *)
Lemma dedup_count_with_colliding_key :
  length (filter (samePair "order" "line-item.json")
            (extractAll colliding_schemas)) = 2
  /\ In "order" (map fst colliding_schemas)
  /\ In "line-item.json" (map fst colliding_schemas)
  /\ (forall r, In r (extractAll colliding_schemas) ->
        samePair "order" "line-item.json" r = false ->
        (resolveNode (nodeIdsOf colliding_schemas) (from r),
         resolveNode (nodeIdsOf colliding_schemas) (to r))
        <> ("order", "line-item.json"))
  /\ exists nodes es,
       createSchemaGraph colliding_schemas (extractAll colliding_schemas) []
       = Returns (nodes, es) /\
       map (fun e => (Edge.source e, Edge.target e,
                      Edge.count (Edge.data e), Edge.type (Edge.data e))) es
       = [("order", "line-item.json", 3, Multiple)].
Proof.
  split; [reflexivity|]. split; [now left|].
  split; [right; right; now left|]. split.
  - intros r Hr Hpair. vm_compute in Hr.
    destruct Hr as [<-|[<-|[<-|[]]]]; try discriminate Hpair.
    vm_compute. discriminate.
  - eexists. eexists. split; [vm_compute; reflexivity|reflexivity].
Qed.

(** Where no key collides the invariant holds: when [createSchemaGraph]
    returns, [N >= 2] relationships go from [f] to [t], both documents of
    the collection, no other relationship has the key [f + "-" + t], and
    no other relationship resolves to two nodes whose edge identifier is
    [f + "-" + t], then exactly one edge goes from [f] to [t]; its count
    is [N] and its class is multiple. *)
Theorem dedup_invariant
  (schemas : JsMap.t json) (relationships : list SchemaRelationship)
  (expandedNodes : JsSet.t) (nodes : list Node.t) (es : list Edge.t)
  (f t : string) (N : nat) :
  createSchemaGraph schemas relationships expandedNodes = Returns (nodes, es) ->
  (2 <= N)%nat ->
  length (filter (samePair f t) relationships) = N ->
  In f (map fst schemas) ->
  In t (map fst schemas) ->
  (forall r, In r relationships -> groupKey r = edgeId f t ->
             from r = f /\ to r = t) ->
  (forall r, In r relationships ->
     let fromNode := resolveNode (nodeIdsOf schemas) (from r) in
     let toNode := resolveNode (nodeIdsOf schemas) (to r) in
     has (nodeIdsOf schemas) fromNode = true ->
     has (nodeIdsOf schemas) toNode = true ->
     edgeId fromNode toNode = edgeId f t ->
     from r = f /\ to r = t) ->
  exists e,
    filter (joins f t) es = [e] /\
    Edge.count (Edge.data e) = N /\
    Edge.type (Edge.data e) = Multiple.
Proof.
  intros Hgraph HN Hlen Hf Ht Hkey Hid.
  apply createSchemaGraph_inv in Hgraph as (_ & -> & _).
  set (ids := nodeIdsOf schemas) in *.
  set (K := edgeId f t) in *.
  set (G := groupRelationships relationships).
  (* the group of the pair *)
  assert (Hgroup : filter (fun r => groupKey r =? K) relationships
                   = filter (samePair f t) relationships).
  { apply filter_ext_in. intros r Hr. unfold samePair.
    destruct (String.eqb_spec (groupKey r) K) as [Hk|Hk].
    - destruct (Hkey r Hr Hk) as [-> ->]. now rewrite !String.eqb_refl.
    - destruct (String.eqb_spec (from r) f) as [Hfr|]; [|reflexivity].
      destruct (String.eqb_spec (to r) t) as [Hto|]; [|reflexivity].
      exfalso. apply Hk. unfold groupKey, K, edgeId. now rewrite Hfr, Hto. }
  remember (filter (samePair f t) relationships) as g0 eqn:Eg0.
  destruct g0 as [|rel0 g0']; [cbn in Hlen; lia|].
  assert (Hrel0 : from rel0 = f /\ to rel0 = t).
  { assert (Hin : In rel0 (filter (samePair f t) relationships))
      by (rewrite <- Eg0; now left).
    apply filter_In in Hin as [_ Hp]. unfold samePair in Hp.
    apply andb_true_iff in Hp as [H1 H2].
    now apply String.eqb_eq in H1, H2. }
  destruct Hrel0 as [Hfrom0 Hto0].
  assert (HinG : In (K, rel0 :: g0') G).
  { apply JsMapFacts.get_In. unfold G. now rewrite groups_get, Hgroup. }
  assert (Hhf : has ids f = true) by now apply nodeIdsOf_has.
  assert (Hht : has ids t = true) by now apply nodeIdsOf_has.
  assert (Hresf : resolveNode ids f = f) by (unfold resolveNode; now rewrite Hhf).
  assert (Hrest : resolveNode ids t = t) by (unfold resolveNode; now rewrite Hht).
  set (e0 := groupEdge f t rel0 (rel0 :: g0')).
  assert (Hc0 : candidate ids (K, rel0 :: g0') = Some e0).
  { unfold candidate. cbn [snd]. cbv zeta.
    rewrite Hfrom0, Hto0, Hresf, Hrest, Hhf, Hht. reflexivity. }
  destruct (groupEdge_fields f t rel0 (rel0 :: g0'))
    as (Hid0 & Hsrc0 & Htgt0 & Hcount0).
  fold e0 in Hid0, Hsrc0, Htgt0, Hcount0.
  (* no other group asks for the identifier K *)
  assert (Huniq : forall g' e', In g' G -> candidate ids g' = Some e' ->
                                Edge.id e' = Edge.id e0 -> g' = (K, rel0 :: g0')).
  { intros [k' rs'] e' Hg' Hc' He'.
    destruct (groups_In _ _ _ Hg') as [Hrs' _].
    unfold candidate in Hc'. cbn [snd] in Hc'.
    destruct rs' as [|rel' rs'']; [discriminate|]. cbv zeta in Hc'.
    destruct (has ids (resolveNode ids (from rel'))) eqn:E1; [|discriminate].
    destruct (has ids (resolveNode ids (to rel'))) eqn:E2; [|discriminate].
    cbn [andb] in Hc'. injection Hc' as <-.
    destruct (groupEdge_fields (resolveNode ids (from rel'))
                (resolveNode ids (to rel')) rel' (rel' :: rs''))
      as (Hid' & _).
    rewrite Hid', Hid0 in He'.
    assert (Hin' : In rel' (filter (fun r => groupKey r =? k') relationships))
      by (rewrite <- Hrs'; now left).
    apply filter_In in Hin' as [Hin' Hk'].
    apply String.eqb_eq in Hk'.
    destruct (Hid rel' Hin' E1 E2 He') as [Hfr' Hto'].
    assert (HkK : k' = K) by (rewrite <- Hk'; unfold groupKey, K, edgeId;
                              now rewrite Hfr', Hto').
    rewrite Hrs', HkK, Hgroup. reflexivity. }
  pose proof (loop_consistent ids G
                {| edges := []; edgeIds := []; matchedCount := 0;
                   unmatchedCount := 0 |}) as Hcons.
  destruct Hcons as [Hids Hnd]; [split; [reflexivity|constructor]|].
  unfold buildEdges. fold G.
  exists e0. split; [|split].
  - apply (filter_unique _ Edge.id).
    + now rewrite <- Hids.
    + apply (loop_complete ids G _ (K, rel0 :: g0')); auto.
    + unfold joins. now rewrite Hsrc0, Htgt0, !String.eqb_refl.
    + intros b Hb Hjoin.
      apply loop_sound in Hb as [[]|(g' & Hg' & Hc')].
      unfold joins in Hjoin. apply andb_true_iff in Hjoin as [H1 H2].
      apply String.eqb_eq in H1, H2.
      assert (Hidb : Edge.id b = Edge.id e0).
      { rewrite (candidate_id _ _ _ Hc'), H1, H2, Hid0. reflexivity. }
      rewrite (Huniq g' b Hg' Hc' Hidb) in Hc'. congruence.
  - rewrite Hcount0. exact Hlen.
  - apply groupEdge_multiple. lia.
Qed.

Lemma dedup_invariant_witness :
  exists e,
    filter (joins "order" "line-item.json")
      (match createSchemaGraph order_schemas (extractAll order_schemas) [] with
       | Returns (_, es) => es
       | Throws _ => []
       end) = [e] /\
    Edge.count (Edge.data e) = 2 /\
    Edge.type (Edge.data e) = Multiple.
Proof.
  assert (Hg : exists nodes es,
             createSchemaGraph order_schemas (extractAll order_schemas) []
             = Returns (nodes, es)).
  { eexists. eexists. vm_compute. reflexivity. }
  destruct Hg as (nodes & es & Hg). rewrite Hg.
  apply (dedup_invariant order_schemas (extractAll order_schemas) [] nodes es
           "order" "line-item.json" 2 Hg).
  - lia.
  - reflexivity.
  - now left.
  - right. now left.
  - intros r Hr _. vm_compute in Hr.
    destruct Hr as [<-|[<-|[]]]; split; reflexivity.
  - intros r Hr. vm_compute in Hr.
    destruct Hr as [<-|[<-|[]]]; cbv zeta; intros _ _ _; split; reflexivity.
Defined.

(** * Further properties *)

(** ** More on strings *)

Module SegmentFacts.
Import JsString JsStringFacts.

Lemma split_whole t sep : includes t sep = false -> split t sep = [t].
Proof.
  induction t as [|b t IH]; cbn [includes split]; intros H; [reflexivity|].
  apply orb_false_iff in H as [Hb Ht]. rewrite Hb, (IH Ht). reflexivity.
Qed.

Lemma split_app_sep a b sep :
  includes a sep = false ->
  split (a ++ String sep b) sep = a :: split b sep.
Proof.
  induction a as [|c a IH]; cbn [includes String.append split]; intros H.
  - now rewrite Ascii.eqb_refl.
  - apply orb_false_iff in H as [Hc Ha]. rewrite Hc, (IH Ha). reflexivity.
Qed.

(** No segment of a split contains the separator. *)
Lemma split_segments s sep :
  Forall (fun seg => includes seg sep = false) (split s sep).
Proof.
  induction s as [|a s IH]; cbn [split].
  - repeat constructor.
  - destruct (Ascii.eqb a sep) eqn:E; [now constructor|].
    destruct (split s sep) as [|seg segs].
    + repeat constructor. cbn [includes]. now rewrite E.
    + inversion IH as [|? ? Hseg Hsegs]; subst. constructor; [|exact Hsegs].
      cbn [includes]. now rewrite E, Hseg.
Qed.

(** Splitting what was joined gives the parts back. *)
Lemma split_join parts sep :
  parts <> [] ->
  Forall (fun seg => includes seg sep = false) parts ->
  split (join parts (String sep EmptyString)) sep = parts.
Proof.
  unfold join. induction parts as [|p parts IH]; intros Hne Hall;
    [congruence|].
  inversion Hall as [|? ? Hp Hparts]; subst.
  destruct parts as [|q parts].
  - cbn [String.concat]. now apply split_whole.
  - change (String.concat (String sep EmptyString) (p :: q :: parts))
      with (p ++ String sep (String.concat (String sep EmptyString) (q :: parts)))%string.
    rewrite split_app_sep by exact Hp. f_equal. apply IH; [discriminate|exact Hparts].
Qed.

Lemma includes_app a b c :
  includes (a ++ b) c = includes a c || includes b c.
Proof.
  induction a as [|x a IH]; cbn [String.append includes]; [reflexivity|].
  now rewrite IH, orb_assoc.
Qed.

Lemma lastIndexOf_from_absent f c i acc :
  includes f c = false -> lastIndexOf_from f c i acc = acc.
Proof.
  revert i acc. induction f as [|x f IH]; cbn [includes lastIndexOf_from];
    intros i acc H; [reflexivity|].
  apply orb_false_iff in H as [Hx Hf]. now rewrite Hx, IH.
Qed.

Lemma lastIndexOf_from_last a f c i acc :
  includes f c = false ->
  lastIndexOf_from (a ++ String c f) c i acc
  = (i + Z.of_nat (String.length a))%Z.
Proof.
  intros Hf. revert i acc.
  induction a as [|x a IH]; intros i acc;
    cbn [String.append lastIndexOf_from String.length].
  - rewrite Ascii.eqb_refl, lastIndexOf_from_absent by exact Hf.
    cbn [Z.of_nat]. lia.
  - rewrite IH. lia.
Qed.

Lemma substring_prefix a rest :
  String.substring 0 (String.length a) (a ++ rest) = a.
Proof.
  induction a as [|x a IH]; cbn [String.length String.append String.substring].
  - destruct rest; reflexivity.
  - now rewrite IH.
Qed.

Lemma length_app a b :
  String.length (a ++ b) = (String.length a + String.length b)%nat.
Proof. induction a as [|x a IH]; cbn [String.append String.length]; lia. Qed.

(** The directory of [a/f] is [a]. *)
Lemma dirOf_file a f :
  includes f "/" = false -> dirOf (a ++ String "/" f) = a.
Proof.
  intros Hf. unfold dirOf, lastIndexOf, substring, clamp.
  rewrite lastIndexOf_from_last by exact Hf.
  rewrite length_app. cbn [String.length].
  replace (Z.min _ _) with 0%Z by lia.
  replace (Z.max (Z.max 0 (Z.min _ _)) _ - 0)%Z
    with (Z.of_nat (String.length a)) by lia.
  change (Z.to_nat 0) with 0%nat. rewrite Nat2Z.id. apply substring_prefix.
Qed.

(** A path without ['/'] has the empty directory. *)
Lemma dirOf_bare f : includes f "/" = false -> dirOf f = EmptyString.
Proof.
  intros Hf. unfold dirOf, lastIndexOf, substring, clamp.
  rewrite lastIndexOf_from_absent by exact Hf.
  replace (Z.min (Z.max 0 (Z.min 0 _)) _) with 0%Z by lia.
  replace (Z.max (Z.max 0 (Z.min 0 _)) _ - 0)%Z with 0%Z by lia.
  destruct f; reflexivity.
Qed.

End SegmentFacts.

(** ** More on path resolution *)

Module ResolveMore.
Import JsString JsStringFacts SegmentFacts.

Lemma segments_of_split s :
  Forall segment (filter nonEmpty (split s "/")).
Proof.
  apply Forall_forall. intros seg Hin. apply filter_In in Hin as [Hin Hne].
  split; [exact Hne|].
  pose proof (split_segments s "/") as H. rewrite Forall_forall in H. auto.
Qed.

Lemma Forall_removelast {A} (P : A -> Prop) l :
  Forall P l -> Forall P (removelast l).
Proof.
  induction 1 as [|a l Ha Hl IH]; [constructor|].
  cbn [removelast]. destruct l; [constructor|]. now constructor.
Qed.

Lemma resolveStep_segments parts part :
  Forall segment parts -> segment part -> Forall segment (resolveStep parts part).
Proof.
  intros Hparts Hpart. unfold resolveStep.
  destruct (part =? ".."); [now apply Forall_removelast|].
  destruct (negb (part =? ".")); [|exact Hparts].
  apply Forall_app. split; [exact Hparts|now constructor].
Qed.

Lemma fold_resolveStep_segments rel base :
  Forall segment base -> Forall segment rel ->
  Forall segment (fold_left resolveStep rel base).
Proof.
  revert base. induction rel as [|part rel IH]; intros base Hb Hr; [exact Hb|].
  inversion Hr; subst. cbn [fold_left]. apply IH; [|assumption].
  now apply resolveStep_segments.
Qed.

Lemma split_nonempty s sep : split s sep <> [].
Proof.
  destruct s as [|a s]; cbn [split]; [discriminate|].
  destruct (Ascii.eqb a sep); [discriminate|].
  destruct (split s sep); discriminate.
Qed.

(** Splitting distributes over a separator. *)
Lemma split_app a b sep :
  split (a ++ String sep b) sep = split a sep ++ split b sep.
Proof.
  induction a as [|c a IH]; cbn [String.append split].
  - now rewrite Ascii.eqb_refl.
  - rewrite IH. destruct (Ascii.eqb c sep); [reflexivity|].
    pose proof (split_nonempty a sep) as Hne.
    destruct (split a sep) as [|seg segs]; [congruence|reflexivity].
Qed.

Lemma startsWith_includes s p c :
  startsWith s p = true -> includes p c = true -> includes s c = true.
Proof.
  revert s. induction p as [|b p IH]; intros s Hs Hp; [discriminate|].
  destruct s as [|a s]; [discriminate|].
  cbn [startsWith] in Hs. apply andb_true_iff in Hs as [Hab Hs].
  apply Ascii.eqb_eq in Hab. subst b.
  cbn [includes] in *. apply orb_true_iff in Hp as [Hp|Hp].
  - now rewrite Hp.
  - rewrite (IH s Hs Hp). apply orb_true_r.
Qed.

Lemma bare_not_relative r :
  includes r "/" = false ->
  startsWith r "../" || startsWith r "./" = false.
Proof.
  intros Hr. apply orb_false_iff. split.
  - destruct (startsWith r "../") eqn:E; [|reflexivity].
    rewrite (startsWith_includes _ _ "/" E) in Hr by reflexivity. discriminate.
  - destruct (startsWith r "./") eqn:E; [|reflexivity].
    rewrite (startsWith_includes _ _ "/" E) in Hr by reflexivity. discriminate.
Qed.

End ResolveMore.

(** ** More on entity types *)

Module EntityFacts.
Import JsString JsStringFacts SegmentFacts ResolveMore.

Lemma stripSchemaJson_eq s :
  stripSchemaJson s =
  if s =? ".schema.json" then EmptyString
  else match s with
       | EmptyString => EmptyString
       | String a s' => String a (stripSchemaJson s')
       end.
Proof. destruct s; reflexivity. Qed.

(** The suffix lies after the last ['/']. *)
Lemma stripSchemaJson_dir a rest :
  stripSchemaJson (a ++ String "/" rest)
  = (a ++ String "/" (stripSchemaJson rest))%string.
Proof.
  assert (Hne : forall s, includes s "/" = true ->
                          (s =? ".schema.json") = false).
  { intros s Hs. apply String.eqb_neq. intros ->. discriminate Hs. }
  induction a as [|c a IH]; cbn [String.append].
  - rewrite stripSchemaJson_eq, Hne; [reflexivity|].
    cbn [includes]. now rewrite Ascii.eqb_refl.
  - rewrite stripSchemaJson_eq, Hne, IH; [reflexivity|].
    cbn [includes]. rewrite includes_app. cbn [includes].
    rewrite Ascii.eqb_refl. cbn [orb]. now rewrite !orb_true_r.
Qed.

Lemma stripSchemaJson_suffix f :
  stripSchemaJson (f ++ ".schema.json") = f.
Proof.
  induction f as [|c f IH]; [reflexivity|].
  cbn [String.append]. rewrite stripSchemaJson_eq, IH.
  assert (Hne : (String c (f ++ ".schema.json") =? ".schema.json") = false).
  { apply String.eqb_neq. intros H. apply (f_equal String.length) in H.
    cbn [String.length] in H. rewrite length_app in H. cbn [String.length] in H.
    lia. }
  now rewrite Hne.
Qed.

End EntityFacts.

(** ** Path resolution and entity types, stated *)

Import SegmentFacts ResolveMore EntityFacts.

(** X1: a resolved relative path is normalised: it is empty, or split at
    ['/'] it has no empty segment (no leading, trailing or doubled
    slash). *)
Theorem resolveRelativePath_normalised (basePath relativePath : string) :
  resolveRelativePath basePath relativePath = EmptyString \/
  Forall segment (split (resolveRelativePath basePath relativePath) "/").
Proof.
  unfold resolveRelativePath.
  set (parts := fold_left resolveStep _ _).
  assert (Hparts : Forall segment parts)
    by (apply fold_resolveStep_segments; apply segments_of_split).
  destruct parts as [|p0 ps] eqn:E; [now left|right].
  rewrite split_join; [exact Hparts|discriminate|].
  eapply Forall_impl; [|exact Hparts]. now intros seg [_ H].
Qed.

(** X2: a leading [./] changes nothing. *)
Theorem resolveRelativePath_dot (basePath rest : string) :
  resolveRelativePath basePath ("./" ++ rest)
  = resolveRelativePath basePath rest.
Proof.
  unfold resolveRelativePath.
  change ("./" ++ rest)%string with ("." ++ String "/" rest)%string.
  rewrite split_app_sep by reflexivity. reflexivity.
Qed.

(** X3: a leading [../] moves to the parent directory: from a document in
    the directory [dir/sub], [../rest] resolves as [rest] does from a
    document in [dir]. *)
Theorem resolveRelativePath_parent (dir sub file file' rest : string) :
  segment sub ->
  includes file "/" = false ->
  includes file' "/" = false ->
  resolveRelativePath (dir ++ "/" ++ sub ++ "/" ++ file) ("../" ++ rest)
  = resolveRelativePath (dir ++ "/" ++ file') rest.
Proof.
  intros [Hne Hsub] Hf Hf'. unfold resolveRelativePath.
  change (dir ++ "/" ++ sub ++ "/" ++ file)%string
    with (dir ++ String "/" (sub ++ String "/" file))%string.
  replace (dir ++ String "/" (sub ++ String "/" file))%string
    with ((dir ++ String "/" sub) ++ String "/" file)%string.
  2:{ clear. induction dir as [|c dir IH]; cbn [String.append];
      [reflexivity|now rewrite IH]. }
  change (dir ++ "/" ++ file')%string with (dir ++ String "/" file')%string.
  rewrite !dirOf_file by assumption.
  change ("../" ++ rest)%string with (".." ++ String "/" rest)%string.
  rewrite (split_app_sep ".." rest) by reflexivity.
  rewrite split_app, (split_whole sub) by exact Hsub.
  rewrite filter_app. cbn [filter nonEmpty]. rewrite Hne. cbn [fold_left].
  assert (Hstep : forall l, resolveStep (l ++ [sub]) ".." = l).
  { intros l. unfold resolveStep. rewrite String.eqb_refl.
    apply removelast_last. }
  now rewrite Hstep.
Qed.

Lemma resolveRelativePath_parent_witness :
  segment "user" /\
  includes "user.schema.json" "/" = false /\
  includes "index.json" "/" = false /\
  resolveRelativePath ("v1" ++ "/" ++ "user" ++ "/" ++ "user.schema.json")
    ("../" ++ "address/address.schema.json")
  = resolveRelativePath ("v1" ++ "/" ++ "index.json")
      "address/address.schema.json".
Proof.
  assert (Hs : segment "user") by (split; reflexivity).
  split; [exact Hs|]. split; [reflexivity|]. split; [reflexivity|].
  exact (resolveRelativePath_parent "v1" "user" "user.schema.json"
           "index.json" "address/address.schema.json" Hs eq_refl eq_refl).
Defined.

(** X4: from a document outside any directory, [../] has nowhere to go and
    is dropped. *)
Theorem resolveRelativePath_parent_of_top (file rest : string) :
  includes file "/" = false ->
  resolveRelativePath file ("../" ++ rest) = resolveRelativePath file rest.
Proof.
  intros Hf. unfold resolveRelativePath. rewrite dirOf_bare by exact Hf.
  change ("../" ++ rest)%string with (".." ++ String "/" rest)%string.
  rewrite (split_app_sep ".." rest) by reflexivity. reflexivity.
Qed.

Lemma resolveRelativePath_parent_of_top_witness :
  includes "user.schema.json" "/" = false /\
  resolveRelativePath "user.schema.json" ("../" ++ "role.schema.json")
  = resolveRelativePath "user.schema.json" "role.schema.json".
Proof.
  split; [reflexivity|].
  exact (resolveRelativePath_parent_of_top "user.schema.json"
           "role.schema.json" eq_refl).
Defined.

(** X5: a bare file name is a sibling: from the document [dir/file] it
    resolves to [dir/name], and from a document outside any directory to
    [name] itself. *)
Theorem resolveTarget_sibling (dir file name : string) :
  nonEmpty dir = true ->
  includes file "/" = false ->
  includes name "/" = false ->
  resolveTarget (dir ++ "/" ++ file) name = (dir ++ "/" ++ name)%string /\
  resolveTarget file name = name.
Proof.
  intros Hdir Hf Hn. unfold resolveTarget.
  rewrite (bare_not_relative _ Hn), Hn. cbn [negb].
  change (dir ++ "/" ++ file)%string with (dir ++ String "/" file)%string.
  rewrite dirOf_file, dirOf_bare, Hdir by assumption. split; reflexivity.
Qed.

Lemma resolveTarget_sibling_witness :
  nonEmpty "v1/user" = true /\
  includes "user.schema.json" "/" = false /\
  includes "role.schema.json" "/" = false /\
  resolveTarget ("v1/user" ++ "/" ++ "user.schema.json") "role.schema.json"
  = ("v1/user" ++ "/" ++ "role.schema.json")%string /\
  resolveTarget "user.schema.json" "role.schema.json" = "role.schema.json".
Proof.
  split; [reflexivity|]. split; [reflexivity|]. split; [reflexivity|].
  exact (resolveTarget_sibling "v1/user" "user.schema.json" "role.schema.json"
           eq_refl eq_refl eq_refl).
Defined.

(** X6: an entity type is never empty. *)
Theorem extractEntityType_nonEmpty (schemaPath : string) :
  nonEmpty (extractEntityType schemaPath) = true.
Proof.
  unfold extractEntityType.
  set (parts := split _ "/").
  assert (Hlast : nonEmpty (if nonEmpty (last parts EmptyString)
                            then last parts EmptyString else "unknown") = true).
  { destruct (nonEmpty (last parts EmptyString)) eqn:E; [exact E|reflexivity]. }
  destruct parts as [|p0 [|p1 rest]]; try exact Hlast.
  destruct ((p0 =? "v1") && nonEmpty p1) eqn:E; [|exact Hlast].
  now apply andb_true_iff in E.
Qed.

(** X7: under the version marker [v1] the entity type is the directory that
    follows it, whatever comes after. *)
Theorem extractEntityType_v1 (entity rest : string) :
  segment entity ->
  extractEntityType ("v1/" ++ entity ++ "/" ++ rest) = entity.
Proof.
  intros [Hne Hseg]. unfold extractEntityType.
  change ("v1/" ++ entity ++ "/" ++ rest)%string
    with ("v1" ++ String "/" (entity ++ String "/" rest))%string.
  rewrite !stripSchemaJson_dir.
  rewrite (split_app_sep "v1") by reflexivity.
  rewrite split_app_sep by exact Hseg.
  cbn [String.eqb Ascii.eqb Bool.eqb andb]. now rewrite Hne.
Qed.

Lemma extractEntityType_v1_witness :
  segment "user" /\
  extractEntityType ("v1/" ++ "user" ++ "/" ++ "profile/user.schema.json")
  = "user".
Proof.
  assert (Hs : segment "user") by (split; reflexivity).
  split; [exact Hs|].
  exact (extractEntityType_v1 "user" "profile/user.schema.json" Hs).
Defined.

(** X8: for a schema file directly inside one directory the entity type is
    the file name without [.schema.json]. *)
Theorem extractEntityType_file (dir name : string) :
  includes dir "/" = false ->
  segment name ->
  extractEntityType (dir ++ "/" ++ name ++ ".schema.json") = name.
Proof.
  intros Hdir [Hne Hseg]. unfold extractEntityType.
  change (dir ++ "/" ++ name ++ ".schema.json")%string
    with (dir ++ String "/" (name ++ ".schema.json"))%string.
  rewrite stripSchemaJson_dir, stripSchemaJson_suffix.
  rewrite split_app_sep, split_whole by assumption.
  cbn [last]. rewrite Hne. now destruct (dir =? "v1").
Qed.

Lemma extractEntityType_file_witness :
  includes "models" "/" = false /\
  segment "invoice" /\
  extractEntityType ("models" ++ "/" ++ "invoice" ++ ".schema.json")
  = "invoice".
Proof.
  assert (Hs : segment "invoice") by (split; reflexivity).
  split; [reflexivity|]. split; [exact Hs|].
  exact (extractEntityType_file "models" "invoice" eq_refl Hs).
Defined.

(** ** More on reference extraction *)

Import JsString JsStringFacts Json ExtractFacts.

Module ExtractMore.

Lemma traverse_array_of schemaName inner path pn pia :
  traverse schemaName
    (JObj [("type", JStr "array"); ("items", inner)]) path pn pia
  = traverse schemaName inner path pn true.
Proof.
  rewrite traverse_eq. cbn [isObject ownEntries flat_map].
  unfold collectRef, isArrayTyped, traverseItems, traverseEntry.
  cbn [getProp assoc String.eqb Ascii.eqb Bool.eqb fst snd isObject andb negb app].
  rewrite andb_false_r, !app_nil_r.
  destruct (truthy inner) eqn:E; [reflexivity|].
  rewrite traverse_non_object; [reflexivity|].
  destruct inner; try reflexivity; discriminate.
Qed.

Lemma traverse_nestedArray schemaName n inner path pn :
  traverse schemaName (nestedArray (S n) inner) path pn false
  = traverse schemaName inner path pn true.
Proof.
  generalize false. induction n as [|n IH]; intros pia; cbn [nestedArray].
  - apply traverse_array_of.
  - rewrite traverse_array_of. apply IH.
Qed.

Lemma assoc_allEntries k keys value :
  assoc k (map (fun key => (key, value)) keys) = None \/
  assoc k (map (fun key => (key, value)) keys) = Some value.
Proof.
  induction keys as [|key keys IH]; cbn [map assoc]; [now left|].
  destruct (key =? k); [now right|exact IH].
Qed.

End ExtractMore.

Import ExtractMore.

(** X9: every relationship extracted from a document has the document's
    own path as [from], carries a property name, and is one-to-one or
    one-to-many, never multiple. *)
Theorem extracted_shape
  (schema : json) (schemaName : string) (r : SchemaRelationship) :
  In r (extractSchemaReferences schema schemaName) ->
  from r = schemaName /\
  (type r = OneToOne \/ type r = OneToMany) /\
  exists name, propertyName r = Some name.
Proof.
  intros Hin. apply extract_iff_visits in Hin as (node & pn & pia & _ & Hin).
  apply collectRef_inv in Hin as (ref & m & _ & _ & _ & ->).
  cbn [from type propertyName]. split; [reflexivity|]. split.
  - destruct pia; auto.
  - now exists pn.
Qed.

Lemma extracted_shape_witness :
  let r := {| from := "order.json"; to := "item.json"; refPath := "item.json";
              type := OneToMany; propertyName := Some "lines" |} in
  let schema :=
    JObj [("properties",
           JObj [("lines",
                  JObj [("type", JStr "array");
                        ("items", JObj [("$ref", JStr "item.json")])])])] in
  In r (extractSchemaReferences schema "order.json") /\
  from r = "order.json" /\
  (type r = OneToOne \/ type r = OneToMany) /\
  exists name, propertyName r = Some name.
Proof.
  cbv zeta.
  match goal with |- ?A /\ _ => assert (Hin : A) by (left; reflexivity) end.
  split; [exact Hin|]. exact (extracted_shape _ _ _ Hin).
Defined.

(** X10: the array flag goes through arrays of arrays and stops at the
    [items] object: a cross-file [$ref] that is the [items] schema at the
    bottom of [n >= 1] nested arrays is the one relationship extracted,
    and it is one-to-many; put under a property [key] of that [items]
    schema instead, it is one-to-one. *)
Theorem array_flag_reach
  (schemaName ref m key : string) (n : nat) :
  matchBeforeHash ref = Some m ->
  endsWith m ".json" = true ->
  key <> "items" ->
  extractSchemaReferences
    (nestedArray (S n) (JObj [("$ref", JStr ref)])) schemaName
  = [ {| from := schemaName; to := resolveTarget schemaName m;
         refPath := ref; type := OneToMany;
         propertyName := Some EmptyString |} ]
  /\
  extractSchemaReferences
    (nestedArray (S n) (JObj [(key, JObj [("$ref", JStr ref)])])) schemaName
  = [ {| from := schemaName; to := resolveTarget schemaName m;
         refPath := ref; type := OneToOne; propertyName := Some key |} ].
Proof.
  intros Hm He Hkey. unfold extractSchemaReferences.
  rewrite !traverse_nestedArray.
  assert (Hleaf : forall pn pia,
    traverse schemaName (JObj [("$ref", JStr ref)]) EmptyString pn pia
    = [ {| from := schemaName; to := resolveTarget schemaName m;
           refPath := ref; type := if pia then OneToMany else OneToOne;
           propertyName := Some pn |} ]).
  { intros pn pia. rewrite traverse_eq. cbn [isObject ownEntries flat_map].
    rewrite (collectRef_intro _ _ _ _ ref m) by (reflexivity || assumption).
    reflexivity. }
  split; [apply Hleaf|].
  rewrite traverse_eq. cbn [isObject ownEntries flat_map].
  unfold traverseEntry. cbn [fst snd isObject andb].
  apply String.eqb_neq in Hkey. rewrite Hkey. cbn [negb].
  rewrite Hleaf, app_nil_r.
  assert (Hown : collectRef schemaName
                   (JObj [(key, JObj [("$ref", JStr ref)])]) EmptyString true
                 = []).
  { unfold collectRef. cbn [getProp assoc]. now destruct (key =? "$ref"). }
  assert (Harr : isArrayTyped (JObj [(key, JObj [("$ref", JStr ref)])])
                 = false).
  { unfold isArrayTyped. cbn [getProp assoc]. now destruct (key =? "type"). }
  now rewrite Hown, Harr.
Qed.

Lemma array_flag_reach_witness :
  matchBeforeHash "tag.json#/definitions/name" = Some "tag.json" /\
  endsWith "tag.json" ".json" = true /\
  "label" <> "items" /\
  extractSchemaReferences
    (nestedArray 2 (JObj [("$ref", JStr "tag.json#/definitions/name")]))
    "post.json"
  = [ {| from := "post.json"; to := resolveTarget "post.json" "tag.json";
         refPath := "tag.json#/definitions/name"; type := OneToMany;
         propertyName := Some EmptyString |} ]
  /\
  extractSchemaReferences
    (nestedArray 2
       (JObj [("label", JObj [("$ref", JStr "tag.json#/definitions/name")])]))
    "post.json"
  = [ {| from := "post.json"; to := resolveTarget "post.json" "tag.json";
         refPath := "tag.json#/definitions/name"; type := OneToOne;
         propertyName := Some "label" |} ].
Proof.
  assert (Hk : "label" <> "items") by discriminate.
  split; [reflexivity|]. split; [reflexivity|]. split; [exact Hk|].
  exact (array_flag_reach "post.json" "tag.json#/definitions/name" "tag.json"
           "label" 1 eq_refl eq_refl Hk).
Defined.

(** X11: references are not merged by the extractor: an object whose
    entries, none of them named [items], all hold the same cross-file
    [$ref] yields one one-to-one relationship per entry, in the order of
    the entries, each named after its key. *)
Theorem one_relationship_per_entry
  (schemaName ref m : string) (keys : list string) :
  matchBeforeHash ref = Some m ->
  endsWith m ".json" = true ->
  Forall (fun key => key <> "items") keys ->
  extractSchemaReferences
    (allEntries keys (JObj [("$ref", JStr ref)])) schemaName
  = map (fun key =>
           {| from := schemaName; to := resolveTarget schemaName m;
              refPath := ref; type := OneToOne; propertyName := Some key |})
        keys.
Proof.
  intros Hm He Hkeys. unfold extractSchemaReferences, allEntries.
  rewrite traverse_eq. cbn [isObject ownEntries].
  assert (Hown : collectRef schemaName
                   (JObj (map (fun key => (key, JObj [("$ref", JStr ref)])) keys))
                   EmptyString false = []).
  { unfold collectRef. cbn [getProp].
    now destruct (assoc_allEntries "$ref" keys (JObj [("$ref", JStr ref)]))
      as [-> | ->]. }
  assert (Harr : isArrayTyped
                   (JObj (map (fun key => (key, JObj [("$ref", JStr ref)])) keys))
                 = false).
  { unfold isArrayTyped. cbn [getProp].
    now destruct (assoc_allEntries "type" keys (JObj [("$ref", JStr ref)]))
      as [-> | ->]. }
  rewrite Hown, Harr. cbn [app]. clear Hown Harr.
  induction Hkeys as [|key keys Hkey Hkeys IH]; [reflexivity|].
  cbn [map flat_map]. rewrite IH. unfold traverseEntry at 1.
  cbn [fst snd isObject andb]. apply String.eqb_neq in Hkey. rewrite Hkey.
  cbn [negb]. rewrite traverse_eq. cbn [isObject ownEntries flat_map].
  rewrite (collectRef_intro _ _ _ _ ref m) by (reflexivity || assumption).
  reflexivity.
Qed.

Lemma one_relationship_per_entry_witness :
  matchBeforeHash "address.json" = Some "address.json" /\
  endsWith "address.json" ".json" = true /\
  Forall (fun key => key <> "items") ["billing"; "shipping"] /\
  extractSchemaReferences
    (allEntries ["billing"; "shipping"] (JObj [("$ref", JStr "address.json")]))
    "order.json"
  = map (fun key =>
           {| from := "order.json";
              to := resolveTarget "order.json" "address.json";
              refPath := "address.json"; type := OneToOne;
              propertyName := Some key |})
        ["billing"; "shipping"].
Proof.
  assert (Hk : Forall (fun key => key <> "items") ["billing"; "shipping"])
    by (repeat constructor; discriminate).
  split; [reflexivity|]. split; [reflexivity|]. split; [exact Hk|].
  exact (one_relationship_per_entry "order.json" "address.json" "address.json"
           _ eq_refl eq_refl Hk).
Defined.

(** ** More on the graph builder *)

Module GraphMore.
Import JsSet JsSetFacts JsMapFacts GroupFacts EdgeFacts NodeFacts.

(** *** Exceptions *)

Lemma forEachM_throws {A S} (f : S -> A -> completion S) l a s E :
  In a l ->
  (forall s', f s' a = Throws E) ->
  (forall s' b e, f s' b = Throws e -> e = E) ->
  forEachM f l s = Throws E.
Proof.
  intros Hin Ha Hall. revert s.
  induction l as [|b l IH]; intros s; [contradiction|].
  cbn [forEachM]. destruct Hin as [->|Hin].
  - now rewrite Ha.
  - destruct (f s b) as [s'|e] eqn:E'; cbn [bind]; [now apply IH|].
    now rewrite (Hall _ _ _ E').
Qed.

Lemma forEachM_returns {A S} (f : S -> A -> completion S) l s :
  (forall a s', In a l -> exists s'', f s' a = Returns s'') ->
  exists s', forEachM f l s = Returns s'.
Proof.
  revert s. induction l as [|a l IH]; intros s H; [now exists s|].
  cbn [forEachM]. destruct (H a s) as [s1 ->]; [now left|]. cbn [bind].
  apply IH. intros b s' Hb. apply H. now right.
Qed.

Lemma toString_throws v e : toString v = Throws e -> e = TypeError.
Proof.
  revert e. induction v as [|b|r|s|l IH|l IH] using json_ind; intros e H;
    try discriminate.
  - destruct b; discriminate.
  - cbn [toString] in H.
    match type of H with
    | bind (?F l) _ = _ =>
        assert (HF : forall e', F l = Throws e' -> e' = TypeError)
    end.
    { clear H. induction IH as [|x l Hx Hl IHl]; intros e' H; [discriminate|].
      cbn [bind] in H.
      match type of H with
      | bind ?c _ = _ => destruct c as [s|e0] eqn:Ex
      end; cbn [bind] in H.
      - match type of H with
        | bind ?c _ = _ => destruct c as [rest|e1] eqn:Er
        end; [discriminate|].
        cbn [bind] in H. injection H as <-. now apply IHl.
      - injection H as <-.
        destruct x; try discriminate; now apply Hx. }
    match type of H with
    | bind ?c _ = _ => destruct c as [parts|e1] eqn:Ec
    end; [discriminate|].
    cbn [bind] in H. injection H as <-. now apply HF.
  - cbn [toString] in H. destruct (assoc "toString" l); [|discriminate].
    now injection H as <-.
Qed.

Lemma pushProperty_throws acc entry e :
  pushProperty acc entry = Throws e -> e = TypeError.
Proof.
  destruct entry as [key prop]. unfold pushProperty.
  destruct (getPropM prop "type") as [ty|e0] eqn:E; cbn [bind].
  - destruct (toString _) as [s|e1] eqn:Es; cbn [bind]; [discriminate|].
    intros [= <-]. exact (toString_throws _ _ Es).
  - intros [= <-]. destruct prop; try discriminate. now injection E as <-.
Qed.

Lemma pushProperty_null acc key :
  pushProperty acc (key, JNull) = Throws TypeError.
Proof. reflexivity. Qed.

Lemma forEachM_pushProperty_throws l acc e :
  forEachM pushProperty l acc = Throws e -> e = TypeError.
Proof.
  revert acc. induction l as [|a l IH]; intros acc; [discriminate|].
  cbn [forEachM]. destruct (pushProperty acc a) as [acc'|e0] eqn:E; cbn [bind].
  - apply IH.
  - intros [= <-]. exact (pushProperty_throws _ _ _ E).
Qed.

Lemma listProperties_throws schema e :
  listProperties schema = Throws e -> e = TypeError.
Proof.
  unfold listProperties. destruct (getProp schema "properties"); [|discriminate].
  destruct (truthy j); [|discriminate]. apply forEachM_pushProperty_throws.
Qed.

(** *** Nodes *)

Lemma pushNode_null relationships expandedNodes st name :
  pushNode relationships expandedNodes st (name, JNull) = Throws TypeError.
Proof. destruct st. reflexivity. Qed.

Lemma pushNode_eq relationships expandedNodes nodes nodeIds name schema :
  schema <> JNull ->
  pushNode relationships expandedNodes (nodes, nodeIds) (name, schema)
  = props <- listProperties schema ;;
    Returns (nodes ++ [schemaNode relationships expandedNodes name schema props],
             add nodeIds name).
Proof. intros H. destruct schema; try reflexivity. congruence. Qed.

Lemma pushNode_throws relationships expandedNodes st entry e :
  pushNode relationships expandedNodes st entry = Throws e -> e = TypeError.
Proof.
  destruct st as [nodes nodeIds], entry as [name schema].
  destruct schema eqn:E;
    try (rewrite pushNode_eq by discriminate;
         match goal with
         | |- bind ?c _ = _ -> _ => destruct c eqn:Ec; cbn [bind];
             [discriminate|intros [= <-]; exact (listProperties_throws _ _ Ec)]
         end).
  rewrite pushNode_null. now intros [= <-].
Qed.

(** The nodes of a graph, document by document. *)
Lemma nodes_of_documents relationships expandedNodes schemas :
  forall nodes nodeIds nodes' nodeIds',
    forEachM (pushNode relationships expandedNodes) schemas (nodes, nodeIds)
    = Returns (nodes', nodeIds') ->
    exists new,
      nodes' = nodes ++ new /\
      Forall2 (fun entry node =>
                 snd entry <> JNull /\
                 exists props,
                   listProperties (snd entry) = Returns props /\
                   node = schemaNode relationships expandedNodes
                            (fst entry) (snd entry) props)
              schemas new.
Proof.
  induction schemas as [|[name schema] schemas IH];
    intros nodes nodeIds nodes' nodeIds' H.
  - injection H as <- <-. exists []. split; [now rewrite app_nil_r|constructor].
  - cbn [forEachM] in H.
    destruct (pushNode _ _ _ _) as [[ns ids]|] eqn:E; [|discriminate].
    cbn [bind] in H.
    assert (Hnull : schema <> JNull).
    { intros ->. now rewrite pushNode_null in E. }
    rewrite pushNode_eq in E by exact Hnull.
    destruct (listProperties schema) as [props|] eqn:Ep; [|discriminate].
    cbn [bind] in E. injection E as <- <-.
    apply IH in H as (new & -> & Hnew).
    exists (schemaNode relationships expandedNodes name schema props :: new).
    split; [now rewrite <- app_assoc|].
    constructor; [|exact Hnew]. split; [exact Hnull|]. now exists props.
Qed.

Lemma createSchemaGraph_nodes schemas relationships expandedNodes nodes es :
  createSchemaGraph schemas relationships expandedNodes
  = Returns (nodes, es) ->
  Forall2 (fun entry node =>
             snd entry <> JNull /\
             exists props,
               listProperties (snd entry) = Returns props /\
               node = schemaNode relationships expandedNodes
                        (fst entry) (snd entry) props)
          schemas nodes.
Proof.
  unfold createSchemaGraph.
  destruct (forEachM (pushNode relationships expandedNodes) schemas ([], []))
    as [[ns ids]|] eqn:E; [|discriminate].
  cbn [bind]. intros [= <- <-].
  now apply nodes_of_documents in E as (new & -> & Hnew).
Qed.

Lemma listProperties_simple schema ps :
  getProp schema "properties" = Some (JObj ps) ->
  Forall simpleProperty (map snd ps) ->
  listProperties schema = Returns (map renderProperty ps).
Proof.
  intros Hp Hall. unfold listProperties. rewrite Hp. cbn [truthy ownEntries].
  clear Hp.
  change (map renderProperty ps) with ([] ++ map renderProperty ps).
  generalize (@nil string) as acc.
  induction ps as [|[key prop] ps IH]; intros acc.
  - now rewrite app_nil_r.
  - cbn [map snd] in Hall. inversion Hall as [|? ? [Hnull Hty] Hrest]; subst.
    cbn [forEachM map]. unfold pushProperty at 1.
    assert (Hget : getPropM prop "type" = Returns (getProp prop "type"))
      by (destruct prop; try reflexivity; congruence).
    rewrite Hget. cbn [bind].
    assert (Hs : toString (orElse (getProp prop "type") (JStr "any"))
                 = Returns (match getProp prop "type" with
                            | Some (JStr t) => if nonEmpty t then t else "any"
                            | _ => "any"
                            end)).
    { destruct Hty as [-> | [t ->]]; [reflexivity|].
      cbn [orElse truthy]. now destruct (nonEmpty t). }
    rewrite Hs. cbn [bind]. rewrite (IH Hrest).
    now rewrite <- app_assoc.
Qed.

End GraphMore.

Module EdgeMore.
Import JsSet JsSetFacts JsMapFacts GroupFacts EdgeFacts NodeFacts.

Lemma candidate_inv nodeIds group e :
  candidate nodeIds group = Some e ->
  exists rel rest,
    snd group = rel :: rest /\
    has nodeIds (resolveNode nodeIds (from rel)) = true /\
    has nodeIds (resolveNode nodeIds (to rel)) = true /\
    e = groupEdge (resolveNode nodeIds (from rel))
          (resolveNode nodeIds (to rel)) rel (snd group).
Proof.
  unfold candidate. destruct (snd group) as [|rel rest]; [discriminate|].
  cbv zeta.
  destruct (has nodeIds (resolveNode nodeIds (from rel))) eqn:E1;
    [|discriminate].
  destruct (has nodeIds (resolveNode nodeIds (to rel))) eqn:E2;
    [|discriminate].
  cbn [andb]. intros [= <-]. exists rel, rest. auto.
Qed.

(** Whatever a path resolves to ends with the path. *)
Lemma resolveNode_endsWith nodeIds p :
  JsString.endsWith (resolveNode nodeIds p) p = true.
Proof.
  unfold resolveNode. destruct (has nodeIds p); [apply endsWith_refl|].
  destruct (find _ nodeIds) as [id|] eqn:E; [|apply endsWith_refl].
  destruct (JsString.nonEmpty id); [|apply endsWith_refl].
  now apply find_some in E.
Qed.

(** A path no node ends with resolves to itself, which is no node. *)
Lemma resolveNode_unmatched nodeIds p :
  (forall id, In id nodeIds -> JsString.endsWith id p = false) ->
  has nodeIds (resolveNode nodeIds p) = false.
Proof.
  intros H.
  assert (Hno : has nodeIds p = false).
  { destruct (has nodeIds p) eqn:E; [|reflexivity].
    apply has_In in E. rewrite <- (H p E). symmetry. apply endsWith_refl. }
  unfold resolveNode. rewrite Hno.
  destruct (find _ nodeIds) as [id|] eqn:E; [|exact Hno].
  apply find_some in E as [Hin He]. rewrite (H id Hin) in He. discriminate.
Qed.

(** Every edge of the loop is the candidate of a group of the
    relationships. *)
Lemma buildEdges_sound nodeIds relationships e :
  In e (edges (buildEdges nodeIds relationships)) ->
  exists key rel rest,
    In rel relationships /\
    groupKey rel = key /\
    rel :: rest = filter (fun r => groupKey r =? key) relationships /\
    has nodeIds (resolveNode nodeIds (from rel)) = true /\
    has nodeIds (resolveNode nodeIds (to rel)) = true /\
    e = groupEdge (resolveNode nodeIds (from rel))
          (resolveNode nodeIds (to rel)) rel (rel :: rest).
Proof.
  intros Hin. unfold buildEdges in Hin.
  apply loop_sound in Hin as [[]|([key rs] & Hg & Hc)].
  apply candidate_inv in Hc as (rel & rest & Hrs & H1 & H2 & ->).
  cbn [snd] in *. subst rs.
  destruct (groups_In _ _ _ Hg) as [Hfilter _].
  assert (Hrel : In rel (filter (fun r => groupKey r =? key) relationships))
    by (rewrite <- Hfilter; now left).
  apply filter_In in Hrel as [Hrel Hkey]. apply String.eqb_eq in Hkey.
  exists key, rel, rest. auto 10.
Qed.


(** *** Counting *)

Lemma groupedCount_set_new groups key rels :
  JsMap.get groups key = None ->
  groupedCount (JsMap.set groups key rels) = (groupedCount groups + length rels)%nat.
Proof.
  unfold groupedCount.
  induction groups as [|[k v] groups IH]; simpl;
    intros H; [lia|].
  destruct (k =? key); [discriminate|].
  simpl. rewrite (IH H). lia.
Qed.

Lemma groupedCount_set_old groups key old rels :
  JsMap.get groups key = Some old ->
  (groupedCount (JsMap.set groups key rels) + length old
   = groupedCount groups + length rels)%nat.
Proof.
  unfold groupedCount.
  induction groups as [|[k v] groups IH]; simpl;
    intros H; [discriminate|].
  destruct (k =? key).
  - injection H as ->. simpl. lia.
  - simpl. specialize (IH H). lia.
Qed.

Lemma groupedCount_pushGroup groups rel :
  groupedCount (pushGroup groups rel) = S (groupedCount groups).
Proof.
  unfold pushGroup, JsMap.has.
  destruct (JsMap.get groups (groupKey rel)) as [old|] eqn:E; cbn [negb].
  - rewrite E.
    pose proof (groupedCount_set_old groups _ old (old ++ [rel]) E) as H.
    rewrite List.length_app in H. cbn [length] in H. lia.
  - rewrite get_set, String.eqb_refl.
    pose proof (groupedCount_set_new groups (groupKey rel) [] E) as H0.
    assert (E' : JsMap.get (JsMap.set groups (groupKey rel) []) (groupKey rel) = Some [])
      by now rewrite get_set, String.eqb_refl.
    pose proof (groupedCount_set_old _ _ [] ([] ++ [rel]) E') as H1.
    cbn [app length] in *. lia.
Qed.

(** The groups hold every relationship once. *)
Lemma groupedCount_all relationships :
  groupedCount (groupRelationships relationships) = length relationships.
Proof.
  induction relationships as [|rel rels IH] using rev_ind; [reflexivity|].
  rewrite groupRelationships_snoc, groupedCount_pushGroup, IH, List.length_app.
  cbn [length]. lia.
Qed.

Lemma candidate_count nodeIds group e :
  candidate nodeIds group = Some e ->
  Edge.count (Edge.data e) = length (snd group).
Proof.
  intros H. apply candidate_inv in H as (rel & rest & _ & _ & _ & ->).
  now destruct (groupEdge_fields (resolveNode nodeIds (from rel))
                  (resolveNode nodeIds (to rel)) rel (snd group))
    as (_ & _ & _ & ->).
Qed.

Lemma totalCount_app es es' :
  totalCount (es ++ es') = (totalCount es + totalCount es')%nat.
Proof. unfold totalCount. now rewrite map_app, list_sum_app. Qed.

Lemma loop_totalCount nodeIds groups st :
  (totalCount (edges (fold_left (pushEdge nodeIds) groups st))
   <= totalCount (edges st) + groupedCount groups)%nat.
Proof.
  revert st. induction groups as [|g groups IH]; intros st;
    cbn [fold_left]; [unfold groupedCount; cbn; lia|].
  specialize (IH (pushEdge nodeIds st g)).
  pose proof (pushEdge_spec nodeIds st g) as H. cbv zeta in H.
  assert (Hstep : (totalCount (edges (pushEdge nodeIds st g))
                   <= totalCount (edges st) + length (snd g))%nat).
  { destruct (candidate nodeIds g) as [e|] eqn:Ec;
      [destruct (has (edgeIds st) (Edge.id e))|];
      destruct H as [-> _]; try lia.
    rewrite totalCount_app, <- (candidate_count _ _ _ Ec).
    unfold totalCount. simpl. lia. }
  unfold groupedCount in *. simpl. lia.
Qed.

Lemma loop_none nodeIds groups st :
  (forall g, In g groups -> candidate nodeIds g = None) ->
  edges (fold_left (pushEdge nodeIds) groups st) = edges st.
Proof.
  revert st. induction groups as [|g groups IH]; intros st H; [reflexivity|].
  cbn [fold_left]. rewrite IH by (intros g' Hg'; apply H; now right).
  pose proof (pushEdge_spec nodeIds st g) as Hs. cbv zeta in Hs.
  rewrite (H g) in Hs by now left. now destruct Hs.
Qed.

(** *** The key of a pair *)


End EdgeMore.

Module PairFacts.
Import JsSet JsSetFacts JsMapFacts GroupFacts EdgeFacts NodeFacts EdgeMore.


End PairFacts.

(** ** The graph builder, stated *)

Import JsSet JsSetFacts JsMapFacts GroupFacts EdgeFacts NodeFacts.
Import GraphMore EdgeMore PairFacts.

(** X12: the nodes mirror the documents: one node per document, in the
    order of the collection, with the document's path as [id] and the
    document itself as [schemaData]; every node is a [schemaNode] at
    [(0,0)], its entity type is the one of its path, its label is the
    document's [title] when truthy, else its [$id] when truthy, else the
    path, and it is expanded exactly when its path is in the expanded
    set. *)
Theorem nodes_mirror_documents
  (schemas : JsMap.t json) (relationships : list SchemaRelationship)
  (expandedNodes : JsSet.t) (nodes : list Node.t) (es : list Edge.t) :
  createSchemaGraph schemas relationships expandedNodes = Returns (nodes, es) ->
  map (fun n => (Node.id n, Node.schemaData (Node.data n))) nodes = schemas /\
  Forall (fun n =>
            Node.type n = "schemaNode" /\
            Node.position n = {| Node.x := Num 0; Node.y := Num 0 |} /\
            Node.schemaName (Node.data n) = Node.id n /\
            Node.entityType (Node.data n) = extractEntityType (Node.id n) /\
            Node.isExpanded (Node.data n) = has expandedNodes (Node.id n) /\
            Node.label (Node.data n) =
              orElse (getProp (Node.schemaData (Node.data n)) "title")
                (orElse (getProp (Node.schemaData (Node.data n)) "$id")
                   (JStr (Node.id n))))
         nodes.
Proof.
  intros H. apply createSchemaGraph_nodes in H.
  induction H as [|[name schema] node schemas nodes
                    (_ & props & _ & ->) _ [IH1 IH2]].
  - split; constructor.
  - split.
    + cbn [map]. now rewrite IH1.
    + constructor; [|exact IH2]. repeat split.
Qed.

Lemma nodes_mirror_documents_witness :
  exists nodes es,
    createSchemaGraph scenario (extractAll scenario) ["b.json"]
    = Returns (nodes, es) /\
    map (fun n => (Node.id n, Node.schemaData (Node.data n))) nodes = scenario.
Proof.
  assert (Hg : exists nodes es,
             createSchemaGraph scenario (extractAll scenario) ["b.json"]
             = Returns (nodes, es)).
  { eexists. eexists. vm_compute. reflexivity. }
  destruct Hg as (nodes & es & Hg). exists nodes, es.
  split; [exact Hg|].
  exact (proj1 (nodes_mirror_documents _ _ _ _ _ Hg)).
Defined.

(** X13: the [properties] array of a node lists the entries of the
    document's [properties] object in their order, as ["key: type"], with
    ["any"] when the [type] is absent or empty (for property schemas that
    are not [null] and whose [type], when present, is a string). *)
Theorem node_properties_listing
  (schemas : JsMap.t json) (relationships : list SchemaRelationship)
  (expandedNodes : JsSet.t) (nodes : list Node.t) (es : list Edge.t)
  (node : Node.t) (ps : list (string * json)) :
  createSchemaGraph schemas relationships expandedNodes = Returns (nodes, es) ->
  In node nodes ->
  getProp (Node.schemaData (Node.data node)) "properties" = Some (JObj ps) ->
  Forall simpleProperty (map snd ps) ->
  Node.properties (Node.data node) = map renderProperty ps.
Proof.
  intros H Hin Hp Hsimple. apply createSchemaGraph_nodes in H.
  induction H as [|[name schema] n schemas nodes
                    (_ & props & Hprops & ->) _ IH]; [contradiction|].
  destruct Hin as [<-|Hin]; [|now apply IH].
  cbn [schemaNode Node.data Node.schemaData Node.properties] in *.
  rewrite (listProperties_simple _ _ Hp Hsimple) in Hprops.
  now injection Hprops as <-.
Qed.

Lemma node_properties_listing_witness :
  exists node,
    createSchemaGraph [("person.json", person_schema)] [] []
    = Returns ([node], []) /\
    In node [node] /\
    Node.properties (Node.data node) = ["name: string"; "friend: any"].
Proof.
  assert (Hg : exists node,
             createSchemaGraph [("person.json", person_schema)] [] []
             = Returns ([node], [])).
  { eexists. vm_compute. reflexivity. }
  destruct Hg as (node & Hg). exists node.
  split; [exact Hg|]. split; [now left|].
  refine (node_properties_listing _ _ _ _ _ node
            [("name", JObj [("type", JStr "string")]);
             ("friend", JObj [("$ref", JStr "person.json")])]
            Hg (or_introl eq_refl) _ _).
  - vm_compute in Hg. injection Hg as <-. reflexivity.
  - constructor; [split; [discriminate|right; now exists "string"]|].
    constructor; [split; [discriminate|now left]|]. constructor.
Defined.

(** X14: a [null] document, or a document with a [null] property schema,
    makes [createSchemaGraph] throw a [TypeError]: no graph is built for
    the whole collection. *)
Theorem createSchemaGraph_throws
  (schemas : JsMap.t json) (relationships : list SchemaRelationship)
  (expandedNodes : JsSet.t) (name : string) (schema : json) :
  In (name, schema) schemas ->
  poisonedDocument schema ->
  createSchemaGraph schemas relationships expandedNodes = Throws TypeError.
Proof.
  intros Hin Hbad. unfold createSchemaGraph.
  rewrite (forEachM_throws _ _ (name, schema) _ TypeError); auto.
  - intros [nodes nodeIds]. destruct Hbad as [->|(props & key & Hp & Ht & Hk)].
    + apply pushNode_null.
    + assert (Hnull : schema <> JNull) by (intros ->; discriminate Hp).
      rewrite pushNode_eq by exact Hnull.
      unfold listProperties. rewrite Hp, Ht.
      rewrite (forEachM_throws _ _ (key, JNull) _ TypeError); auto.
      intros s' b e. apply pushProperty_throws.
  - intros s' b e. apply pushNode_throws.
Qed.

Lemma createSchemaGraph_throws_witness :
  In ("b.json", JObj [("properties", JObj [("x", JNull)])])
     [("a.json", JObj []);
      ("b.json", JObj [("properties", JObj [("x", JNull)])])] /\
  poisonedDocument (JObj [("properties", JObj [("x", JNull)])]) /\
  createSchemaGraph
    [("a.json", JObj []);
     ("b.json", JObj [("properties", JObj [("x", JNull)])])] [] []
  = Throws TypeError.
Proof.
  assert (Hin : In ("b.json", JObj [("properties", JObj [("x", JNull)])])
                  [("a.json", JObj []);
                   ("b.json", JObj [("properties", JObj [("x", JNull)])])])
    by (right; now left).
  assert (Hbad : poisonedDocument (JObj [("properties", JObj [("x", JNull)])])).
  { right. exists (JObj [("x", JNull)]), "x". repeat split. now left. }
  split; [exact Hin|]. split; [exact Hbad|].
  exact (createSchemaGraph_throws _ [] [] _ _ Hin Hbad).
Defined.

(** X15: when no document is [null] and every property schema is an
    object-like value whose [type] is absent or a string,
    [createSchemaGraph] returns a graph, whatever the relationships and
    the expanded set. *)
Theorem createSchemaGraph_returns
  (schemas : JsMap.t json) (relationships : list SchemaRelationship)
  (expandedNodes : JsSet.t) :
  Forall (fun entry => plainDocument (snd entry)) schemas ->
  exists nodes es,
    createSchemaGraph schemas relationships expandedNodes
    = Returns (nodes, es).
Proof.
  intros Hplain. unfold createSchemaGraph.
  destruct (forEachM_returns (pushNode relationships expandedNodes) schemas
              ([], [])) as [[nodes nodeIds] ->].
  - intros [name schema] [ns ids] Hin.
    rewrite Forall_forall in Hplain.
    destruct (Hplain _ Hin) as [Hnull Hprops]. cbn [snd] in *.
    rewrite pushNode_eq by exact Hnull.
    assert (Hlist : exists props, listProperties schema = Returns props).
    { unfold listProperties.
      destruct (getProp schema "properties") as [props|] eqn:Ep;
        [|now exists []].
      destruct (truthy props) eqn:Et; [|now exists []].
      specialize (Hprops props eq_refl Et).
      apply forEachM_returns. intros [key prop] acc Hk.
      rewrite Forall_forall in Hprops.
      destruct (Hprops prop) as [Hn Hty]; [now apply (in_map snd) in Hk|].
      unfold pushProperty.
      assert (Hget : getPropM prop "type" = Returns (getProp prop "type"))
        by (destruct prop; try reflexivity; congruence).
      rewrite Hget. cbn [bind].
      destruct Hty as [-> | [t ->]]; cbn [orElse truthy toString bind].
      - eauto.
      - destruct (nonEmpty t); cbn [toString bind]; eauto. }
    destruct Hlist as [props ->]. cbn [bind]. eauto.
  - cbn [bind]. eauto.
Qed.

Lemma createSchemaGraph_returns_witness :
  Forall (fun entry => plainDocument (snd entry))
    [("person.json", person_schema)] /\
  exists nodes es,
    createSchemaGraph [("person.json", person_schema)] [] []
    = Returns (nodes, es).
Proof.
  assert (Hplain : Forall (fun entry => plainDocument (snd entry))
                     [("person.json", person_schema)]).
  { repeat constructor; [discriminate|].
    intros props Hp _. vm_compute in Hp. injection Hp as <-.
    constructor; [split; [discriminate|right; now exists "string"]|].
    constructor; [split; [discriminate|now left]|]. constructor. }
  split; [exact Hplain|].
  exact (createSchemaGraph_returns _ [] [] Hplain).
Defined.

(** X16: no edge dangles: the source and the target of every edge are
    paths of documents of the collection, and the edge's [id] is
    [source-target]. *)
Theorem edges_connect_nodes
  (schemas : JsMap.t json) (relationships : list SchemaRelationship)
  (expandedNodes : JsSet.t) (nodes : list Node.t) (es : list Edge.t)
  (e : Edge.t) :
  createSchemaGraph schemas relationships expandedNodes = Returns (nodes, es) ->
  In e es ->
  In (Edge.source e) (map fst schemas) /\
  In (Edge.target e) (map fst schemas) /\
  Edge.id e = edgeId (Edge.source e) (Edge.target e).
Proof.
  intros H Hin. apply createSchemaGraph_inv in H as (_ & -> & _).
  apply buildEdges_sound in Hin
    as (key & rel & rest & _ & _ & _ & H1 & H2 & ->).
  destruct (groupEdge_fields (resolveNode (nodeIdsOf schemas) (from rel))
              (resolveNode (nodeIdsOf schemas) (to rel)) rel (rel :: rest))
    as (-> & -> & -> & _).
  apply nodeIdsOf_has in H1, H2. auto.
Qed.

Lemma edges_connect_nodes_witness :
  exists nodes e es,
    createSchemaGraph scenario (extractAll scenario) []
    = Returns (nodes, e :: es) /\
    In e (e :: es) /\
    In (Edge.source e) (map fst scenario) /\
    In (Edge.target e) (map fst scenario) /\
    Edge.id e = edgeId (Edge.source e) (Edge.target e).
Proof.
  assert (Hg : exists nodes e es,
             createSchemaGraph scenario (extractAll scenario) []
             = Returns (nodes, e :: es)).
  { eexists. eexists. eexists. vm_compute. reflexivity. }
  destruct Hg as (nodes & e & es & Hg). exists nodes, e, es.
  split; [exact Hg|]. split; [now left|].
  exact (edges_connect_nodes _ _ _ _ _ e Hg (or_introl eq_refl)).
Defined.



(** X18: every edge is backed by a relationship: some relationship of the
    list has a [from] the edge's source ends with and a [to] the edge's
    target ends with (the ends are equal or matched by suffix), and the
    edge's count is the number of relationships with that relationship's
    key. *)
Theorem edge_backed_by_relationship
  (schemas : JsMap.t json) (relationships : list SchemaRelationship)
  (expandedNodes : JsSet.t) (nodes : list Node.t) (es : list Edge.t)
  (e : Edge.t) :
  createSchemaGraph schemas relationships expandedNodes = Returns (nodes, es) ->
  In e es ->
  exists rel,
    In rel relationships /\
    endsWith (Edge.source e) (from rel) = true /\
    endsWith (Edge.target e) (to rel) = true /\
    Edge.count (Edge.data e)
    = length (filter (fun r => groupKey r =? groupKey rel) relationships).
Proof.
  intros H Hin. apply createSchemaGraph_inv in H as (_ & -> & _).
  apply buildEdges_sound in Hin
    as (key & rel & rest & Hrel & Hkey & Hfilter & _ & _ & ->).
  destruct (groupEdge_fields (resolveNode (nodeIdsOf schemas) (from rel))
              (resolveNode (nodeIdsOf schemas) (to rel)) rel (rel :: rest))
    as (_ & -> & -> & ->).
  exists rel. rewrite Hkey, <- Hfilter.
  auto using resolveNode_endsWith.
Qed.

Lemma edge_backed_by_relationship_witness :
  exists nodes e es,
    createSchemaGraph scenario (extractAll scenario) []
    = Returns (nodes, e :: es) /\
    In e (e :: es) /\
    exists rel,
      In rel (extractAll scenario) /\
      endsWith (Edge.source e) (from rel) = true /\
      endsWith (Edge.target e) (to rel) = true /\
      Edge.count (Edge.data e)
      = length (filter (fun r => groupKey r =? groupKey rel)
                  (extractAll scenario)).
Proof.
  assert (Hg : exists nodes e es,
             createSchemaGraph scenario (extractAll scenario) []
             = Returns (nodes, e :: es)).
  { eexists. eexists. eexists. vm_compute. reflexivity. }
  destruct Hg as (nodes & e & es & Hg). exists nodes, e, es.
  split; [exact Hg|]. split; [now left|].
  exact (edge_backed_by_relationship _ _ _ _ _ e Hg (or_introl eq_refl)).
Defined.

(** X19: an edge counts at least one relationship; it is classified
    multiple exactly when it counts two or more; it lists at most as many
    property names as it counts, none of them empty. *)
Theorem edge_count_and_class
  (schemas : JsMap.t json) (relationships : list SchemaRelationship)
  (expandedNodes : JsSet.t) (nodes : list Node.t) (es : list Edge.t)
  (e : Edge.t) :
  createSchemaGraph schemas relationships expandedNodes = Returns (nodes, es) ->
  In e es ->
  (1 <= Edge.count (Edge.data e))%nat /\
  (Edge.type (Edge.data e) = Multiple <-> (2 <= Edge.count (Edge.data e))%nat) /\
  (length (Edge.propertyNames (Edge.data e)) <= Edge.count (Edge.data e))%nat /\
  ~ In EmptyString (Edge.propertyNames (Edge.data e)).
Proof.
  intros H Hin. apply createSchemaGraph_inv in H as (_ & -> & _).
  apply buildEdges_sound in Hin
    as (key & rel & rest & _ & _ & _ & _ & _ & ->).
  set (fromNode := resolveNode _ (from rel)).
  set (toNode := resolveNode _ (to rel)).
  assert (Hnames : forall rels,
    let names := flat_map (fun r => match propertyName r with
                                    | Some n => if nonEmpty n then [n] else []
                                    | None => []
                                    end) rels in
    (length names <= length rels)%nat /\ ~ In EmptyString names).
  { induction rels as [|r rels [IH1 IH2]]; cbn [flat_map length];
      [split; [lia|intros []]|].
    destruct (propertyName r) as [n|]; [destruct (nonEmpty n) eqn:En|];
      cbn [app length]; split; try lia; try exact IH2.
    intros [Heq|Hn]; [subst n; discriminate En|exact (IH2 Hn)]. }
  destruct (Hnames (rel :: rest)) as [Hlen Hno].
  unfold groupEdge. cbn [length] in *.
  destruct (Nat.ltb_spec 1 (S (length rest))) as [Hlt|Hge].
  - cbn [Edge.data Edge.count Edge.type Edge.propertyNames].
    repeat split; try lia; assumption.
  - destruct (type rel);
      cbn [Edge.data Edge.count Edge.type Edge.propertyNames];
      (split; [lia|]); (split; [split; [discriminate|lia]|]);
      split; assumption.
Qed.

Lemma edge_count_and_class_witness :
  exists nodes e es,
    createSchemaGraph order_schemas (extractAll order_schemas) []
    = Returns (nodes, e :: es) /\
    In e (e :: es) /\
    (1 <= Edge.count (Edge.data e))%nat /\
    (Edge.type (Edge.data e) = Multiple
     <-> (2 <= Edge.count (Edge.data e))%nat) /\
    (length (Edge.propertyNames (Edge.data e))
     <= Edge.count (Edge.data e))%nat /\
    ~ In EmptyString (Edge.propertyNames (Edge.data e)).
Proof.
  assert (Hg : exists nodes e es,
             createSchemaGraph order_schemas (extractAll order_schemas) []
             = Returns (nodes, e :: es)).
  { eexists. eexists. eexists. vm_compute. reflexivity. }
  destruct Hg as (nodes & e & es & Hg). exists nodes, e, es.
  split; [exact Hg|]. split; [now left|].
  exact (edge_count_and_class _ _ _ _ _ e Hg (or_introl eq_refl)).
Defined.

(** X20: the counts of the edges add up to at most the number of
    relationships, so there are at most as many edges as relationships. *)
Theorem edges_bounded
  (schemas : JsMap.t json) (relationships : list SchemaRelationship)
  (expandedNodes : JsSet.t) (nodes : list Node.t) (es : list Edge.t) :
  createSchemaGraph schemas relationships expandedNodes = Returns (nodes, es) ->
  (totalCount es <= length relationships)%nat /\
  (length es <= length relationships)%nat.
Proof.
  intros H.
  assert (Htotal : (totalCount es <= length relationships)%nat).
  { apply createSchemaGraph_inv in H as (_ & -> & _).
    unfold buildEdges.
    pose proof (loop_totalCount (nodeIdsOf schemas)
                  (groupRelationships relationships)
                  {| edges := []; edgeIds := []; matchedCount := 0;
                     unmatchedCount := 0 |}) as Hle.
    rewrite groupedCount_all in Hle. exact Hle. }
  split; [exact Htotal|].
  assert (Hone : forall e, In e es -> (1 <= Edge.count (Edge.data e))%nat).
  { intros e He.
    assert (Hin := H). apply createSchemaGraph_inv in Hin as (_ & Hes & _).
    rewrite Hes in He. apply buildEdges_sound in He
      as (key & rel & rest & _ & _ & _ & _ & _ & ->).
    destruct (groupEdge_fields (resolveNode (nodeIdsOf schemas) (from rel))
                (resolveNode (nodeIdsOf schemas) (to rel)) rel (rel :: rest))
      as (_ & _ & _ & ->).
    cbn [length]. lia. }
  assert (Hlen : (length es <= totalCount es)%nat).
  { clear - Hone. unfold totalCount.
    induction es as [|e es IH]; [simpl; lia|].
    simpl. pose proof (Hone e (or_introl eq_refl)) as He.
    assert (length es <= list_sum (map (fun e => Edge.count (Edge.data e)) es))%nat
      by (apply IH; intros e' He'; apply Hone; now right).
    lia. }
  lia.
Qed.

Lemma edges_bounded_witness :
  exists nodes es,
    createSchemaGraph colliding_schemas (extractAll colliding_schemas) []
    = Returns (nodes, es) /\
    (totalCount es <= length (extractAll colliding_schemas))%nat /\
    (length es <= length (extractAll colliding_schemas))%nat.
Proof.
  assert (Hg : exists nodes es,
             createSchemaGraph colliding_schemas
               (extractAll colliding_schemas) []
             = Returns (nodes, es)).
  { eexists. eexists. vm_compute. reflexivity. }
  destruct Hg as (nodes & es & Hg). exists nodes, es.
  split; [exact Hg|]. exact (edges_bounded _ _ _ _ _ Hg).
Defined.

(** X21: relationships that match no document are dropped: when no
    document path ends with the [to] of any relationship (neither equal
    to it nor having it as a suffix), the graph has no edge. *)
Theorem no_edge_without_match
  (schemas : JsMap.t json) (relationships : list SchemaRelationship)
  (expandedNodes : JsSet.t) (nodes : list Node.t) (es : list Edge.t) :
  createSchemaGraph schemas relationships expandedNodes = Returns (nodes, es) ->
  (forall r path, In r relationships -> In path (map fst schemas) ->
                  endsWith path (to r) = false) ->
  es = [].
Proof.
  intros H Hno. apply createSchemaGraph_inv in H as (_ & -> & _).
  unfold buildEdges. rewrite loop_none; [reflexivity|].
  intros [key rs] Hg. destruct (groups_In _ _ _ Hg) as [Hrs _].
  unfold candidate. cbn [snd]. destruct rs as [|rel rest]; [reflexivity|].
  cbv zeta.
  assert (Hrel : In rel relationships).
  { assert (Hin : In rel (filter (fun r => groupKey r =? key) relationships))
      by (rewrite <- Hrs; now left).
    now apply filter_In in Hin. }
  rewrite (resolveNode_unmatched (nodeIdsOf schemas) (to rel)).
  - now rewrite andb_false_r.
  - intros id Hid. apply Hno; [exact Hrel|]. apply nodeIdsOf_has.
    now apply has_In.
Qed.

Lemma no_edge_without_match_witness :
  exists nodes es,
    createSchemaGraph [("b.json", scenario_b)]
      (extractAll [("b.json", scenario_b)]) []
    = Returns (nodes, es) /\
    (forall r path, In r (extractAll [("b.json", scenario_b)]) ->
                    In path (map fst [("b.json", scenario_b)]) ->
                    endsWith path (to r) = false) /\
    es = [].
Proof.
  assert (Hg : exists nodes es,
             createSchemaGraph [("b.json", scenario_b)]
               (extractAll [("b.json", scenario_b)]) []
             = Returns (nodes, es)).
  { eexists. eexists. vm_compute. reflexivity. }
  assert (Hno : forall r path, In r (extractAll [("b.json", scenario_b)]) ->
                    In path (map fst [("b.json", scenario_b)]) ->
                    endsWith path (to r) = false).
  { intros r path Hr Hp. vm_compute in Hr. destruct Hr as [<-|[]].
    destruct Hp as [<-|[]]. reflexivity. }
  destruct Hg as (nodes & es & Hg). exists nodes, es.
  split; [exact Hg|]. split; [exact Hno|].
  exact (no_edge_without_match _ _ _ _ _ Hg Hno).
Defined.



(** ** More on the layout *)

Module LayoutFacts.


Lemma place_fields layout node :
  Node.id (place layout node) = Node.id node /\
  Node.type (place layout node) = Node.type node /\
  Node.data (place layout node) = Node.data node.
Proof. repeat split. Qed.



(** The width of a node: [200 <= width <= 500] whenever it is a number. *)
Lemma clamp_bounds q :
  exists w,
    JsNumber.max (JsNumber.ofNat 200)
      (JsNumber.min (Num q) (JsNumber.ofNat 500)) = Num w /\
    (inject_Z 200 <= w)%Q /\ (w <= inject_Z 500)%Q.
Proof.
  unfold JsNumber.max, JsNumber.min, JsNumber.ofNat.
  change (inject_Z (Z.of_nat 200)) with (inject_Z 200).
  change (inject_Z (Z.of_nat 500)) with (inject_Z 500).
  destruct (Qle_bool q (inject_Z 500)) eqn:E1.
  - destruct (Qle_bool (inject_Z 200) q) eqn:E2.
    + exists q. apply Qle_bool_iff in E1, E2. auto.
    + exists (inject_Z 200). repeat split; [apply Qle_refl|].
      now apply Qle_bool_iff.
  - change (Qle_bool (inject_Z 200) (inject_Z 500)) with true. cbv iota.
    exists (inject_Z 500). repeat split; [|apply Qle_refl].
    now apply Qle_bool_iff.
Qed.

Section WithToNumber.
Variable toNumber : json -> completion number.

Lemma elkGraph_children_returns nodes :
  (forall node, In node nodes ->
     exists c, elkChild toNumber node = Returns c) ->
  forall acc,
  exists children,
    forEachM (fun acc node => c <- elkChild toNumber node ;; Returns (acc ++ [c]))
      nodes acc = Returns children.
Proof.
  intros H acc. apply GraphMore.forEachM_returns.
  intros node acc' Hin. destruct (H node Hin) as [c ->]. cbn [bind]. eauto.
Qed.

Lemma labelLength_returns label :
  (forall l, label = JObj l -> assoc "length" l = None) ->
  exists n, labelLength toNumber label = Returns n.
Proof.
  intros H. unfold labelLength. destruct (truthy label); [|eauto].
  destruct label; eauto. rewrite (H _ eq_refl). eauto.
Qed.

End WithToNumber.

End LayoutFacts.

Import LayoutFacts.

(** X23: however the layout goes, a call of [layoutGraph] that settles
    normally returns the edges it was given and the same nodes in the same
    order, with their identifiers, types and data: only positions can
    change. *)
Theorem layout_preserves_graph
  (toNumber : json -> completion number)
  (elkLayout : Elk.Graph -> completion Elk.Layout)
  (nodes nodes' : list Node.t) (es es' : list Edge.t) :
  settled (layoutGraph toNumber elkLayout nodes es) = Returns (nodes', es') ->
  es' = es /\
  map Node.id nodes' = map Node.id nodes /\
  map Node.type nodes' = map Node.type nodes /\
  map Node.data nodes' = map Node.data nodes.
Proof.
  unfold layoutGraph.
  destruct (elkGraph toNumber nodes es) as [graph|]; [|discriminate].
  destruct (elkLayout graph) as [layout|]; cbn [settled]; intros [= <- <-].
  - rewrite !map_map. repeat split.
  - repeat split.
Qed.

Lemma layout_preserves_graph_witness :
  exists nodes',
    settled (layoutGraph (fun _ => Returns NaN) centered_layout [lone_node] [])
    = Returns (nodes', []) /\
    map Node.id nodes' = map Node.id [lone_node] /\
    map Node.data nodes' = map Node.data [lone_node].
Proof.
  assert (Hs : exists nodes',
             settled (layoutGraph (fun _ => Returns NaN) centered_layout
                        [lone_node] [])
             = Returns (nodes', [])).
  { eexists. vm_compute. reflexivity. }
  destruct Hs as (nodes' & Hs). exists nodes'. split; [exact Hs|].
  destruct (layout_preserves_graph _ _ _ _ _ _ Hs) as (_ & Hid & _ & Hdata).
  split; assumption.
Defined.



(** X25: a node whose label is a string is given a width between 200 and
    500 and the height 80 in the layout request, whatever the length of
    the label. *)
Theorem string_label_width
  (toNumber : json -> completion number) (node : Node.t) (s : string) :
  Node.label (Node.data node) = JStr s ->
  exists w,
    elkChild toNumber node
    = Returns {| Elk.id := Node.id node;
                 Elk.width := Num w;
                 Elk.height := JsNumber.ofNat 80 |} /\
    (inject_Z 200 <= w)%Q /\ (w <= inject_Z 500)%Q.
Proof.
  intros Hlabel. unfold elkChild, labelLength. rewrite Hlabel.
  assert (Hlen : (if truthy (JStr s)
                  then Returns (JsNumber.ofNat (String.length s))
                  else Returns (JsNumber.ofNat 0))
                 = Returns (JsNumber.ofNat (String.length s))).
  { destruct s; reflexivity. }
  rewrite Hlen. cbn [bind].
  destruct (clamp_bounds
              (inject_Z (Z.of_nat (String.length s)) * inject_Z (Z.of_nat 8)
               + inject_Z (Z.of_nat 60))) as (w & Hw & Hlo & Hhi).
  exists w. split; [|auto]. rewrite <- Hw. reflexivity.
Qed.

Lemma string_label_width_witness :
  Node.label (Node.data lone_node) = JStr "a.json" /\
  exists w,
    elkChild (fun _ => Returns NaN) lone_node
    = Returns {| Elk.id := Node.id lone_node;
                 Elk.width := Num w;
                 Elk.height := JsNumber.ofNat 80 |} /\
    (inject_Z 200 <= w)%Q /\ (w <= inject_Z 500)%Q.
Proof.
  split; [reflexivity|].
  exact (string_label_width (fun _ => Returns NaN) lone_node "a.json" eq_refl).
Defined.

(** X26: [layoutGraph] rejects only while building the request, before
    the layout computation is called; when no label is an object with a
    [length] entry it never rejects, whether the layout computation
    succeeds or fails. *)
Theorem layout_never_rejects
  (toNumber : json -> completion number)
  (elkLayout : Elk.Graph -> completion Elk.Layout)
  (nodes : list Node.t) (es : list Edge.t) :
  (forall node l, In node nodes ->
     Node.label (Node.data node) = JObj l -> assoc "length" l = None) ->
  exists nodes',
    settled (layoutGraph toNumber elkLayout nodes es) = Returns (nodes', es).
Proof.
  intros Hlabels. unfold layoutGraph, elkGraph.
  destruct (elkGraph_children_returns toNumber nodes) with (acc := @nil Elk.Child)
    as [children ->].
  - intros node Hin. unfold elkChild.
    destruct (labelLength_returns toNumber (Node.label (Node.data node)))
      as [n ->]; [intros l Hl; exact (Hlabels node l Hin Hl)|].
    cbn [bind]. eauto.
  - cbn [bind].
    match goal with
    | |- context [elkLayout ?g] => destruct (elkLayout g)
    end; cbn [settled]; eauto.
Qed.

Lemma layout_never_rejects_witness :
  (forall node l, In node [lone_node] ->
     Node.label (Node.data node) = JObj l -> assoc "length" l = None) /\
  exists nodes',
    settled (layoutGraph (fun _ => Throws TypeError) failing_layout
               [lone_node] [])
    = Returns (nodes', []).
Proof.
  assert (H : forall node l, In node [lone_node] ->
                Node.label (Node.data node) = JObj l ->
                assoc "length" l = None).
  { intros node l [<-|[]] Hl. discriminate Hl. }
  split; [exact H|].
  exact (layout_never_rejects (fun _ => Throws TypeError) failing_layout
           [lone_node] [] H).
Defined.

(** ** The tree of one schema *)

Module TreeFacts.

Lemma withEntry_assoc {R} key (k : json -> R) d l :
  withEntry key k d l = match assoc key l with Some v => k v | None => d end.
Proof.
  induction l as [|[key' v] l IH]; [reflexivity|].
  cbn [withEntry assoc]. destruct (key' =? key); [reflexivity|exact IH].
Qed.

Lemma forEntries_forEachM {St} (f : string -> json -> St -> completion St) l s :
  forEntries f l s = forEachM (fun s e => f (fst e) (snd e) s) l s.
Proof.
  revert s. induction l as [|[key v] l IH]; intros s; [reflexivity|].
  cbn [forEntries forEachM fst snd]. destruct (f key v s); cbn [bind]; auto.
Qed.

Lemma forElements_forEachM {St} (f : string -> json -> St -> completion St)
  i l s :
  forElements f i l s
  = forEachM (fun s e => f (fst e) (snd e) s) (indexed i l) s.
Proof.
  revert i s. induction l as [|v l IH]; intros i s; [reflexivity|].
  cbn [forElements indexed forEachM fst snd].
  destruct (f (JsString.ofIndex i) v s); cbn [bind]; auto.
Qed.

Lemma forEachM_ext_in {A St} (f g : St -> A -> completion St) l s :
  (forall a s', In a l -> f s' a = g s' a) ->
  forEachM f l s = forEachM g l s.
Proof.
  revert s. induction l as [|a l IH]; intros s H; [reflexivity|].
  cbn [forEachM]. rewrite H by now left.
  destruct (g s a); cbn [bind]; [|reflexivity].
  apply IH. intros b s' Hb. apply H. now right.
Qed.

Lemma forEachM_map {A B St} (f : St -> B -> completion St) (h : A -> B) l s :
  forEachM f (map h l) s = forEachM (fun s a => f s (h a)) l s.
Proof.
  revert s. induction l as [|a l IH]; intros s; [reflexivity|].
  cbn [map forEachM]. destruct (f s (h a)); cbn [bind]; auto.
Qed.

Lemma In_chars k v i s : In (k, v) (chars i s) -> exists c, v = JStr c.
Proof.
  revert i. induction s as [|a s IH]; intros i H; cbn [chars] in H;
    [contradiction|].
  destruct H as [H|H]; [injection H as _ <-; eauto|eauto].
Qed.

(** On a value that is not an object [traverse] makes the node and
    stops. *)
Lemma traverseTree_leaf obj parentId label st :
  (forall l, obj <> JObj l) ->
  traverseTree obj parentId label st = visitLeaf label obj parentId st.
Proof.
  intros H. unfold visitLeaf.
  destruct obj; try (cbn [traverseTree];
    destruct (visit _ parentId label st) as [[id st1]|]; reflexivity).
  now destruct (H entries).
Qed.

Lemma forChildren_forEachM (lab : string -> string) id v s :
  forChildren
    (fun key child s => traverseTree child (Some id) (lab key) s)
    (fun key child s => visitLeaf (lab key) child (Some id) s) v s
  = forEachM (fun s e => traverseTree (snd e) (Some id) (lab (fst e)) s)
      (ownEntries v) s.
Proof.
  destruct v; try reflexivity; cbn [forChildren ownEntries].
  - rewrite forEntries_forEachM. apply forEachM_ext_in.
    intros [k c] s' Hin. cbn [fst snd].
    apply In_chars in Hin as [ch ->]. symmetry.
    apply traverseTree_leaf. discriminate.
  - apply forElements_forEachM.
  - apply forEntries_forEachM.
Qed.

(** [traverse], one call unfolded: the node, then the children in
    order. *)
Lemma traverseTree_eq obj parentId label st :
  traverseTree obj parentId label st
  = r <- visit obj parentId label st ;;
    forEachM (fun s e => traverseTree (snd e) (Some (fst r)) (fst e) s)
      (treeChildren obj) (snd r).
Proof.
  destruct obj as [| | | |l|l];
    try (cbn [traverseTree];
         destruct (visit _ parentId label st) as [[id st1]|]; reflexivity).
  cbn [traverseTree].
  destruct (visit (JObj l) parentId label st) as [[id st1]|]; [|reflexivity].
  cbn [bind fst snd]. unfold treeChildren. cbn [getProp].
  rewrite !withEntry_assoc.
  destruct (truthyOpt (assoc "properties" l)) eqn:Ep.
  { destruct (assoc "properties" l) as [props|]; [|discriminate].
    apply (forChildren_forEachM (fun key => key)). }
  destruct (truthyOpt (assoc "items" l)) eqn:Ei.
  { destruct (assoc "items" l) as [items|]; [|discriminate].
    cbn [forEachM fst snd].
    now destruct (traverseTree items (Some id) "items" st1). }
  destruct (truthyOpt (assoc "definitions" l)) eqn:Ed.
  { destruct (assoc "definitions" l) as [defs|]; [|discriminate].
    cbn [truthyOpt] in Ed. rewrite Ed, forEachM_map.
    apply (forChildren_forEachM (fun key => ("def: " ++ key)%string)). }
  destruct (truthyOpt (assoc "$defs" l)) eqn:Es.
  { destruct (assoc "$defs" l) as [defs|]; [|discriminate].
    cbn [truthyOpt] in Es. rewrite Es, forEachM_map.
    apply (forChildren_forEachM (fun key => ("def: " ++ key)%string)). }
  destruct (assoc "$defs" l) as [defs|]; [|reflexivity].
  cbn [truthyOpt] in Es. now rewrite Es.
Qed.

(** *** Induction that reaches the children of [traverse] *)

Lemma In_treeChildren obj label child :
  In (label, child) (treeChildren obj) ->
  exists k v, In (k, v) (ownEntries obj) /\
              (child = v \/ exists k', In (k', child) (ownEntries v)).
Proof.
  unfold treeChildren. destruct obj as [| | | |l|l]; try contradiction.
  cbn [getProp ownEntries].
  assert (Hassoc : forall key v, assoc key l = Some v -> In (key, v) l)
    by (intros; now apply assoc_In).
  destruct (truthyOpt (assoc "properties" l)).
  { destruct (assoc "properties" l) as [props|] eqn:E; [|contradiction].
    intros H. exists "properties", props. split; [auto|]. right. eauto. }
  destruct (truthyOpt (assoc "items" l)).
  { destruct (assoc "items" l) as [items|] eqn:E; [|contradiction].
    intros [H|[]]. injection H as _ <-. exists "items", items. auto. }
  destruct (truthyOpt (assoc "definitions" l)).
  - destruct (assoc "definitions" l) as [defs|] eqn:E; [|contradiction].
    destruct (truthy defs); [|contradiction].
    intros H. apply in_map_iff in H as ([k c] & [= <- <-] & Hin).
    exists "definitions", defs. split; [auto|]. right. eauto.
  - destruct (assoc "$defs" l) as [defs|] eqn:E; [|contradiction].
    destruct (truthy defs); [|contradiction].
    intros H. apply in_map_iff in H as ([k c] & [= <- <-] & Hin).
    exists "$defs", defs. split; [auto|]. right. eauto.
Qed.

Section TreeInduction.
Variable P : json -> Prop.
Hypothesis step :
  forall obj,
    (forall label child, In (label, child) (treeChildren obj) -> P child) ->
    P obj.

Lemma tree_ind_both v :
  P v /\ forall k c, In (k, c) (ownEntries v) -> P c.
Proof.
  induction v as [|b|r|s|l IH|l IH] using json_ind.
  - split; [|intros k c []]. apply step. intros label child [].
  - split; [|intros k c []]. apply step. intros label child [].
  - split; [|intros k c []]. apply step. intros label child [].
  - split.
    + apply step. intros label child [].
    + intros k c Hin. apply In_chars in Hin as [ch ->].
      apply step. intros label child [].
  - split.
    + apply step. intros label child [].
    + intros k c Hin. apply In_indexed in Hin.
      rewrite Forall_forall in IH. now apply IH.
  - rewrite Forall_forall in IH.
    assert (Hentries : forall k c, In (k, c) l -> P c)
      by (intros k c Hin; exact (proj1 (IH (k, c) Hin))).
    split; [|exact Hentries].
    apply step. intros label child Hin.
    apply In_treeChildren in Hin as (k & v & Hv & [->|[k' Hc]]).
    + exact (Hentries k v Hv).
    + exact (proj2 (IH (k, v) Hv) k' child Hc).
Qed.

(** A property holds of every value when it holds of a value as soon as
    it holds of the children [traverse] goes into. *)
Lemma tree_ind v : P v.
Proof. exact (proj1 (tree_ind_both v)). Qed.

End TreeInduction.

End TreeFacts.

Module TreeGrowth.
Import TreeFacts.

Lemma nodeName_nonEmpty i : nonEmpty (nodeName i) = true.
Proof. reflexivity. Qed.

Lemma nodeName_inj a b : nodeName a = nodeName b -> a = b.
Proof.
  unfold nodeName, JsString.ofIndex. cbn [String.append]. intros [= H].
  apply DecimalNat.Unsigned.to_uint_inj.
  apply (f_equal NilEmpty.uint_of_string) in H.
  rewrite !NilEmpty.usu in H. now injection H.
Qed.

(** What the head of a call does to the state. *)
Lemma visit_inv obj p label st id st1 :
  visit obj p label st = Returns (id, st1) ->
  id = nodeName (idCounter st) /\
  idCounter st1 = S (idCounter st) /\
  map TreeNode.id (treeNodes st1)
  = map TreeNode.id (treeNodes st) ++ [nodeName (idCounter st)] /\
  exists own,
    treeEdges st1 = treeEdges st ++ own /\
    map TreeEdge.target own
    = (if parentGiven p then [nodeName (idCounter st)] else []) /\
    Forall (edgeWithin p (idCounter st)) own.
Proof.
  unfold visit.
  destruct (getPropM obj "type") as [typeProp|]; [|discriminate].
  cbn [bind]. destruct (toString _) as [ty|]; [|discriminate].
  cbn [bind]. intros [= <- <-]. cbn [idCounter treeNodes treeEdges].
  split; [reflexivity|]. split; [reflexivity|]. split.
  { rewrite map_app. reflexivity. }
  assert (Hnone : exists own : list TreeEdge.t,
            treeEdges st = treeEdges st ++ own /\
            map TreeEdge.target own = [] /\
            Forall (edgeWithin p (idCounter st)) own)
    by (exists []; rewrite app_nil_r; auto).
  destruct p as [parent|]; cbn [parentGiven]; [|exact Hnone].
  destruct (nonEmpty parent); [|exact Hnone].
  eexists. split; [reflexivity|]. split; [reflexivity|].
  constructor; [|constructor]. split; [reflexivity|].
  exists (idCounter st). cbn [TreeEdge.target TreeEdge.source]. auto.
Qed.

Lemma edgeWithin_below p c c' e :
  (c <= c')%nat -> edgeWithin p c' e -> edgeWithin p c e.
Proof.
  intros Hc (Hid & b & Hb & Ht & Hs). split; [exact Hid|].
  exists b. split; [lia|]. split; [exact Ht|].
  destruct Hs as [Hs|(a & Ha & Hab & Hsrc)]; [now left|].
  right. exists a. repeat split; (lia || assumption).
Qed.

Lemma grows_refl p st : grows 0 p st st.
Proof.
  exists 0%nat, []. cbn [seq map Nat.sub]. rewrite Nat.add_0_r, !app_nil_r.
  repeat split; auto.
Qed.

Lemma grows_trans a b p st st1 st2 :
  parentGiven p = true ->
  grows a p st st1 -> grows b p st1 st2 -> grows 0 p st st2.
Proof.
  intros Hp (k1 & e1 & _ & Hc1 & Hn1 & He1 & Ht1 & Hw1)
            (k2 & e2 & _ & Hc2 & Hn2 & He2 & Ht2 & Hw2).
  rewrite Hp in *. rewrite Nat.add_0_r, Nat.sub_0_r in Ht1, Ht2.
  exists (k1 + k2)%nat, (e1 ++ e2). rewrite Hp.
  rewrite Nat.add_0_r, Nat.sub_0_r. split; [lia|]. split; [lia|]. split.
  { rewrite Hn2, Hn1, Hc1, seq_app, map_app, app_assoc. reflexivity. }
  split; [now rewrite He2, He1, app_assoc|]. split.
  { rewrite map_app, Ht1, Ht2, Hc1, seq_app, map_app. reflexivity. }
  apply Forall_app. split; [exact Hw1|].
  eapply Forall_impl; [|exact Hw2]. intros e. apply edgeWithin_below. lia.
Qed.

(** A node and, below it, what its children add. *)
Lemma grows_node obj p label st id st1 st2 :
  visit obj p label st = Returns (id, st1) ->
  grows 0 (Some id) st1 st2 ->
  grows 1 p st st2.
Proof.
  intros Hv (k & es & _ & Hc & Hn & He & Ht & Hw).
  apply visit_inv in Hv as (-> & Hc1 & Hn1 & own & He1 & Ht1 & Hw1).
  cbn [parentGiven] in Ht. rewrite nodeName_nonEmpty in Ht.
  rewrite Nat.add_0_r, Nat.sub_0_r, Hc1 in Ht.
  exists (S k), (own ++ es). split; [lia|]. split; [lia|]. split.
  { rewrite Hn, Hn1, Hc1, <- app_assoc. reflexivity. }
  split; [now rewrite He, He1, app_assoc|]. split.
  { rewrite map_app, Ht1, Ht. destruct (parentGiven p).
    - rewrite Nat.add_0_r, Nat.sub_0_r. reflexivity.
    - rewrite Nat.add_1_r. cbn [app Nat.sub]. now rewrite Nat.sub_0_r. }
  apply Forall_app. split; [exact Hw1|].
  eapply Forall_impl; [|exact Hw]. rewrite Hc1.
  intros e (Hid & b & Hb & Htgt & Hs). split; [exact Hid|].
  exists b. split; [lia|]. split; [exact Htgt|]. right.
  destruct Hs as [[= Hs]|(a & Ha & Hab & Hsrc)].
  - exists (idCounter st). repeat split; (lia || auto).
  - exists a. repeat split; (lia || assumption).
Qed.

Lemma grows_children {A} (f : TreeState -> A -> completion TreeState) p l :
  parentGiven p = true ->
  (forall a s s', In a l -> f s a = Returns s' -> grows 1 p s s') ->
  forall st st', forEachM f l st = Returns st' -> grows 0 p st st'.
Proof.
  intros Hp. induction l as [|a l IH]; intros Hf st st' H.
  - injection H as <-. apply grows_refl.
  - cbn [forEachM] in H. destruct (f st a) as [s1|] eqn:E; [|discriminate].
    cbn [bind] in H.
    apply (grows_trans 1 0 p st s1 st' Hp).
    + apply (Hf a); [now left|exact E].
    + apply IH; [|exact H]. intros b s s' Hb. apply Hf. now right.
Qed.

(** Every call of [traverse] that returns has added a node and what is
    below it. *)
Lemma traverseTree_grows obj :
  forall p label st st',
    traverseTree obj p label st = Returns st' -> grows 1 p st st'.
Proof.
  induction obj as [obj IH] using tree_ind. intros p label st st' H.
  rewrite traverseTree_eq in H.
  destruct (visit obj p label st) as [[id st1]|] eqn:Ev; [|discriminate].
  cbn [bind fst snd] in H.
  apply (grows_node _ _ _ _ _ _ _ Ev).
  assert (Hid : id = nodeName (idCounter st)) by now apply visit_inv in Ev.
  refine (grows_children
            (fun s e => traverseTree (snd e) (Some id) (fst e) s)
            (Some id) (treeChildren obj) _ _ st1 st' H).
  - now rewrite Hid.
  - intros [lab child] s s' Hin. cbn [fst snd]. now apply (IH lab child).
Qed.

(** *** Exceptions *)

Lemma visit_throws obj p label st e :
  visit obj p label st = Throws e -> e = TypeError.
Proof.
  unfold visit. destruct (getPropM obj "type") as [ty|e0] eqn:E; cbn [bind].
  - destruct (toString _) as [s|e1] eqn:Es; cbn [bind]; [discriminate|].
    intros [= <-]. exact (GraphMore.toString_throws _ _ Es).
  - intros [= <-]. destruct obj; try discriminate. now injection E as <-.
Qed.

Lemma traverseTree_null p label st :
  traverseTree JNull p label st = Throws TypeError.
Proof. reflexivity. Qed.

Lemma traverseTree_throws obj :
  forall p label st e,
    traverseTree obj p label st = Throws e -> e = TypeError.
Proof.
  induction obj as [obj IH] using tree_ind. intros p label st e H.
  rewrite traverseTree_eq in H.
  destruct (visit obj p label st) as [[id st1]|e0] eqn:Ev; cbn [bind] in H.
  - cbn [fst snd] in H. revert H. generalize st1.
    induction (treeChildren obj) as [|[lab child] l IHl]; intros s H;
      [discriminate|].
    cbn [forEachM fst snd] in H.
    destruct (traverseTree child (Some id) lab s) as [s'|e1] eqn:Ec;
      cbn [bind] in H.
    + apply (IHl (fun l' c Hc => IH l' c (or_intror Hc)) s' H).
    + injection H as <-. apply (IH lab child (or_introl eq_refl) _ _ _ _ Ec).
  - injection H as <-. exact (visit_throws _ _ _ _ _ Ev).
Qed.

End TreeGrowth.

Module TreeMore.
Import TreeFacts TreeGrowth.

Lemma assoc_filter (keep : string -> bool) key l :
  keep key = true ->
  assoc key (filter (fun e => keep (fst e)) l) = assoc key l.
Proof.
  intros Hk. induction l as [|[k v] l IH]; [reflexivity|].
  cbn [filter fst assoc]. destruct (keep k) eqn:E.
  - cbn [assoc]. now rewrite IH.
  - rewrite IH. destruct (String.eqb_spec k key) as [->|]; [congruence|].
    reflexivity.
Qed.

Lemma filter_all {A} (l : list A) : filter (fun _ => true) l = l.
Proof. induction l as [|a l IH]; [reflexivity|]. cbn. now rewrite IH. Qed.

Lemma NoDup_map_inj {A B} (f : A -> B) (l : list A) :
  (forall a b, f a = f b -> a = b) -> NoDup l -> NoDup (map f l).
Proof.
  intros Hinj. induction 1 as [|a l Ha Hl IH]; cbn [map]; constructor; auto.
  intros Hin. apply in_map_iff in Hin as (b & Hb & Hin).
  apply Hinj in Hb. now subst b.
Qed.

Lemma visit_same_type obj obj' p label st :
  getPropM obj "type" = getPropM obj' "type" ->
  visit obj p label st = visit obj' p label st.
Proof. intros H. unfold visit. now rewrite H. Qed.

Lemma treeChildren_withoutOverruled l :
  treeChildren (JObj (withoutOverruled l)) = treeChildren (JObj l).
Proof.
  unfold withoutOverruled, overruled, treeChildren. cbn [getProp].
  destruct (truthyOpt (assoc "properties" l)) eqn:Ep.
  { rewrite (assoc_filter
               (fun k => negb (existsb (String.eqb k)
                                 ["items"; "definitions"; "$defs"])))
      by reflexivity.
    now rewrite Ep. }
  destruct (truthyOpt (assoc "items" l)) eqn:Ei.
  { rewrite !(assoc_filter
                (fun k => negb (existsb (String.eqb k)
                                  ["definitions"; "$defs"])))
      by reflexivity.
    now rewrite Ep, Ei. }
  destruct (truthyOpt (assoc "definitions" l)) eqn:Ed.
  { rewrite !(assoc_filter
                (fun k => negb (existsb (String.eqb k) ["$defs"])))
      by reflexivity.
    now rewrite Ep, Ei, Ed. }
  cbn [existsb negb]. rewrite filter_all. now rewrite Ep, Ei, Ed.
Qed.

Lemma type_withoutOverruled l :
  assoc "type" (withoutOverruled l) = assoc "type" l.
Proof.
  unfold withoutOverruled, overruled.
  destruct (truthyOpt (assoc "properties" l));
    [|destruct (truthyOpt (assoc "items" l));
      [|destruct (truthyOpt (assoc "definitions" l))]].
  - now apply (assoc_filter
                 (fun k => negb (existsb (String.eqb k)
                                   ["items"; "definitions"; "$defs"]))).
  - now apply (assoc_filter
                 (fun k => negb (existsb (String.eqb k)
                                   ["definitions"; "$defs"]))).
  - now apply (assoc_filter
                 (fun k => negb (existsb (String.eqb k) ["$defs"]))).
  - cbn [existsb negb]. now rewrite filter_all.
Qed.

(** *** Clean documents *)

Lemma clean_entries v k c :
  clean v = true -> In (k, c) (ownEntries v) -> clean c = true.
Proof.
  destruct v as [| | |s|l|l]; try contradiction; cbn [ownEntries clean].
  - intros _ Hin. now apply In_chars in Hin as [ch ->].
  - intros H Hin. apply ExtractFacts.In_indexed in Hin.
    rewrite forallb_forall in H. auto.
  - intros H Hin. apply andb_true_iff in H as [_ H].
    rewrite forallb_forall in H. exact (H (k, c) Hin).
Qed.

Lemma clean_children obj label child :
  clean obj = true -> In (label, child) (treeChildren obj) ->
  clean child = true.
Proof.
  intros Hc Hin.
  apply In_treeChildren in Hin as (k & v & Hv & [->|[k' Hin]]).
  - exact (clean_entries _ _ _ Hc Hv).
  - exact (clean_entries _ _ _ (clean_entries _ _ _ Hc Hv) Hin).
Qed.

Lemma toString_returns v :
  clean v = true -> exists s, toString v = Returns s.
Proof.
  induction v as [|b|r|s|l IH|l IH] using json_ind; intros Hc;
    try discriminate; try (cbn [toString]; eauto).
  - destruct b; eauto.
  - cbn [clean] in Hc.
    match goal with
    | |- exists s, bind (?F l) _ = _ =>
        assert (HF : exists parts, F l = Returns parts)
    end.
    { induction IH as [|x l Hx Hl IHl]; [cbn; eauto|].
      cbn [forallb] in Hc. apply andb_true_iff in Hc as [Hcx Hcl].
      destruct (IHl Hcl) as [rest Hrest].
      destruct (Hx Hcx) as [sx Hsx].
      exists (sx :: rest). cbn [bind].
      destruct x; try discriminate Hcx;
        (etransitivity;
         [apply (f_equal (fun c => bind c _)); exact Hsx|]);
        cbn [bind]; rewrite Hrest; reflexivity. }
    destruct HF as [parts ->]. cbn [bind]. eauto.
  - cbn [clean] in Hc. apply andb_true_iff in Hc as [Hc _].
    destruct (assoc "toString" l); [discriminate|eauto].
Qed.

Lemma visit_returns obj p label st :
  clean obj = true -> exists r, visit obj p label st = Returns r.
Proof.
  intros Hc. unfold visit.
  assert (Hget : getPropM obj "type" = Returns (getProp obj "type"))
    by (destruct obj; try reflexivity; discriminate).
  rewrite Hget. cbn [bind].
  assert (Hty : clean (orElse (getProp obj "type") (JStr "object")) = true).
  { unfold orElse. destruct (getProp obj "type") as [v|] eqn:E; [|reflexivity].
    destruct (truthy v); [|reflexivity].
    destruct obj; try discriminate E. cbn [getProp] in E.
    apply ExtractFacts.assoc_In in E.
    exact (clean_entries (JObj entries) _ _ Hc E). }
  destruct (toString_returns _ Hty) as [s ->]. cbn [bind]. eauto.
Qed.

Lemma traverseTree_returns obj :
  clean obj = true ->
  forall p label st, exists st', traverseTree obj p label st = Returns st'.
Proof.
  induction obj as [obj IH] using tree_ind. intros Hc p label st.
  rewrite traverseTree_eq.
  destruct (visit_returns obj p label st Hc) as [[id st1] ->].
  cbn [bind fst snd]. apply GraphMore.forEachM_returns.
  intros [lab child] s Hin. cbn [fst snd].
  apply (IH lab child Hin). exact (clean_children _ _ _ Hc Hin).
Qed.

End TreeMore.

(** ** The tree of one schema, stated *)

Import TreeFacts TreeGrowth TreeMore.

(** X27: the graph [schemaToGraph] returns is a tree in creation order:
    its nodes are [node-0], ..., [node-n], all distinct; there is exactly
    one edge into each node but the first, in the order of the nodes; and
    every edge, named [edge-source-target], leaves from a node made before
    its target. *)
Theorem schemaToGraph_tree
  (schema : json) (nodes : list TreeNode.t) (es : list TreeEdge.t) :
  schemaToGraph schema = Returns (nodes, es) ->
  exists n,
    map TreeNode.id nodes = map nodeName (seq 0 (S n)) /\
    NoDup (map TreeNode.id nodes) /\
    map TreeEdge.target es = map nodeName (seq 1 n) /\
    Forall (fun e =>
              TreeEdge.id e
              = ("edge-" ++ TreeEdge.source e ++ "-" ++ TreeEdge.target e)%string
              /\
              exists a b,
                (a < b)%nat /\ (b <= n)%nat /\
                TreeEdge.source e = nodeName a /\
                TreeEdge.target e = nodeName b) es.
Proof.
  unfold schemaToGraph.
  destruct (traverseTree schema None "Root" _) as [st|] eqn:E; [|discriminate].
  cbn [bind]. intros [= <- <-].
  apply traverseTree_grows in E as (k & newE & Hk & _ & Hn & He & Ht & Hw).
  cbn [idCounter treeNodes treeEdges parentGiven map app Nat.add] in *.
  destruct k as [|n]; [lia|]. exists n.
  cbn [Nat.sub] in Ht. rewrite Nat.sub_0_r in Ht. subst.
  split; [exact Hn|]. split.
  { rewrite Hn. apply NoDup_map_inj; [|apply seq_NoDup].
    intros a b. apply nodeName_inj. }
  split; [exact Ht|].
  apply Forall_forall. intros e Hin.
  rewrite Forall_forall in Hw.
  destruct (Hw e Hin) as (Hid & b & _ & Htgt & Hs). split; [exact Hid|].
  destruct Hs as [Hs|(a & _ & Hab & Hsrc)]; [discriminate|].
  exists a, b. split; [exact Hab|]. split; [|auto].
  assert (Hb : In (TreeEdge.target e) (map nodeName (seq 1 n)))
    by (rewrite <- Ht; now apply in_map).
  apply in_map_iff in Hb as (b' & Hb' & Hseq).
  rewrite Htgt in Hb'. apply nodeName_inj in Hb'. subst b'.
  apply in_seq in Hseq. lia.
Qed.

Lemma schemaToGraph_tree_witness :
  exists nodes es n,
    schemaToGraph person_schema = Returns (nodes, es) /\
    map TreeNode.id nodes = map nodeName (seq 0 (S n)) /\
    map TreeEdge.target es = map nodeName (seq 1 n).
Proof.
  assert (Hg : exists nodes es,
             schemaToGraph person_schema = Returns (nodes, es)).
  { eexists. eexists. vm_compute. reflexivity. }
  destruct Hg as (nodes & es & Hg).
  destruct (schemaToGraph_tree _ _ _ Hg) as (n & Hn & _ & Ht & _).
  exists nodes, es, n. auto.
Defined.

(** X28: a [null] document, or a document with a [null] property schema,
    makes [schemaToGraph] throw a [TypeError]. *)
Theorem schemaToGraph_throws (schema : json) :
  poisonedDocument schema ->
  schemaToGraph schema = Throws TypeError.
Proof.
  intros [->|(props & key & Hp & Ht & Hin)]; [reflexivity|].
  unfold schemaToGraph. rewrite traverseTree_eq.
  destruct (visit schema None "Root" _) as [[id st1]|e] eqn:Ev; cbn [bind].
  - cbn [fst snd].
    assert (Hchildren : treeChildren schema = ownEntries props).
    { unfold treeChildren. now rewrite Hp; cbn [truthyOpt]; rewrite Ht. }
    rewrite Hchildren.
    rewrite (GraphMore.forEachM_throws _ _ (key, JNull) _ TypeError);
      auto.
    intros s' [lab child] e. apply traverseTree_throws.
  - now rewrite (visit_throws _ _ _ _ _ Ev).
Qed.

Lemma schemaToGraph_throws_witness :
  poisonedDocument (JObj [("properties", JObj [("x", JNull)])]) /\
  schemaToGraph (JObj [("properties", JObj [("x", JNull)])])
  = Throws TypeError.
Proof.
  assert (Hbad : poisonedDocument (JObj [("properties", JObj [("x", JNull)])])).
  { right. exists (JObj [("x", JNull)]), "x". repeat split. now left. }
  split; [exact Hbad|]. exact (schemaToGraph_throws _ Hbad).
Defined.

(** X29: only the first kind of children that is present counts, at every
    node: with a truthy [properties], the entries [items], [definitions]
    and [$defs] are never looked at; without it and with a truthy [items],
    [definitions] and [$defs]; without both and with a truthy
    [definitions], [$defs]. The call on the node without those entries
    does the same. *)
Theorem tree_precedence
  (l : list (string * json)) (parentId : option string) (label : string)
  (st : TreeState) :
  traverseTree (JObj l) parentId label st
  = traverseTree (JObj (withoutOverruled l)) parentId label st.
Proof.
  rewrite !traverseTree_eq, treeChildren_withoutOverruled.
  rewrite (visit_same_type (JObj l) (JObj (withoutOverruled l)));
    [reflexivity|].
  cbn [getPropM getProp]. now rewrite type_withoutOverruled.
Qed.

(** X30: on a document without [null] and without an own [toString]
    entry, however deep, [schemaToGraph] returns a graph. *)
Theorem schemaToGraph_returns (schema : json) :
  clean schema = true ->
  exists nodes es, schemaToGraph schema = Returns (nodes, es).
Proof.
  intros Hc. unfold schemaToGraph.
  destruct (traverseTree_returns schema Hc None "Root"
              {| idCounter := 0; treeNodes := []; treeEdges := [] |})
    as [st ->].
  cbn [bind]. eauto.
Qed.

Lemma schemaToGraph_returns_witness :
  clean person_schema = true /\
  exists nodes es, schemaToGraph person_schema = Returns (nodes, es).
Proof.
  split; [reflexivity|]. exact (schemaToGraph_returns person_schema eq_refl).
Defined.
